(** * pdf-to-docs: table-of-contents extraction and section hierarchy

  A shallow embedding of the document-structure core of the converter
  (internal/convert: toc.go, the hierarchy builder, util.go and the ToC
  locator of the run file), with the properties of its specification
  stated and settled against it.

  Go strings are byte sequences: they are modelled as [list ascii], and a
  string literal of the source is written [str "..."].  Go's [int] is a
  64-bit integer: it is modelled as [Z], with the wrap-around written out
  where the code does arithmetic on it. *)

From Stdlib Require Import ZArith Ascii String Lia.
From stdpp Require Import gmap strings list sorting.

Set Default Proof Using "Type".

Abbreviation gostring := (list ascii).
Abbreviation str := list_ascii_of_string.

(** ** Go's [int] *)

Module GoInt.
Definition int_min : Z := (- 2 ^ 63)%Z.
Definition int_max : Z := (2 ^ 63 - 1)%Z.

(** Two's complement wrap-around of a 64-bit result. *)
Definition wrap (z : Z) : Z := ((z + 2 ^ 63) mod 2 ^ 64 - 2 ^ 63)%Z.

Definition sub (x y : Z) : Z := wrap (x - y).

End GoInt.

(** ** The [strings] package, on bytes *)

Module Strings.

Fixpoint HasPrefix (s prefix : gostring) {struct prefix} : bool :=
  match prefix, s with
  | [], _ => true
  | p :: prefix', c :: s' => Ascii.eqb c p && HasPrefix s' prefix'
  | _ :: _, [] => false
  end.

(** [strings.Contains]: some suffix of [s] starts with [sub]. *)
Fixpoint Contains (s sub : gostring) : bool :=
  HasPrefix s sub ||
  match s with
  | [] => false
  | _ :: s' => Contains s' sub
  end.

(** The left-to-right scan shared by [ReplaceAll], [Count] and [Split]:
    [skip] is the number of bytes of the occurrence found last that are
    still to be stepped over, so occurrences never overlap. *)
Fixpoint replace_go (old new : gostring) (skip : nat) (s : gostring) : gostring :=
  match s with
  | [] => []
  | c :: s' =>
      match skip with
      | S k => replace_go old new k s'
      | O =>
          if HasPrefix s old
          then new ++ replace_go old new (length old - 1) s'
          else c :: replace_go old new 0 s'
      end
  end.

(** [strings.ReplaceAll(s, old, new)].  Every call of the program passes a
    non-empty literal for [old]; Go's special treatment of an empty [old]
    (insertion between runes) is outside this model, which returns [s]. *)
Definition ReplaceAll (s old new : gostring) : gostring :=
  match old with
  | [] => s
  | _ :: _ => replace_go old new 0 s
  end.

Fixpoint count_go (sub : gostring) (skip : nat) (s : gostring) : nat :=
  match s with
  | [] => 0
  | _ :: s' =>
      match skip with
      | S k => count_go sub k s'
      | O =>
          if HasPrefix s sub
          then S (count_go sub (length sub - 1) s')
          else count_go sub 0 s'
      end
  end.

(** [strings.Count(s, sub)] for a non-empty [sub]. *)
Definition Count (s sub : gostring) : nat := count_go sub 0 s.

(** [cur] holds the piece being read, last byte first. *)
Fixpoint split_go (sep : gostring) (skip : nat) (cur : gostring) (s : gostring)
  : list gostring :=
  match s with
  | [] => [rev cur]
  | c :: s' =>
      match skip with
      | S k => split_go sep k cur s'
      | O =>
          if HasPrefix s sep
          then rev cur :: split_go sep (length sep - 1) [] s'
          else split_go sep 0 (c :: cur) s'
      end
  end.

(** [strings.Split(s, sep)] for a non-empty [sep]: always at least one
    piece, the empty string for an empty [s]. *)
Definition Split (s sep : gostring) : list gostring := split_go sep 0 [] s.

Fixpoint Join (elems : list gostring) (sep : gostring) : gostring :=
  match elems with
  | [] => []
  | [e] => e
  | e :: rest => e ++ sep ++ Join rest sep
  end.

(** *** White space

    [strings.Fields] and [strings.TrimSpace] work on runes and take
    [unicode.IsSpace] for white space.  The table lists the UTF-8 encodings
    of these runes: the six ASCII ones, U+0085, U+00A0, U+1680, U+2000 to
    U+200A, U+2028, U+2029, U+202F, U+205F and U+3000.  Each encoding starts
    with an ASCII byte or a leading byte, which Go's decoder never takes for
    the continuation of an earlier rune, so a white-space rune stands at a
    position of the string exactly when one of the encodings is a prefix of
    the bytes found there, also in a string that is not valid UTF-8. *)
Definition bytes (l : list nat) : gostring := map ascii_of_nat l.

(** The line feed, ["\n"] in the source. *)
Definition nl : gostring := bytes [10].

Definition space_runes : list gostring :=
  map bytes
    [[9]; [10]; [11]; [12]; [13]; [32];
     [194; 133]; [194; 160];
     [225; 154; 128];
     [226; 128; 128]; [226; 128; 129]; [226; 128; 130]; [226; 128; 131];
     [226; 128; 132]; [226; 128; 133]; [226; 128; 134]; [226; 128; 135];
     [226; 128; 136]; [226; 128; 137]; [226; 128; 138];
     [226; 128; 168]; [226; 128; 169]; [226; 128; 175];
     [226; 129; 159];
     [227; 128; 128]].

(** Width in bytes of the white-space rune at the head of [s], 0 when
    there is none. *)
Definition space_width (s : gostring) : nat :=
  match find (λ e, HasPrefix s e) space_runes with
  | Some e => length e
  | None => 0
  end.

Definition flush (cur : gostring) : list gostring :=
  match cur with
  | [] => []
  | _ :: _ => [rev cur]
  end.

Fixpoint fields_go (skip : nat) (cur : gostring) (s : gostring) : list gostring :=
  match s with
  | [] => flush cur
  | c :: s' =>
      match skip with
      | S k => fields_go k cur s'
      | O =>
          match space_width s with
          | O => fields_go 0 (c :: cur) s'
          | S w => flush cur ++ fields_go w [] s'
          end
      end
  end.

(** [strings.Fields(s)]: the maximal runs of runes that are not white
    space. *)
Definition Fields (s : gostring) : list gostring := fields_go 0 [] s.

Fixpoint trimLeft_go (skip : nat) (s : gostring) : gostring :=
  match s with
  | [] => []
  | _ :: s' =>
      match skip with
      | S k => trimLeft_go k s'
      | O =>
          match space_width s with
          | O => s
          | S w => trimLeft_go w s'
          end
      end
  end.

(** For each byte of [s], whether it belongs to a white-space rune. *)
Fixpoint space_flags (skip : nat) (s : gostring) : list bool :=
  match s with
  | [] => []
  | _ :: s' =>
      match skip with
      | S k => true :: space_flags k s'
      | O =>
          match space_width s with
          | O => false :: space_flags 0 s'
          | S w => true :: space_flags w s'
          end
      end
  end.

(** Drops the bytes flagged at the end of [s]. *)
Fixpoint strip_end (flags : list bool) (s : gostring) : gostring :=
  match flags, s with
  | f :: flags', c :: s' =>
      match strip_end flags' s' with
      | [] => if f then [] else [c]
      | r => c :: r
      end
  | _, _ => []
  end.

(** [strings.TrimSpace(s)]. *)
Definition TrimSpace (s : gostring) : gostring :=
  let t := trimLeft_go 0 s in
  strip_end (space_flags 0 t) t.

(** [strings.TrimRight(s, cutset)] and [strings.Trim(s, cutset)] for a
    cutset of one ASCII byte, as the program calls them. *)
Fixpoint TrimRightByte (s : gostring) (c : ascii) : gostring :=
  match s with
  | [] => []
  | x :: s' =>
      match TrimRightByte s' c with
      | [] => if Ascii.eqb x c then [] else [x]
      | r => x :: r
      end
  end.

Fixpoint TrimLeftByte (s : gostring) (c : ascii) : gostring :=
  match s with
  | [] => []
  | x :: s' => if Ascii.eqb x c then TrimLeftByte s' c else s
  end.

Definition TrimByte (s : gostring) (c : ascii) : gostring :=
  TrimRightByte (TrimLeftByte s c) c.

(** *** Lower case

    [strings.ToLower] lowers ASCII letters byte by byte.  Of the runes
    outside ASCII only U+0130 and U+212A have an ASCII lower-case form
    ([i] and [k]); Go maps every other one to a rune outside ASCII (and a
    byte that is not UTF-8 to U+FFFD), which this model copies as it
    stands: the ASCII bytes of the result, all that [slugify] and the
    header test of [findToCBlock] look at, are those Go computes. *)
Definition lower_byte (c : ascii) : ascii :=
  let n := nat_of_ascii c in
  if (65 <=? n)%nat && (n <=? 90)%nat then ascii_of_nat (n + 32) else c.

Fixpoint lower_go (skip : nat) (s : gostring) : gostring :=
  match s with
  | [] => []
  | c :: s' =>
      match skip with
      | S k => lower_go k s'
      | O =>
          if HasPrefix s (bytes [196; 176]) then "i"%char :: lower_go 1 s'
          else if HasPrefix s (bytes [226; 132; 170]) then "k"%char :: lower_go 2 s'
          else lower_byte c :: lower_go 0 s'
      end
  end.

Definition ToLower (s : gostring) : gostring := lower_go 0 s.

(** *** [strconv.Atoi]

    The value and whether the conversion succeeded.  On a syntax error the
    value is 0; out of range it is the nearest bound of [int]. *)
Definition is_digit (c : ascii) : bool :=
  let n := nat_of_ascii c in (48 <=? n)%nat && (n <=? 57)%nat.

Definition digit_val (c : ascii) : Z := (Z.of_nat (nat_of_ascii c) - 48)%Z.

Fixpoint digits_val (acc : Z) (s : gostring) : Z :=
  match s with
  | [] => acc
  | c :: s' => digits_val (10 * acc + digit_val c)%Z s'
  end.

Definition Atoi (s : gostring) : Z * bool :=
  let neg := HasPrefix s (str "-") in
  let ds := if neg || HasPrefix s (str "+") then drop 1 s else s in
  match ds with
  | [] => (0%Z, false)
  | _ :: _ =>
      if forallb is_digit ds then
        let v := digits_val 0 ds in
        if neg then
          if (v <=? 2 ^ 63)%Z then ((- v)%Z, true) else (GoInt.int_min, false)
        else
          if (v <=? GoInt.int_max)%Z then (v, true) else (GoInt.int_max, false)
      else (0%Z, false)
  end.

End Strings.

Import Strings.

(** ** The [regexp] package

    Go's regular expressions return the match a backtracking search finds
    first (leftmost-first).  [run r st] lists, in the order such a search
    tries them, the states reached by matching [r] from [st]; the search
    result is the head of that list at the leftmost start position that has
    one.  The patterns of the program test single bytes only against ASCII
    classes and their complements, so matching byte by byte gives the
    matches Go finds rune by rune. *)

Module Regexp.

Inductive regex : Type :=
| Eps
| Chr (p : ascii → bool)          (* one byte of a class *)
| Seq (r1 r2 : regex)
| Alt (r1 r2 : regex)             (* r1 is preferred *)
| Star (greedy : bool) (r : regex)
| Group (i : nat) (r : regex)     (* capturing group number i *)
| Bol                             (* ^ without the m flag: start of text *)
| Eol                             (* $ without the m flag: end of text *)
| WordB.                          (* \b, ASCII word boundary *)

(** The text on both sides of the current position ([before] holds the
    bytes passed, last one first) and the submatches recorded so far. *)
Record mstate := MState {
  before : gostring;
  after : gostring;
  caps : list gostring
}.

Definition is_word (c : ascii) : bool :=
  let n := nat_of_ascii c in
  ((48 <=? n) && (n <=? 57) || (65 <=? n) && (n <=? 90)
   || (97 <=? n) && (n <=? 122) || (n =? 95))%nat.

Definition word_at (s : gostring) : bool :=
  match s with
  | [] => false
  | c :: _ => is_word c
  end.

(** The bytes passed between [st] and a later state [st']. *)
Definition consumed (st st' : mstate) : gostring :=
  take (length (after st) - length (after st')) (after st).

(** Repetition: a turn that passes no byte is not repeated, so [fuel]
    above the length of the remaining text is never used up. *)
Fixpoint star_go (step : mstate → list mstate) (greedy : bool) (fuel : nat)
    (st : mstate) : list mstate :=
  match fuel with
  | O => [st]
  | S f =>
      let more :=
        step st ≫= λ st',
          if (length (after st') <? length (after st))%nat
          then star_go step greedy f st' else [] in
      if greedy then more ++ [st] else st :: more
  end.

Fixpoint run (r : regex) (st : mstate) : list mstate :=
  match r with
  | Eps => [st]
  | Chr p =>
      match after st with
      | c :: s' => if p c then [MState (c :: before st) s' (caps st)] else []
      | [] => []
      end
  | Seq r1 r2 => run r1 st ≫= run r2
  | Alt r1 r2 => run r1 st ++ run r2 st
  | Star greedy r1 => star_go (run r1) greedy (S (length (after st))) st
  | Group i r1 =>
      (λ st', MState (before st') (after st') (<[i := consumed st st']> (caps st')))
        <$> run r1 st
  | Bol => match before st with [] => [st] | _ :: _ => [] end
  | Eol => match after st with [] => [st] | _ :: _ => [] end
  | WordB => if xorb (word_at (before st)) (word_at (after st)) then [st] else []
  end.

(** x+ and x+? are x followed by x* and x*?; x? prefers to take x. *)
Definition Plus (greedy : bool) (r : regex) : regex := Seq r (Star greedy r).
Definition Opt (r : regex) : regex := Alt r Eps.
Definition Byte (c : ascii) : regex := Chr (Ascii.eqb c).

Fixpoint Lit (s : gostring) : regex :=
  match s with
  | [] => Eps
  | c :: s' => Seq (Byte c) (Lit s')
  end.

(** A compiled expression: the source text it was compiled from, its
    syntax tree and its number of capturing groups. *)
Record Regexp := { expr : string; prog : regex; numSubexp : nat }.

(** The leftmost start position with a match; the result holds the whole
    match at index 0 and the groups after it (the empty string for a group
    that took no part), as [FindStringSubmatch] returns them. *)
Fixpoint search (re : Regexp) (before after : gostring) : option (mstate * mstate) :=
  let st := MState before after (replicate (S (numSubexp re)) []) in
  match run (prog re) st with
  | st' :: _ => Some (st, st')
  | [] =>
      match after with
      | [] => None
      | c :: after' => search re (c :: before) after'
      end
  end.

Definition submatches (found : mstate * mstate) : list gostring :=
  <[0 := consumed found.1 found.2]> (caps found.2).

Definition FindStringSubmatch (re : Regexp) (s : gostring) : list gostring :=
  match search re [] s with
  | Some found => submatches found
  | None => []
  end.

Definition MatchString (re : Regexp) (s : gostring) : bool :=
  match search re [] s with
  | Some _ => true
  | None => false
  end.

(** Successive matches, for [Split] and [ReplaceAllString].  The two
    patterns used with them ([\s{2,}] and [[^a-z0-9\-]+]) match no empty
    string; the loop ends at an empty match, whose treatment by Go is not
    modelled.  [emit] builds the output from the text before a match. *)
Fixpoint each_match (re : Regexp) (fuel : nat) (before after : gostring)
    : list gostring * gostring :=
  match fuel with
  | O => ([], after)
  | S f =>
      match search re before after with
      | None => ([], after)
      | Some (st, st') =>
          match consumed st st' with
          | [] => ([], after)
          | _ :: _ =>
              let piece := take (length after - length (Regexp.after st)) after in
              let '(pieces, last) := each_match re f (Regexp.before st') (Regexp.after st') in
              (piece :: pieces, last)
          end
      end
  end.

(** [re.Split(s, -1)]. *)
Definition Split (re : Regexp) (s : gostring) : list gostring :=
  match s with
  | [] => [[]]
  | _ :: _ => let '(pieces, last) := each_match re (length s) [] s in pieces ++ [last]
  end.

(** [re.ReplaceAllString(s, repl)] for a [repl] without [$]. *)
Definition ReplaceAllString (re : Regexp) (s repl : gostring) : gostring :=
  let '(pieces, last) := each_match re (length s) [] s in
  concat (map (λ piece, piece ++ repl) pieces) ++ last.

End Regexp.

Import Regexp.

(** ** toc.go: entry patterns, line normalisation, section builder *)

Definition re_space (c : ascii) : bool :=          (* \s *)
  let n := nat_of_ascii c in
  ((n =? 9) || (n =? 10) || (n =? 12) || (n =? 13) || (n =? 32))%nat.

Definition re_any (c : ascii) : bool :=            (* . *)
  negb (nat_of_ascii c =? 10)%nat.

Definition re_upper (c : ascii) : bool :=          (* [A-Z] *)
  let n := nat_of_ascii c in ((65 <=? n) && (n <=? 90))%nat.

Definition re_lower (c : ascii) : bool :=          (* [a-z] *)
  let n := nat_of_ascii c in ((97 <=? n) && (n <=? 122))%nat.

Definition re_roman (c : ascii) : bool :=          (* [IVXLCDM] *)
  existsb (Ascii.eqb c) (str "IVXLCDM").

Definition ws : regex := Chr re_space.
Definition digit : regex := Chr is_digit.
Definition dot : regex := Byte ".".

(** The common end of the four entry patterns, [\s+(.+?)\s+(\d+)\s*$],
    whose two groups are numbered [g] and [g+1]. *)
Definition entryTail (g : nat) : regex :=
  Seq (Plus true ws)
    (Seq (Group g (Plus false (Chr re_any)))
       (Seq (Plus true ws)
          (Seq (Group (S g) (Plus true digit))
             (Seq (Star true ws) Eol)))).

Definition tocNumRe : Regexp :=
  {| expr := "^\s*(\d+(?:\.\d+)*)\s+(.+?)\s+(\d+)\s*$";
     prog :=
       Seq Bol (Seq (Star true ws)
         (Seq (Group 1 (Seq (Plus true digit) (Star true (Seq dot (Plus true digit)))))
            (entryTail 2)));
     numSubexp := 3 |}.

Definition tocRomanRe : Regexp :=
  {| expr := "^\s*([IVXLCDM]+)(?:\.([0-9]+))?\s+(.+?)\s+(\d+)\s*$";
     prog :=
       Seq Bol (Seq (Star true ws)
         (Seq (Group 1 (Plus true (Chr re_roman)))
            (Seq (Opt (Seq dot (Group 2 (Plus true digit))))
               (entryTail 3))));
     numSubexp := 4 |}.

(** The number token of the two letter patterns: an upper-case letter
    and any number of dotted digit groups. *)
Definition alphaToken : regex :=
  Seq (Chr re_upper) (Star true (Seq dot (Plus true digit))).

Definition tocAlphaRe : Regexp :=
  {| expr := "^\s*([A-Z](?:\.[0-9]+)*)\s+(.+?)\s+(\d+)\s*$";
     prog := Seq Bol (Seq (Star true ws) (Seq (Group 1 alphaToken) (entryTail 2)));
     numSubexp := 3 |}.

Definition tocAppendixRe : Regexp :=
  {| expr := "^\s*(?:Appendix|APPENDIX)\s+([A-Z](?:\.[0-9]+)*)\s+(.+?)\s+(\d+)\s*$";
     prog :=
       Seq Bol (Seq (Star true ws)
         (Seq (Alt (Lit (str "Appendix")) (Lit (str "APPENDIX")))
            (Seq (Plus true ws) (Seq (Group 1 alphaToken) (entryTail 2)))));
     numSubexp := 3 |}.

Record tocEntry := {
  eNumber : gostring;   (* display number token (e.g., 1.2, I, A.1) *)
  eTitle : gostring;
  ePage : Z;
  eDepth : Z
}.

Definition noEntry : tocEntry :=
  {| eNumber := []; eTitle := []; ePage := 0; eDepth := 0 |}.

(** [m[i]] for a submatch list. *)
Definition sub (m : list gostring) (i : nat) : gostring := nth i m [].

Definition matchToC (line : gostring) : tocEntry * bool :=
  let m := FindStringSubmatch tocAppendixRe line in
  if (length m =? 4)%nat then
    let p := (Atoi (sub m 3)).1 in
    let key := sub m 1 in
    let depth := (Z.of_nat (Count key (str ".")) + 1)%Z in
    ({| eNumber := key; eTitle := TrimSpace (sub m 2); ePage := p; eDepth := depth |}, true)
  else
  let m := FindStringSubmatch tocNumRe line in
  if (length m =? 4)%nat then
    let p := (Atoi (sub m 3)).1 in
    let depth := (Z.of_nat (Count (sub m 1) (str ".")) + 1)%Z in
    ({| eNumber := sub m 1; eTitle := TrimSpace (sub m 2); ePage := p; eDepth := depth |}, true)
  else
  let m := FindStringSubmatch tocAlphaRe line in
  if (length m =? 4)%nat then
    let p := (Atoi (sub m 3)).1 in
    let depth := (Z.of_nat (Count (sub m 1) (str ".")) + 1)%Z in
    ({| eNumber := sub m 1; eTitle := TrimSpace (sub m 2); ePage := p; eDepth := depth |}, true)
  else
  let m := FindStringSubmatch tocRomanRe line in
  if (length m =? 5)%nat then
    let p := (Atoi (sub m 4)).1 in
    (* depth is 1 if only roman; if has .<n>, treat as depth 2 *)
    let '(num, depth) :=
      match sub m 2 with
      | [] => (sub m 1, 1%Z)
      | _ :: _ => (sub m 1 ++ str "." ++ sub m 2, 2%Z)
      end in
    ({| eNumber := num; eTitle := TrimSpace (sub m 3); ePage := p; eDepth := depth |}, true)
  else (noEntry, false).

(** The glyphs of the normaliser: U+2022, U+00B7 and U+2026 in UTF-8, and
    the run of 106 dots of the source. *)
Definition bullet : gostring := bytes [226; 128; 162].
Definition middleDot : gostring := bytes [194; 183].
Definition ellipsis : gostring := bytes [226; 128; 166].
Definition leaderDots : gostring := replicate 106 "."%char.

Definition normalizeDotLeaders (s : gostring) : gostring :=
  let s := ReplaceAll s bullet (str " ") in
  let s := ReplaceAll s middleDot (str " ") in
  let s := ReplaceAll s ellipsis (str " ... ") in
  let s := ReplaceAll s middleDot (str " ") in
  let s := ReplaceAll s ellipsis (str " ... ") in
  let s := ReplaceAll s leaderDots (str " ") in
  let s := ReplaceAll s (str " . . . ") (str " ") in
  Join (Fields s) (str " ").

Definition isToCLine (s : gostring) : bool :=
  let s := normalizeDotLeaders s in
  MatchString tocAppendixRe s || MatchString tocNumRe s
  || MatchString tocAlphaRe s || MatchString tocRomanRe s.

(** [sort.SliceStable] by page: insertion behind the entries of the same
    page keeps the order of reading among equal pages. *)
Fixpoint insertByPage (e : tocEntry) (sorted : list tocEntry) : list tocEntry :=
  match sorted with
  | [] => [e]
  | x :: rest =>
      if (ePage e <? ePage x)%Z then e :: sorted else x :: insertByPage e rest
  end.

Definition sortByPage (out : list tocEntry) : list tocEntry :=
  foldl (λ sorted e, insertByPage e sorted) [] out.

Definition parseToCLines (lines : list gostring) : list tocEntry :=
  let out :=
    foldl (λ out line,
             let '(e, ok) := matchToC (normalizeDotLeaders line) in
             if ok then out ++ [e] else out) [] lines in
  sortByPage out.

(** ** util.go: slugs and the table heuristic *)

Definition nonSlug : Regexp :=
  {| expr := "[^a-z0-9\-]+";
     prog := Plus true (Chr (λ c, negb (re_lower c || is_digit c || Ascii.eqb c "-")));
     numSubexp := 0 |}.

(** [for strings.Contains(s, "--") { s = strings.ReplaceAll(s, "--", "-") }]:
    every turn shortens [s], so [fuel] above its length is not used up. *)
Fixpoint collapseHyphens (fuel : nat) (s : gostring) : gostring :=
  match fuel with
  | O => s
  | S f =>
      if Contains s (str "--")
      then collapseHyphens f (ReplaceAll s (str "--") (str "-"))
      else s
  end.

Definition slugify (s : gostring) : gostring :=
  let s := ToLower s in
  let s := TrimSpace s in
  let s := ReplaceAll s (str " ") (str "-") in
  let s := ReplaceAll s (str "/") (str "-") in
  let s := ReplaceAll s (str ".") (str "-") in
  let s := ReplaceAllString nonSlug s (str "-") in
  let s := TrimByte s "-" in
  collapseHyphens (length s) s.

Definition twoPlusSpaces : Regexp :=
  {| expr := "\s{2,}";
     prog := Seq ws (Seq ws (Star true ws));
     numSubexp := 0 |}.

Definition splitBy2Spaces (s : gostring) : list gostring :=
  Regexp.Split twoPlusSpaces (TrimSpace s).

Definition trimAll (a : list gostring) : list gostring := map TrimSpace a.

(** The inner loop of [transformTables]: grows [block] from line [i] on
    and returns it with [colsCount] and the index it stopped at. *)
Fixpoint growBlock (fuel : nat) (lines : list gostring) (i colsCount : nat)
    (block : list (list gostring)) : list (list gostring) * nat * nat :=
  match fuel with
  | O => (block, colsCount, i)
  | S f =>
      match lines !! i with
      | None => (block, colsCount, i)
      | Some l =>
          let ln := TrimRightByte l " " in
          match ln with
          | [] => (block, colsCount, i)
          | _ :: _ =>
              let parts := splitBy2Spaces ln in
              if (length parts <? 2)%nat then (block, colsCount, i) else
              let colsCount := if (colsCount =? 0)%nat then length parts else colsCount in
              if negb (length parts =? colsCount)%nat then (block, colsCount, i) else
              let block := block ++ [parts] in
              (* stop growing overly large tables (safety) *)
              if (50 <? length block)%nat then (block, colsCount, i) else
              growBlock f lines (S i) colsCount block
          end
      end
  end.

Definition tableRow (cells : list gostring) : gostring :=
  str "| " ++ Join cells (str " | ") ++ str " |".

(** The outer loop: one turn either renders a block as a table or copies
    the lines from [start] to the line the block stopped at. *)
Fixpoint tablesLoop (fuel : nat) (lines : list gostring) (i : nat)
    (out : list gostring) : list gostring :=
  match fuel with
  | O => out
  | S f =>
      if (length lines <=? i)%nat then out else
      let start := i in
      let '(block, colsCount, i) := growBlock (S (length lines)) lines i 0 [] in
      if (2 <=? length block)%nat && (2 <=? colsCount)%nat then
        let header := nth 0 block [] in
        let out := out ++ [tableRow (trimAll header)] in
        let out := out ++ [tableRow (map (λ _, str "---") header)] in
        let out := out ++ map (λ row, tableRow (trimAll row)) (drop 1 block) in
        (* Skip the newline at i (if present) *)
        match lines !! i with
        | Some l =>
            match TrimSpace l with
            | [] => tablesLoop f lines (S i) (out ++ [[]])
            | _ :: _ => tablesLoop f lines i out
            end
        | None => tablesLoop f lines i out
        end
      else
        (* No table block; add original line and advance *)
        let out := out ++ take (S i - start) (drop start lines) in
        tablesLoop f lines (S i) out
  end.

Definition transformTables (text : gostring) : gostring :=
  let lines := Strings.Split text nl in
  Join (tablesLoop (S (length lines)) lines 0 []) nl.

(** ** Sections *)

(** [Section] of types.go ([Section] and [End] are reserved words here). *)
#[warnings="-register-all"]
Inductive SectionT : Type := mkSection {
  Number : gostring;
  Title : gostring;
  Start : Z;
  EndPage : Z;
  Depth : Z;
  Slug : gostring;
  Children : list SectionT
}.

Definition withChildren (p : SectionT) (children : list SectionT) : SectionT :=
  mkSection (Number p) (Title p) (Start p) (EndPage p) (Depth p) (Slug p) children.

Definition sectionOfEntry (entries : list tocEntry) (i : nat) (e : tocEntry) : SectionT :=
  let n := length entries in
  let endp :=
    if (Z.of_nat i <? Z.of_nat n - 1)%Z then
      match entries !! (i + 1) with
      | Some next =>
          let endp := GoInt.sub (ePage next) 1 in
          if (endp <? ePage e)%Z then ePage e else endp
      | None => ePage e          (* i+1 is in range here *)
      end
    else ePage e in
  let slug := slugify (eNumber e ++ str "-" ++ eTitle e) in
  mkSection (eNumber e) (eTitle e) (ePage e) endp (eDepth e) slug [].

(** [for i, e := range entries]: [rest] is what remains to be visited and
    [i] the index of its head in [entries]. *)
Fixpoint buildLoop (entries : list tocEntry) (maxDepth : Z) (i : nat)
    (rest : list tocEntry) (sections : list SectionT) : list SectionT :=
  match rest with
  | [] => sections
  | e :: rest' =>
      if (eDepth e >? maxDepth)%Z
      then buildLoop entries maxDepth (S i) rest' sections
      else buildLoop entries maxDepth (S i) rest' (sections ++ [sectionOfEntry entries i e])
  end.

Definition buildSections (entries : list tocEntry) (maxDepth : Z) : list SectionT :=
  let maxDepth := if (maxDepth <=? 0)%Z then 10%Z else maxDepth in
  buildLoop entries maxDepth 0 entries [].

(** ** The hierarchy builder

    Slices are modelled by lists.  The code appends to [Children] slices
    and stores the struct back; a copy of a section taken earlier keeps the
    length of its own slice header, so it never sees elements appended
    later.  Lists, being values, behave the same way.  (The sections handed
    to the builder come from [buildSections] or the fallback splitter with
    nil [Children], so no two of them share a backing array.) *)

(** [for j := i - 1; j >= 0; j--]: looks at the indices below [j], highest
    first, for a section of lower depth whose number followed by a dot is a
    prefix of the number of [s]. *)
Fixpoint scanBack (nodes : list SectionT) (s : SectionT) (j : nat) : option nat :=
  match j with
  | O => None
  | S j' =>
      match nodes !! j' with
      | Some nj =>
          if (Depth nj <? Depth s)%Z && HasPrefix (Number s) (Number nj ++ str ".")
          then Some j'
          else scanBack nodes s j'
      | None => scanBack nodes s j'
      end
  end.

(** One turn of [for i := range nodes]. *)
Definition attachStep (st : list SectionT * list SectionT) (i : nat)
    : list SectionT * list SectionT :=
  let '(nodes, roots) := st in
  match nodes !! i with
  | None => st
  | Some s =>
      match scanBack nodes s i with
      | None => (nodes, roots ++ [s])
      | Some parentIdx =>
          match nodes !! parentIdx with
          | Some p => (<[parentIdx := withChildren p (Children p ++ [s])]> nodes, roots)
          | None => st
          end
      end
  end.

(** [byNumber[n.Number] = n] for every node in turn: a later node of the
    same number replaces an earlier one. *)
Definition byNumberOf (nodes : list SectionT) : gmap gostring SectionT :=
  foldl (λ byNumber n, <[Number n := n]> byNumber) ∅ nodes.

Definition rebuildWithChildrenOrder (roots nodes : list SectionT) : list SectionT :=
  let byNumber := byNumberOf nodes in
  map (λ r, match byNumber !! Number r with
            | Some v => v
            | None => r
            end) roots.

Definition attachChildren (flat : list SectionT) : list SectionT :=
  let '(nodes, roots) := foldl attachStep (flat, []) (seq 0 (length flat)) in
  rebuildWithChildrenOrder roots nodes.

(** The first part of [buildHierarchy] keeps a stack of indices into [out];
    its results are dropped, but it slices the stack and indexes [out], and
    Go panics when that goes out of range: [None] stands for the panic.
    The stack is kept with its top first. *)
Fixpoint trimStack (stack : list nat) (depth : Z) : option (list nat) :=
  if (Z.of_nat (length stack) >=? depth)%Z then
    match stack with
    | [] => None                       (* stack[:len(stack)-1] with len 0 *)
    | _ :: stack' => trimStack stack' depth
    end
  else Some stack.

Record hstate := HState {
  h_roots : list SectionT;
  h_stack : list nat;
  h_out : list SectionT
}.

Definition stackStep (st : hstate) (s : SectionT) : option hstate :=
  stack ← trimStack (h_stack st) (Depth s);
  match stack with
  | [] =>
      (* top-level *)
      Some (HState (h_roots st ++ [s]) [length (h_out st)] (h_out st ++ [s]))
  | parentIdx :: _ =>
      parent ← h_out st !! parentIdx;
      if HasPrefix (Number s ++ str ".") (Number parent ++ str ".")
         || HasPrefix (Number s) (Number parent ++ str ".")
      then
        let out := <[parentIdx := withChildren parent (Children parent ++ [s])]> (h_out st) in
        Some (HState (h_roots st) (length out :: stack) (out ++ [s]))
      else
        (* if numbering doesn't match, treat as new root-level *)
        Some (HState (h_roots st ++ [s]) [length (h_out st)] (h_out st ++ [s]))
  end.

Fixpoint stackLoop (st : hstate) (sections : list SectionT) : option hstate :=
  match sections with
  | [] => Some st
  | s :: rest => st' ← stackStep st s; stackLoop st' rest
  end.

Definition buildHierarchy (sections : list SectionT) : option (list SectionT) :=
  _ ← stackLoop (HState [] [] []) sections;
  Some (attachChildren sections).

Definition filterTopLevel (sections : list SectionT) : list SectionT :=
  filter (λ s, Depth s = 1%Z) sections.

(** ** The ToC locator *)

(** A letter of a literal under the [i] flag: both cases of the letter
    and, by Unicode simple folding, U+017F for [s] and U+212A for [k]. *)
Definition foldChar (c : ascii) : regex :=
  let either := Chr (λ x, Ascii.eqb (lower_byte x) c) in
  if Ascii.eqb c "s" then Alt either (Lit (bytes [197; 191]))
  else if Ascii.eqb c "k" then Alt either (Lit (bytes [226; 132; 170]))
  else either.

Fixpoint LitFold (s : gostring) : regex :=
  match s with
  | [] => Eps
  | c :: s' => Seq (foldChar c) (LitFold s')
  end.

Definition headerRe : Regexp :=
  {| expr := "(?i)\btable of contents\b|^\s*contents\s*$";
     prog :=
       Alt (Seq WordB (Seq (LitFold (str "table of contents")) WordB))
           (Seq Bol (Seq (Star true ws)
              (Seq (LitFold (str "contents")) (Seq (Star true ws) Eol))));
     numSubexp := 0 |}.

Definition pageNumRe : Regexp :=
  {| expr := "\b\d+\s*$";
     prog := Seq WordB (Seq (Plus true digit) (Seq (Star true ws) Eol));
     numSubexp := 0 |}.

Definition isHeaderPage (p : gostring) : bool :=
  MatchString headerRe p || Contains (ToLower p) (str "table of contents").

Definition findToCBlock (pages : list gostring) : list gostring :=
  let lines :=
    foldl (λ lines p,
             if isHeaderPage p then
               foldl (λ lines ln,
                        if MatchString pageNumRe (TrimSpace ln)
                        then lines ++ [ln] else lines)
                     lines (Strings.Split p nl)
             else lines)
          [] (take 6 pages) in
  match lines with
  | _ :: _ => lines
  | [] =>
      (* Fallback: scan early pages for lines with trailing page numbers
         and leading numbering *)
      foldl (λ lines p,
               foldl (λ lines ln,
                        let ln := TrimSpace ln in
                        if isToCLine ln then lines ++ [ln] else lines)
                     lines (Strings.Split p nl))
            [] (take 6 pages)
  end.

Definition matchToCLines (p : gostring) : bool :=
  existsb (λ ln, isToCLine (TrimSpace ln)) (Strings.Split p nl).

(** [for i := 0; i < len(pages) && i < n; i++] with its [break]: the
    index of the first page among the first [n] that has the header or a
    ToC line. *)
Fixpoint firstToCPage (n : Z) (i : nat) (rest : list gostring) : option nat :=
  match rest with
  | [] => None
  | p :: rest' =>
      if (Z.of_nat i <? n)%Z then
        if MatchString headerRe p || matchToCLines p then Some i
        else firstToCPage n (S i) rest'
      else None
  end.

(** One line of a page in the extension loop: the lines gathered so far
    and the [added] flag. *)
Definition scanLine (acc : list gostring * bool) (ln : gostring) : list gostring * bool :=
  let '(lines, added) := acc in
  let ln := TrimSpace ln in
  match ln with
  | [] => (lines, added)                       (* continue *)
  | _ :: _ => if isToCLine ln then (lines ++ [ln], true) else (lines, added)
  end.

(** The lines one page adds, with the [added] flag. *)
Definition scanPage (lines : list gostring) (p : gostring) : list gostring * bool :=
  foldl scanLine (lines, false) (Strings.Split p nl).

(** [for i := lastPage + 1; i < len(pages) && i <= lastPage+extend; i++],
    which stops at a page that adds nothing.  [fuel] bounds the number of
    turns; the pages left are never more than [fuel]. *)
Fixpoint extendLoop (fuel : nat) (pages : list gostring) (last : Z) (i : nat)
    (lines : list gostring) : list gostring :=
  match fuel with
  | O => lines
  | S f =>
      match pages !! i with
      | None => lines
      | Some p =>
          if (Z.of_nat i <=? last)%Z then
            let '(lines', added) := scanPage lines p in
            if added then extendLoop f pages last (S i) lines' else lines'
          else lines
      end
  end.

Definition findToCMultiPage (pages : list gostring) (n : Z) : list gostring :=
  let n := if (n <=? 0)%Z then 8%Z else n in
  (* First try the simple detector. *)
  let lines := findToCBlock pages in
  match lines with
  | _ :: _ =>
      let lastPage :=
        match firstToCPage n 0 pages with
        | Some i => i
        | None => O
        end in
      let extend := (n `quot` 2)%Z in
      let extend := if (extend <? 2)%Z then 2%Z else extend in
      extendLoop (length pages) pages (Z.of_nat lastPage + extend) (S lastPage) lines
  | [] =>
      foldl (λ out '(i, p),
               if (Z.of_nat i <? n)%Z then (scanPage out p).1 else out)
            [] (imap pair pages)
  end.

(** * Properties *)

(** ** Page spans ([buildSections]) *)

Local Open Scope Z_scope.

(** A page number as [strconv.Atoi] yields it for a run of digits. *)
Definition page_ok (e : tocEntry) : Prop := 0 ≤ ePage e ≤ GoInt.int_max.

(** The end page the specification gives the entry at index [i]. *)
Definition claimedEnd (entries : list tocEntry) (i : nat) (e : tocEntry) : Z :=
  match entries !! (i + 1)%nat with
  | Some next => if decide (ePage e ≤ ePage next - 1) then ePage next - 1 else ePage e
  | None => ePage e
  end.

Definition claimedSection (entries : list tocEntry) (maxDepth : Z)
    (ie : nat * tocEntry) : option SectionT :=
  let '(i, e) := ie in
  if decide (eDepth e ≤ maxDepth)
  then Some (mkSection (eNumber e) (eTitle e) (ePage e) (claimedEnd entries i e)
               (eDepth e) (slugify (eNumber e ++ str "-" ++ eTitle e)) [])
  else None.

Definition sortedByPage (entries : list tocEntry) : Prop :=
  ∀ i e e', entries !! i = Some e → entries !! (i + 1)%nat = Some e' → ePage e ≤ ePage e'.

(** The end-page rule as the specification words it for the output list. *)
Definition adjacentEnds (out : list SectionT) : Prop :=
  (∀ i s s', out !! i = Some s → out !! (i + 1)%nat = Some s' → EndPage s = Start s' - 1)
  ∧ (∀ s, last out = Some s → EndPage s = Start s).

Lemma wrap_small z : GoInt.int_min ≤ z ≤ GoInt.int_max → GoInt.wrap z = z.
Proof.
  unfold GoInt.wrap, GoInt.int_min, GoInt.int_max. intros Hz.
  rewrite Z.mod_small; lia.
Qed.

Lemma sub_one_page e : page_ok e → GoInt.sub (ePage e) 1 = ePage e - 1.
Proof.
  unfold page_ok, GoInt.sub. intros Hp. apply wrap_small.
  unfold GoInt.int_min, GoInt.int_max in *. lia.
Qed.

Lemma sectionOfEntry_eq entries i e :
  Forall page_ok entries →
  sectionOfEntry entries i e =
    mkSection (eNumber e) (eTitle e) (ePage e) (claimedEnd entries i e)
      (eDepth e) (slugify (eNumber e ++ str "-" ++ eTitle e)) [].
Proof.
  intros Hok. unfold sectionOfEntry, claimedEnd. f_equal.
  destruct (entries !! (i + 1)%nat) as [next|] eqn:Hnext.
  - assert (Hlt : (i + 1 < length entries)%nat) by (eapply lookup_lt_Some; eauto).
    assert (Hn : page_ok next).
    { rewrite Forall_forall in Hok. apply Hok. eapply list_elem_of_lookup_2; eauto. }
    rewrite sub_one_page by done.
    destruct (Z.ltb_spec (Z.of_nat i) (Z.of_nat (length entries) - 1)); [|lia].
    destruct (Z.ltb_spec (ePage next - 1) (ePage e)); case_decide; lia || done.
  - apply lookup_ge_None in Hnext.
    destruct (Z.ltb_spec (Z.of_nat i) (Z.of_nat (length entries) - 1)); [lia|done].
Qed.

Lemma buildLoop_spec entries maxDepth rest i acc :
  Forall page_ok entries →
  buildLoop entries maxDepth i rest acc =
    acc ++ omap (claimedSection entries maxDepth) (imap (λ k e, ((i + k)%nat, e)) rest).
Proof.
  intros Hok. revert i acc. induction rest as [|e rest IH]; intros i acc.
  - simpl. by rewrite app_nil_r.
  - rewrite imap_cons. cbn [buildLoop omap list_omap].
    rewrite (imap_ext _ (λ k e0, ((S i + k)%nat, e0)))
      by (intros; simpl; f_equal; lia).
    replace (i + 0)%nat with i by lia.
    unfold claimedSection at 1.
    destruct (Z.gtb_spec (eDepth e) maxDepth); case_decide; try lia.
    + by rewrite IH.
    + rewrite IH, sectionOfEntry_eq by done. by rewrite <- app_assoc.
Qed.

Lemma buildSections_spec entries maxDepth :
  Forall page_ok entries →
  buildSections entries maxDepth =
    omap (claimedSection entries (if maxDepth <=? 0 then 10 else maxDepth))
      (imap pair entries).
Proof.
  intros Hok. unfold buildSections. by rewrite buildLoop_spec.
Qed.

Lemma claimedEnd_ge entries i e : ePage e ≤ claimedEnd entries i e.
Proof.
  unfold claimedEnd. destruct (entries !! (i + 1)%nat); [case_decide|]; lia.
Qed.

Lemma omap_total {A B} (f : A → option B) (g : A → B) (l : list A) :
  Forall (λ x, f x = Some (g x)) l → omap f l = map g l.
Proof.
  induction 1 as [|x l Hx _ IH]; [done|].
  cbn [omap list_omap map]. fold (omap f l). by rewrite Hx, IH.
Qed.

Definition sectionKey (s : SectionT) : gostring * gostring * Z * Z :=
  (Number s, Title s, Start s, Depth s).

Definition entryKey (e : tocEntry) : gostring * gostring * Z * Z :=
  (eNumber e, eTitle e, ePage e, eDepth e).

Lemma buildLoop_keys entries maxDepth rest i acc :
  map sectionKey (buildLoop entries maxDepth i rest acc) =
    map sectionKey acc ++ map entryKey (filter (λ e, eDepth e ≤ maxDepth) rest).
Proof.
  revert i acc. induction rest as [|e rest IH]; intros i acc.
  - simpl. by rewrite app_nil_r.
  - cbn [buildLoop]. rewrite filter_cons.
    destruct (Z.gtb_spec (eDepth e) maxDepth); case_decide; try lia.
    + apply IH.
    + rewrite IH, map_app. cbn [map]. by rewrite <- app_assoc.
Qed.

(** The three entries of the first scenario of the specification. *)
Definition scenarioEntries : list tocEntry :=
  [ {| eNumber := str "1"; eTitle := str "Safety"; ePage := 4; eDepth := 1 |};
    {| eNumber := str "1.1"; eTitle := str "General rules"; ePage := 4; eDepth := 2 |};
    {| eNumber := str "2"; eTitle := str "Installation"; ePage := 9; eDepth := 1 |} ].

(** C4: for a depth cutoff of at least 1, [buildSections] keeps exactly the
    entries no deeper than the cutoff, in order; the entry at input index
    [i] gets the end page [page(entry[i+1]) - 1] when a following input
    entry exists and that value is not below its own page, and its own page
    otherwise; so no section ends before it starts. *)
Theorem buildSections_end_pages entries maxDepth :
  1 ≤ maxDepth →
  Forall page_ok entries →
  buildSections entries maxDepth
    = omap (claimedSection entries maxDepth) (imap pair entries)
  ∧ Forall (λ s, Start s ≤ EndPage s) (buildSections entries maxDepth).
Proof.
  intros Hd Hok. rewrite buildSections_spec by done.
  destruct (Z.leb_spec maxDepth 0); [lia|]. split; [done|].
  apply Forall_forall. intros s Hs.
  apply list_elem_of_omap in Hs as ([i e] & _ & Hs).
  unfold claimedSection in Hs. case_decide; [|done].
  injection Hs as <-. simpl. apply claimedEnd_ge.
Qed.

Lemma buildSections_end_pages_witness :
  buildSections scenarioEntries 3
    = omap (claimedSection scenarioEntries 3) (imap pair scenarioEntries)
  ∧ Forall (λ s, Start s ≤ EndPage s) (buildSections scenarioEntries 3).
Proof.
  apply (buildSections_end_pages scenarioEntries 3); [lia|].
  repeat constructor; vm_compute; congruence.
Defined.

(** C10: a depth cutoff of 0 or less stands for 10: the result is the one
    for 10, it holds the entries of depth up to 10 in order and no other,
    and it is not empty when some entry has depth at most 10. *)
Theorem buildSections_default_depth entries maxDepth :
  maxDepth ≤ 0 →
  buildSections entries maxDepth = buildSections entries 10
  ∧ map sectionKey (buildSections entries maxDepth)
      = map entryKey (filter (λ e, eDepth e ≤ 10) entries)
  ∧ ((∃ e, e ∈ entries ∧ eDepth e ≤ 10) → buildSections entries maxDepth ≠ []).
Proof.
  intros Hd.
  assert (Heq : buildSections entries maxDepth = buildSections entries 10).
  { unfold buildSections. by destruct (Z.leb_spec maxDepth 0); [|lia]. }
  assert (Hkeys : map sectionKey (buildSections entries maxDepth)
                  = map entryKey (filter (λ e, eDepth e ≤ 10) entries)).
  { rewrite Heq. unfold buildSections. simpl. by rewrite buildLoop_keys. }
  split_and!; [done..|].
  intros (e & He & Hde) Hnil. rewrite Hnil in Hkeys. simpl in Hkeys.
  symmetry in Hkeys. apply map_eq_nil in Hkeys.
  assert (Hin : e ∈ filter (λ e, eDepth e ≤ 10) entries)
    by (apply list_elem_of_filter; done).
  rewrite Hkeys in Hin. by apply not_elem_of_nil in Hin.
Qed.

Lemma buildSections_default_depth_witness :
  buildSections scenarioEntries 0 = buildSections scenarioEntries 10
  ∧ map sectionKey (buildSections scenarioEntries 0)
      = map entryKey (filter (λ e, eDepth e ≤ 10) scenarioEntries)
  ∧ ((∃ e, e ∈ scenarioEntries ∧ eDepth e ≤ 10) → buildSections scenarioEntries 0 ≠ []).
Proof. apply (buildSections_default_depth scenarioEntries 0). lia. Defined.

Lemma buildSections_all_retained entries maxDepth :
  Forall page_ok entries →
  Forall (λ e, eDepth e ≤ (if maxDepth <=? 0 then 10 else maxDepth)) entries →
  buildSections entries maxDepth =
    imap (λ i e, mkSection (eNumber e) (eTitle e) (ePage e) (claimedEnd entries i e)
                   (eDepth e) (slugify (eNumber e ++ str "-" ++ eTitle e)) []) entries.
Proof.
  intros Hok Hall. rewrite buildSections_spec by done.
  set (md := if maxDepth <=? 0 then 10 else maxDepth) in *.
  rewrite (omap_total _ (λ ie, mkSection (eNumber ie.2) (eTitle ie.2) (ePage ie.2)
                                 (claimedEnd entries ie.1 ie.2) (eDepth ie.2)
                                 (slugify (eNumber ie.2 ++ str "-" ++ eTitle ie.2)) [])).
  - apply list_eq. intros i.
    rewrite list_lookup_fmap, !list_lookup_imap. by destruct (entries !! i).
  - apply Forall_forall. intros [i e] Hie.
    apply list_elem_of_lookup in Hie as [k Hk].
    rewrite list_lookup_imap in Hk.
    destruct (entries !! k) as [e'|] eqn:He'; [|done]. injection Hk as <- <-.
    rewrite Forall_forall in Hall. unfold claimedSection.
    case_decide as Hd; [done|]. exfalso. apply Hd, Hall.
    by eapply list_elem_of_lookup_2.
Qed.

(** C3, as the code has it: when no entry is dropped by the depth cutoff,
    every section but the last ends on the page before the next one
    starts, or on its own start page when the next one starts on the same
    page, and the last section ends on its start page. *)
Theorem buildSections_adjacent_ends entries maxDepth :
  Forall page_ok entries →
  Forall (λ e, eDepth e ≤ (if maxDepth <=? 0 then 10 else maxDepth)) entries →
  sortedByPage entries →
  (∀ i s s',
     buildSections entries maxDepth !! i = Some s →
     buildSections entries maxDepth !! (i + 1)%nat = Some s' →
     EndPage s = (if decide (Start s = Start s') then Start s else Start s' - 1))
  ∧ (∀ s, last (buildSections entries maxDepth) = Some s → EndPage s = Start s).
Proof.
  intros Hok Hall Hsorted. rewrite buildSections_all_retained by done. split.
  - intros i s s'. rewrite !list_lookup_imap.
    destruct (entries !! i) as [e|] eqn:He; [|done].
    destruct (entries !! (i + 1)%nat) as [e'|] eqn:He'; [|done].
    intros [= <-] [= <-]. simpl. unfold claimedEnd. rewrite He'.
    specialize (Hsorted i e e' He He'). repeat case_decide; lia.
  - intros s. rewrite last_lookup, length_imap, list_lookup_imap.
    destruct (entries !! pred (length entries)) as [e|] eqn:He; [|done].
    intros [= <-]. simpl. unfold claimedEnd.
    assert (Hlt : (pred (length entries) < length entries)%nat)
      by (eapply lookup_lt_Some; eauto).
    rewrite (lookup_ge_None_2 entries) by lia. done.
Qed.

Lemma buildSections_adjacent_ends_witness :
  (∀ i s s',
     buildSections scenarioEntries 3 !! i = Some s →
     buildSections scenarioEntries 3 !! (i + 1)%nat = Some s' →
     EndPage s = (if decide (Start s = Start s') then Start s else Start s' - 1))
  ∧ (∀ s, last (buildSections scenarioEntries 3) = Some s → EndPage s = Start s).
Proof.
  apply (buildSections_adjacent_ends scenarioEntries 3).
  - repeat constructor; vm_compute; congruence.
  - repeat constructor; vm_compute; congruence.
  - intros i e e' He He'.
    destruct i as [|[|[|i]]]; simpl in *; simplify_eq; simpl; lia.
Defined.

(** C3 as the specification states it fails on the first two entries of
    its own scenario: both are on page 4, so the first section ends on
    page 4 and not on page 3. *)
Lemma buildSections_adjacent_ends_counterexample :
  sortedByPage (take 2 scenarioEntries)
  ∧ ¬ adjacentEnds (buildSections (take 2 scenarioEntries) 3).
Proof.
  split.
  - intros i e e' He He'.
    destruct i as [|[|i]]; simpl in *; simplify_eq; simpl; lia.
  - intros [Hadj _].
    specialize (Hadj O _ _ eq_refl eq_refl). vm_compute in Hadj. congruence.
Qed.

(** The rule also fails where the cutoff drops an entry: the end page is
    taken from the next input entry, so the section before a dropped entry
    ends before that entry's page, and the pages from there to the next
    section belong to no section. *)
Example buildSections_dropped_entry :
  let entries :=
    [ {| eNumber := str "1"; eTitle := str "A"; ePage := 4; eDepth := 1 |};
      {| eNumber := str "1.1"; eTitle := str "B"; ePage := 6; eDepth := 2 |};
      {| eNumber := str "2"; eTitle := str "C"; ePage := 9; eDepth := 1 |} ] in
  map (λ s, (Start s, EndPage s)) (buildSections entries 1) = [(4, 5); (9, 9)]
  ∧ ¬ adjacentEnds (buildSections entries 1).
Proof.
  split; [vm_compute; reflexivity|]. intros [Hadj _].
  specialize (Hadj O _ _ eq_refl eq_refl). vm_compute in Hadj. congruence.
Qed.

(** ** The hierarchy ([buildHierarchy], [attachChildren]) *)

Local Close Scope Z_scope.

(** Depth-first flattening: a node, then its children in order. *)
Fixpoint flatten (s : SectionT) : list SectionT :=
  match s with
  | mkSection _ _ _ _ _ _ children =>
      s :: (fix go (l : list SectionT) : list SectionT :=
              match l with
              | [] => []
              | c :: l' => flatten c ++ go l'
              end) children
  end.

Definition flattenAll (roots : list SectionT) : list SectionT :=
  roots ≫= flatten.

Definition stack_ok (st : hstate) : Prop :=
  Forall (λ i, i < length (h_out st)) (h_stack st).

Lemma trimStack_ok stack depth (P : nat → Prop) :
  (1 ≤ depth)%Z → Forall P stack →
  ∃ stack', trimStack stack depth = Some stack' ∧ Forall P stack'.
Proof.
  intros Hd. induction stack as [|a stack IH]; intros HP.
  - exists []. split; [|done]. cbn [trimStack length].
    destruct (Z.geb_spec (Z.of_nat 0) depth); [lia|done].
  - cbn [trimStack].
    destruct (Z.geb_spec (Z.of_nat (length (a :: stack))) depth).
    + apply IH. by inversion HP.
    + by exists (a :: stack).
Qed.

Lemma stackStep_ok st s :
  (1 ≤ Depth s)%Z → stack_ok st → ∃ st', stackStep st s = Some st' ∧ stack_ok st'.
Proof.
  intros Hd Hok. unfold stackStep.
  destruct (trimStack_ok (h_stack st) (Depth s) _ Hd Hok) as (stack & -> & Hstack).
  simpl. destruct stack as [|parentIdx stack].
  - eexists. split; [done|]. unfold stack_ok. simpl.
    repeat constructor. rewrite length_app. simpl. lia.
  - inversion Hstack as [|? ? Hp Hrest]; subst.
    destruct (lookup_lt_is_Some_2 _ _ Hp) as [parent ->]. simpl.
    match goal with |- context [if ?b then _ else _] => destruct b end.
    + eexists. split; [done|]. unfold stack_ok. simpl.
      rewrite length_app, length_insert. simpl.
      constructor; [lia|]. constructor; [lia|].
      eapply Forall_impl; [exact Hrest|]. simpl. lia.
    + eexists. split; [done|]. unfold stack_ok. simpl.
      repeat constructor. rewrite length_app. simpl. lia.
Qed.

Lemma stackLoop_ok sections st :
  Forall (λ s, (1 ≤ Depth s)%Z) sections → stack_ok st →
  is_Some (stackLoop st sections).
Proof.
  intros Hd. revert st. induction Hd as [|s sections Hs _ IH]; intros st Hok.
  - by eexists.
  - cbn [stackLoop]. destruct (stackStep_ok st s Hs Hok) as (st' & -> & Hok').
    simpl. by apply IH.
Qed.

(** On sections of depth at least 1, which is what the entry matcher and
    the fallback splitter produce, the stack pass of [buildHierarchy] does
    not panic and the result is that of [attachChildren]. *)
Lemma buildHierarchy_attachChildren sections :
  Forall (λ s, (1 ≤ Depth s)%Z) sections →
  buildHierarchy sections = Some (attachChildren sections).
Proof.
  intros Hd. unfold buildHierarchy.
  destruct (stackLoop_ok sections (HState [] [] []) Hd) as [st ->]; [|done].
  by constructor.
Qed.

(** *** The tree never has a third level

    A node is stored under its parent as the copy read at its own turn,
    before any later section is attached to it, and only the roots are
    read again at the end. *)

Definition shallow (n : SectionT) : Prop :=
  Forall (λ c, Children c = []) (Children n).

Lemma scanBack_lt nodes s j k : scanBack nodes s j = Some k → k < j.
Proof.
  induction j as [|j IH]; cbn [scanBack]; [done|].
  repeat case_match; try (intros [= <-]; lia); intros ?%IH; lia.
Qed.

Lemma byNumberOf_elem nodes k v : byNumberOf nodes !! k = Some v → v ∈ nodes.
Proof.
  unfold byNumberOf.
  assert (Hgen : ∀ m : gmap gostring SectionT,
    foldl (λ byNumber n, <[Number n := n]> byNumber) m nodes !! k = Some v →
    v ∈ nodes ∨ m !! k = Some v).
  { induction nodes as [|n nodes IH]; intros m; [by right|]. cbn [foldl].
    intros [Hin|Hm]%IH; [left; by right|].
    destruct (decide (Number n = k)) as [<-|Hne].
    - rewrite lookup_insert_eq in Hm. injection Hm as ->. left. by left.
    - rewrite lookup_insert_ne in Hm by done. by right. }
  intros [?|Hm]%Hgen; [done|]. by rewrite lookup_empty in Hm.
Qed.

Lemma attachStep_shallow flat nodes roots i nodes' roots' :
  Forall (λ s, Children s = []) flat →
  (∀ j, i ≤ j → nodes !! j = flat !! j) →
  Forall shallow nodes → Forall shallow roots →
  attachStep (nodes, roots) i = (nodes', roots') →
  (∀ j, S i ≤ j → nodes' !! j = flat !! j)
  ∧ Forall shallow nodes' ∧ Forall shallow roots'.
Proof.
  intros Hflat Htail Hn Hr. cbn [attachStep].
  destruct (nodes !! i) as [s|] eqn:Hs; [|intros [= <- <-]; split; [|done]; intros; apply Htail; lia].
  assert (Hc : Children s = []).
  { rewrite Htail in Hs by lia. apply list_elem_of_lookup_2 in Hs.
    by apply (proj1 (Forall_forall _ _) Hflat). }
  destruct (scanBack nodes s i) as [parentIdx|] eqn:Hscan.
  - apply scanBack_lt in Hscan.
    destruct (nodes !! parentIdx) as [parent|] eqn:Hp;
      [|intros [= <- <-]; split; [|done]; intros; apply Htail; lia].
    intros [= <- <-]. split_and!; [|apply Forall_insert; [done|]|done].
    + intros j Hj. rewrite list_lookup_insert_ne by lia. apply Htail. lia.
    + unfold shallow. simpl. apply Forall_app. split; [|by constructor].
      apply list_elem_of_lookup_2 in Hp.
      by apply (proj1 (Forall_forall _ _) Hn).
  - intros [= <- <-]. split_and!; [intros; apply Htail; lia|done|].
    apply Forall_app. split; [done|]. constructor; [|done].
    unfold shallow. rewrite Hc. constructor.
Qed.

Lemma attachLoop_shallow flat k i nodes roots :
  Forall (λ s, Children s = []) flat →
  (∀ j, i ≤ j → nodes !! j = flat !! j) →
  Forall shallow nodes → Forall shallow roots →
  Forall shallow (foldl attachStep (nodes, roots) (seq i k)).1
  ∧ Forall shallow (foldl attachStep (nodes, roots) (seq i k)).2.
Proof.
  intros Hflat. revert i nodes roots.
  induction k as [|k IH]; intros i nodes roots Htail Hn Hr; [done|].
  cbn [seq foldl].
  destruct (attachStep (nodes, roots) i) as [nodes' roots'] eqn:Hstep.
  destruct (attachStep_shallow _ _ _ _ _ _ Hflat Htail Hn Hr Hstep) as (?&?&?).
  by apply IH.
Qed.

(** X19: on sections that come without children, as the entry matcher and
    the fallback splitter give them, no child of a returned root has children
    of its own: the forest returned has at most two levels. *)
Lemma attachChildren_shallow flat :
  Forall (λ s, Children s = []) flat → Forall shallow (attachChildren flat).
Proof.
  intros Hflat. unfold attachChildren.
  destruct (attachLoop_shallow flat (length flat) 0 flat [] Hflat) as [Hn Hr];
    [done| |done|].
  { apply Forall_forall. intros s Hs. unfold shallow.
    rewrite (proj1 (Forall_forall _ _) Hflat s Hs). constructor. }
  destruct (foldl attachStep (flat, []) (seq 0 (length flat))) as [nodes roots].
  simpl in Hn, Hr. unfold rebuildWithChildrenOrder.
  apply Forall_fmap. eapply Forall_impl; [exact Hr|]. intros r Hshallow. simpl.
  destruct (byNumberOf nodes !! Number r) as [v|] eqn:Hv; [|done].
  apply byNumberOf_elem in Hv. by apply (proj1 (Forall_forall _ _) Hn).
Qed.

Definition plainSection (number : string) (page depth : Z) : SectionT :=
  mkSection (str number) [] page page depth [] [].

(** Three nested sections, as the lines ["1 A 1"], ["1.1 B 2"],
    ["1.1.1 C 3"] give them. *)
Definition nestedThree : list SectionT :=
  [plainSection "1" 1 1; plainSection "1.1" 2 2; plainSection "1.1.1" 3 3].

(** C1 fails on the code: of three nested sections the tree returned by
    [buildHierarchy] holds two.  The copy of 1.1 stored under 1 was taken
    before 1.1.1 was attached to 1.1. *)
Theorem buildHierarchy_loses_section :
  ∃ roots,
    buildHierarchy nestedThree = Some roots
    ∧ length (flattenAll roots) = 2
    ∧ length nestedThree = 3.
Proof. eexists. split; [vm_compute; reflexivity|]. by vm_compute. Qed.

(** C2 fails on the code: 1.1 is the nearest earlier section of lower depth
    whose number and a dot start the number of 1.1.1, yet in the returned
    tree the node 1.1 has no children and 1.1.1 is nowhere. *)
Theorem buildHierarchy_omits_grandchild :
  ∃ roots,
    buildHierarchy nestedThree = Some roots
    ∧ scanBack nestedThree (plainSection "1.1.1" 3 3) 2 = Some 1
    ∧ map (λ s, (Number s, map Number (Children s))) (flattenAll roots)
      = [(str "1", [str "1.1"]); (str "1.1", [])].
Proof. eexists. split; [vm_compute; reflexivity|]. by vm_compute. Qed.

(** ** The table heuristic ([transformTables]) *)

(** The second scenario of the specification: three aligned lines become
    a header row, a separator row and two data rows. *)
Example transformTables_scenario :
  transformTables
    (str "Name   Qty   Price" ++ nl ++ str "Bolt   10    2.50" ++ nl ++ str "Nut    20    0.75")
  = str "| Name | Qty | Price |" ++ nl ++ str "| --- | --- | --- |" ++ nl
    ++ str "| Bolt | 10 | 2.50 |" ++ nl ++ str "| Nut | 20 | 0.75 |".
Proof. vm_compute. reflexivity. Qed.

(** The two loops of [transformTables] end before their fuel does: more
    fuel gives the same result. *)
Lemma growBlock_fuel f1 f2 lines i colsCount block :
  length lines ≤ i + f1 → length lines ≤ i + f2 →
  growBlock f1 lines i colsCount block = growBlock f2 lines i colsCount block.
Proof.
  revert f2 i colsCount block.
  induction f1 as [|f1 IH]; intros [|f2] i colsCount block H1 H2; cbn [growBlock];
    try done; try (by rewrite lookup_ge_None_2 by lia).
  repeat case_match; try done; apply IH; lia.
Qed.

Lemma growBlock_progress f lines i colsCount block block' colsCount' i' :
  growBlock f lines i colsCount block = (block', colsCount', i') →
  i ≤ i' ∧ length block' ≤ length block + (i' - i) + 1.
Proof.
  revert i colsCount block. induction f as [|f IH]; intros i colsCount block;
    cbn [growBlock]; [intros [= <- <- <-]; lia|].
  repeat case_match; try (intros [= <- <- <-]; rewrite ?length_app; simpl; lia).
  all: intros Hrec%IH; rewrite length_app in Hrec; simpl in Hrec; lia.
Qed.

Lemma tablesLoop_fuel f1 f2 lines i out :
  length lines ≤ i + f1 → length lines ≤ i + f2 →
  tablesLoop f1 lines i out = tablesLoop f2 lines i out.
Proof.
  revert f2 i out.
  induction f1 as [|f1 IH]; intros [|f2] i out H1 H2; cbn [tablesLoop]; try done;
    try (by destruct (Nat.leb_spec (length lines) i); [|lia]).
  destruct (Nat.leb_spec (length lines) i); [done|].
  destruct (growBlock (S (length lines)) lines i 0 []) as [[block colsCount] i'] eqn:Hg.
  apply growBlock_progress in Hg as [Hi Hb]. simpl in Hb.
  destruct (Nat.leb_spec 2 (length block)); cbn [andb].
  - destruct (2 <=? colsCount)%nat; [|apply IH; lia].
    repeat case_match; apply IH; lia.
  - apply IH; lia.
Qed.

(** Behind a table the line that ended the block is tried again as the
    first line of a block. *)
Example transformTables_after_table :
  transformTables
    (str "A  B" ++ nl ++ str "C  D" ++ nl ++ str "E  F  G" ++ nl ++ str "H  I  J")
  = str "| A | B |" ++ nl ++ str "| --- | --- |" ++ nl ++ str "| C | D |" ++ nl
    ++ str "| E | F | G |" ++ nl ++ str "| --- | --- | --- |" ++ nl ++ str "| H | I | J |".
Proof. vm_compute. reflexivity. Qed.

Lemma transformTables_fuel text fuel :
  length (Strings.Split text nl) < fuel →
  Join (tablesLoop fuel (Strings.Split text nl) 0 []) nl = transformTables text.
Proof. intros H. unfold transformTables. f_equal. apply tablesLoop_fuel; lia. Qed.

(** C9 fails on the code in its general part.  The lines ["D  E"],
    ["F  G"] and ["H  I"] are a run of three aligned lines of two fields;
    standing alone they become a table headed by ["D  E"].  Behind a line
    of three fields the block opened at that line stops at ["D  E"], which
    is copied out and stepped over with it: the table starts one line late
    and its header is ["F  G"]; with ["D  E"] and ["F  G"] alone behind the
    three-field line no table is made at all. *)
Theorem transformTables_skips_run :
  transformTables (str "D  E" ++ nl ++ str "F  G" ++ nl ++ str "H  I")
    = str "| D | E |" ++ nl ++ str "| --- | --- |" ++ nl
      ++ str "| F | G |" ++ nl ++ str "| H | I |"
  ∧ transformTables
      (str "A  B  C" ++ nl ++ str "D  E" ++ nl ++ str "F  G" ++ nl ++ str "H  I")
    = str "A  B  C" ++ nl ++ str "D  E" ++ nl
      ++ str "| F | G |" ++ nl ++ str "| --- | --- |" ++ nl ++ str "| H | I |"
  ∧ transformTables (str "A  B  C" ++ nl ++ str "D  E" ++ nl ++ str "F  G")
    = str "A  B  C" ++ nl ++ str "D  E" ++ nl ++ str "F  G".
Proof. split_and!; vm_compute; reflexivity. Qed.

(** ** The ToC locator ([findToCMultiPage]) *)

(** The lines a page adds in the extension loop. *)
Definition tocLinesOf (p : gostring) : list gostring := (scanPage [] p).1.

(** The leading pages that add something, up to the first that adds
    nothing. *)
Fixpoint contributing (added : list (list gostring)) : list (list gostring) :=
  match added with
  | [] => []
  | [] :: _ => []
  | l :: rest => l :: contributing rest
  end.

Lemma scanPage_unfold lines p :
  scanPage lines p = foldl scanLine (lines, false) (Strings.Split p nl).
Proof. reflexivity. Qed.

Lemma scanLine_cases ln :
  (∀ x a, scanLine (x, a) ln = (x, a))
  ∨ (∃ t, ∀ x a, scanLine (x, a) ln = (x ++ [t], true)).
Proof.
  unfold scanLine. destruct (TrimSpace ln) as [|c t]; [by left|].
  destruct (isToCLine (c :: t)); [right; by eexists|by left].
Qed.

Lemma scanLines_acc l lines0 extra a :
  foldl scanLine (lines0 ++ extra, a) l
  = (lines0 ++ (foldl scanLine (extra, a) l).1, (foldl scanLine (extra, a) l).2).
Proof.
  revert extra a. induction l as [|ln l IH]; intros extra a; [done|].
  cbn [foldl]. destruct (scanLine_cases ln) as [Hs|[t Hs]]; rewrite !Hs.
  - apply IH.
  - rewrite <- app_assoc. apply IH.
Qed.

Lemma scanLines_flag l extra a :
  (foldl scanLine (extra, a) l).2
  = a || negb (length (foldl scanLine (extra, a) l).1 =? length extra)
  ∧ length extra ≤ length (foldl scanLine (extra, a) l).1.
Proof.
  revert extra a. induction l as [|ln l IH]; intros extra a.
  - simpl. rewrite Nat.eqb_refl. split; [by destruct a|done].
  - cbn [foldl]. destruct (scanLine_cases ln) as [Hs|[t Hs]]; rewrite !Hs.
    + apply IH.
    + destruct (IH (extra ++ [t]) true) as [-> Hlen].
      rewrite length_app in Hlen. simpl in Hlen. split; [|lia].
      destruct (Nat.eqb_spec (length (foldl scanLine (extra ++ [t], true) l).1)
                  (length extra)); [lia|]. by destruct a.
Qed.

Lemma scanPage_spec lines p :
  scanPage lines p
  = (lines ++ tocLinesOf p, match tocLinesOf p with [] => false | _ :: _ => true end).
Proof.
  unfold tocLinesOf. rewrite !scanPage_unfold.
  rewrite <- (app_nil_r lines) at 1. rewrite scanLines_acc. f_equal.
  destruct (scanLines_flag (Strings.Split p nl) [] false) as [-> _].
  by destruct (foldl scanLine ([], false) (Strings.Split p nl)).1.
Qed.

Lemma extendLoop_spec pages last fuel i lines :
  length pages ≤ i + fuel →
  extendLoop fuel pages last i lines
  = lines ++ concat (contributing (map tocLinesOf
               (take (Z.to_nat (last - Z.of_nat i + 1)) (drop i pages)))).
Proof.
  revert i lines. induction fuel as [|fuel IH]; intros i lines Hlen.
  - rewrite drop_ge by lia. rewrite take_nil. simpl. by rewrite app_nil_r.
  - cbn [extendLoop]. destruct (pages !! i) as [p|] eqn:Hp.
    + rewrite (drop_S _ _ _ Hp).
      destruct (Z.leb_spec (Z.of_nat i) last) as [Hle|Hgt].
      * replace (Z.to_nat (last - Z.of_nat i + 1))
          with (S (Z.to_nat (last - Z.of_nat (S i) + 1))) by lia.
        cbn [take map contributing]. rewrite scanPage_spec.
        destruct (tocLinesOf p) as [|l ls] eqn:Hl.
        -- simpl. done.
        -- rewrite IH by lia. cbn [concat]. by rewrite <- app_assoc.
      * replace (Z.to_nat (last - Z.of_nat i + 1)) with 0 by lia.
        simpl. by rewrite app_nil_r.
    + apply lookup_ge_None in Hp. rewrite drop_ge by lia. rewrite take_nil.
      simpl. by rewrite app_nil_r.
Qed.

Lemma contributing_stop (added : list (list gostring)) j m :
  added !! j = Some [] → j < m →
  contributing (take m added) = contributing (take j added).
Proof.
  revert j m. induction added as [|l added IH]; intros j m Hj Hm; [by rewrite !take_nil|].
  destruct m as [|m]; [lia|]. destruct j as [|j].
  - simpl in Hj. injection Hj as ->. done.
  - simpl in Hj. cbn [take contributing]. destruct l; [done|].
    f_equal. apply IH; [done|lia].
Qed.

(** The scan budget in force, the page the extension starts behind and the
    number of pages it may cover. *)
Definition effectiveBudget (n : Z) : Z := if (n <=? 0)%Z then 8%Z else n.

Definition initialPage (pages : list gostring) (n : Z) : nat :=
  match firstToCPage (effectiveBudget n) 0 pages with
  | Some i => i
  | None => 0
  end.

Definition extensionPages (n : Z) : nat :=
  Z.to_nat (Z.max 2 (effectiveBudget n `quot` 2)).

(** C8, as the code has it: when the simple detector finds lines, the
    result is these lines (gathered from the first six pages) followed by
    the matching lines of the pages behind the initial page, at most
    [max(2, n/2)] of them for the budget in force (8 when [n <= 0]), up to
    the first page that adds none: if page [k] of that range adds no line,
    nothing is appended from page [k] or any page behind it. *)
Theorem findToCMultiPage_extension pages n :
  findToCBlock pages ≠ [] →
  findToCMultiPage pages n
    = findToCBlock pages
      ++ concat (contributing (map tocLinesOf
           (take (extensionPages n) (drop (S (initialPage pages n)) pages))))
  ∧ ∀ k p,
      initialPage pages n < k ≤ initialPage pages n + extensionPages n →
      pages !! k = Some p →
      tocLinesOf p = [] →
      findToCMultiPage pages n
        = findToCBlock pages
          ++ concat (contributing (map tocLinesOf
               (take (k - S (initialPage pages n)) (drop (S (initialPage pages n)) pages)))).
Proof.
  intros Hfound.
  assert (Hmain : findToCMultiPage pages n
    = findToCBlock pages
      ++ concat (contributing (map tocLinesOf
           (take (extensionPages n) (drop (S (initialPage pages n)) pages))))).
  { unfold findToCMultiPage. fold (effectiveBudget n).
    destruct (findToCBlock pages) as [|l ls] eqn:Hblock; [done|].
    rewrite extendLoop_spec by lia.
    fold (initialPage pages n). unfold extensionPages.
    do 5 f_equal.
    set (q := (effectiveBudget n `quot` 2)%Z).
    destruct (Z.ltb_spec q 2); lia. }
  split; [exact Hmain|].
  intros k p Hk Hp Hnone. rewrite Hmain. do 2 f_equal.
  rewrite !fmap_take. apply contributing_stop; [|lia].
  rewrite list_lookup_fmap, lookup_drop.
  replace (S (initialPage pages n) + (k - S (initialPage pages n))) with k by lia.
  by rewrite Hp, <- Hnone.
Qed.

Definition fourPages : list gostring :=
  [ str "Table of Contents" ++ nl ++ str "1 Intro 3";
    str "2 Next 5";
    str "nothing here";
    str "3 Later 9" ].

Lemma findToCMultiPage_extension_witness :
  findToCMultiPage fourPages 8
    = findToCBlock fourPages
      ++ concat (contributing (map tocLinesOf
           (take (extensionPages 8) (drop (S (initialPage fourPages 8)) fourPages))))
  ∧ ∀ k p,
      initialPage fourPages 8 < k ≤ initialPage fourPages 8 + extensionPages 8 →
      fourPages !! k = Some p →
      tocLinesOf p = [] →
      findToCMultiPage fourPages 8
        = findToCBlock fourPages
          ++ concat (contributing (map tocLinesOf
               (take (k - S (initialPage fourPages 8)) (drop (S (initialPage fourPages 8)) fourPages)))).
Proof. apply (findToCMultiPage_extension fourPages 8). vm_compute. congruence. Defined.

Example findToCMultiPage_fourPages :
  findToCMultiPage fourPages 8 = [str "1 Intro 3"; str "2 Next 5"].
Proof. vm_compute. reflexivity. Qed.

(** [ln] is a line of a page behind page [k] and of no page up to [k]. *)
Definition lineOnlyAfter (pages : list gostring) (k : nat) (ln : gostring) : Prop :=
  (∃ j p, k < j ∧ pages !! j = Some p ∧ ln ∈ Strings.Split p nl)
  ∧ (∀ j p, j ≤ k → pages !! j = Some p → ln ∉ Strings.Split p nl).

(** C8 as the specification states it, for the returned list. *)
Definition stopsAtEmptyPage (pages : list gostring) (n : Z) : Prop :=
  ∀ i0 k p,
    findToCBlock pages ≠ [] →
    firstToCPage n 0 pages = Some i0 →
    i0 < k → (Z.of_nat k ≤ Z.of_nat i0 + Z.max 2 (n `quot` 2))%Z →
    pages !! k = Some p →
    tocLinesOf p = [] →
    ∀ ln, lineOnlyAfter pages k ln → ln ∉ findToCMultiPage pages n.

Definition threePages : list gostring :=
  [ str "1 Intro 3"; str "nothing here"; str "2 Next 5" ].

(** The statement fails where the simple detector itself has gathered
    lines from a later page: page 1 adds nothing, and the line of page 2
    is returned all the same. *)
Lemma findToCMultiPage_counterexample : ¬ stopsAtEmptyPage threePages 8.
Proof.
  intros Hstop.
  apply (Hstop 0 1 (str "nothing here")) with (ln := str "2 Next 5").
  - vm_compute. congruence.
  - vm_compute. reflexivity.
  - lia.
  - vm_compute. congruence.
  - reflexivity.
  - vm_compute. reflexivity.
  - split.
    + exists 2, (str "2 Next 5"). split; [lia|]. split; [reflexivity|].
      vm_compute. apply list_elem_of_here.
    + intros j p Hj Hp Hin.
      destruct j as [|[|j]]; [| |lia]; simpl in Hp; injection Hp as <-;
        vm_compute in Hin; apply list_elem_of_singleton in Hin; discriminate Hin.
  - vm_compute. apply list_elem_of_further, list_elem_of_here.
Qed.

(** ** Facts about the string functions *)

Section StringFacts.
Implicit Types (s t old new q A B : gostring) (c : ascii).

Lemma HasPrefix_nil s : HasPrefix s [] = true.
Proof. by destruct s. Qed.

Lemma HasPrefix_app q t : HasPrefix (q ++ t) q = true.
Proof. induction q as [|x q IH]; simpl; [done|]. by rewrite Ascii.eqb_refl. Qed.

Lemma HasPrefix_spec s q : HasPrefix s q = true ↔ ∃ t, s = q ++ t.
Proof.
  split.
  - revert s. induction q as [|x q IH]; intros s H; [by exists s|].
    destruct s as [|c s]; [done|]. simpl in H.
    apply andb_true_iff in H as [Hc Hs]. apply Ascii.eqb_eq in Hc as ->.
    destruct (IH _ Hs) as [t ->]. by exists t.
  - intros [t ->]. apply HasPrefix_app.
Qed.

Lemma HasPrefix_length s q : HasPrefix s q = true → length q ≤ length s.
Proof. intros [t ->]%HasPrefix_spec. rewrite length_app. lia. Qed.

Lemma HasPrefix_head_ne c s x q : c ≠ x → HasPrefix (c :: s) (x :: q) = false.
Proof. intros Hne. simpl. by apply Ascii.eqb_neq in Hne as ->. Qed.

Lemma HasPrefix_app_sep A c B q : c ∉ q → HasPrefix (A ++ c :: B) q = HasPrefix A q.
Proof.
  revert A. induction q as [|x q IH]; intros A Hc.
  - by rewrite !HasPrefix_nil.
  - apply not_elem_of_cons in Hc as [Hx Hq]. destruct A as [|a A].
    + by apply HasPrefix_head_ne.
    + simpl. by rewrite IH.
Qed.


Lemma Contains_cons c s q : Contains (c :: s) q = HasPrefix (c :: s) q || Contains s q.
Proof. reflexivity. Qed.





(** A pattern with no byte of [new] cannot start inside [new]. *)
Definition apart (q new : gostring) : Prop := ∀ c, c ∈ new → c ∉ q.



End StringFacts.

Section ReplaceFacts.
Variables old new : gostring.
Hypothesis old_nonempty : old ≠ [].
Implicit Types (s q A B : gostring) (c : ascii) (k : nat).

Lemma replace_go_nomatch c s :
  HasPrefix (c :: s) old = false →
  replace_go old new 0 (c :: s) = c :: replace_go old new 0 s.
Proof using Type. intros H. cbn [replace_go]. by rewrite H. Qed.

Lemma replace_go_match c s :
  HasPrefix (c :: s) old = true →
  replace_go old new 0 (c :: s) = new ++ replace_go old new (length old - 1) s.
Proof using Type. intros H. cbn [replace_go]. by rewrite H. Qed.



Lemma replace_go_skip k A s :
  length A = k → replace_go old new k (A ++ s) = replace_go old new 0 s.
Proof using Type.
  revert k. induction A as [|a A IH]; intros k <-; [done|]. simpl. by apply IH.
Qed.

(** A byte that is not in [old] separates the occurrences of [old]. *)
Lemma replace_go_sep A c B k :
  c ∉ old → k ≤ length A →
  replace_go old new k (A ++ c :: B)
  = replace_go old new k A ++ c :: replace_go old new 0 B.
Proof using old_nonempty.
  intros Hc. revert k. induction A as [|a A IH]; intros k Hk.
  - assert (k = 0) as -> by (simpl in Hk; lia). simpl app.
    rewrite replace_go_nomatch; [done|].
    destruct old as [|x q]; [done|]. apply not_elem_of_cons in Hc as [Hx _].
    by apply HasPrefix_head_ne.
  - destruct k as [|k].
    + change ((a :: A) ++ c :: B) with (a :: (A ++ c :: B)).
      destruct (HasPrefix (a :: A) old) eqn:Hm.
      * rewrite !replace_go_match; [| done |].
        2:{ change (a :: (A ++ c :: B)) with ((a :: A) ++ c :: B).
            by rewrite HasPrefix_app_sep. }
        rewrite IH, <- app_assoc; [done|].
        apply HasPrefix_length in Hm. simpl in Hm. lia.
      * rewrite !replace_go_nomatch; [| done |].
        2:{ change (a :: (A ++ c :: B)) with ((a :: A) ++ c :: B).
            by rewrite HasPrefix_app_sep. }
        rewrite IH by lia. done.
    + simpl. apply IH. simpl in Hk. lia.
Qed.

(** A prefix at no position of which [old] starts is copied. *)
Lemma replace_go_keep A s :
  (∀ A1 a A2, A = A1 ++ a :: A2 → HasPrefix (a :: A2 ++ s) old = false) →
  replace_go old new 0 (A ++ s) = A ++ replace_go old new 0 s.
Proof using Type.
  induction A as [|a A IH]; intros H; [done|].
  change ((a :: A) ++ s) with (a :: (A ++ s)).
  rewrite replace_go_nomatch by (by apply (H [] a A)).
  rewrite IH; [done|]. intros A1 b A2 ->. by apply (H (a :: A1) b A2).
Qed.

(** Where no occurrence of [old] that starts in [A] runs on into [T], the
    scan of [A ++ T] is the scan of [A] followed by the scan of [T]. *)
Lemma replace_go_split A T k :
  (∀ A1 a A2, A = A1 ++ a :: A2 →
     HasPrefix (a :: A2 ++ T) old = HasPrefix (a :: A2) old) →
  k ≤ length A →
  replace_go old new k (A ++ T) = replace_go old new k A ++ replace_go old new 0 T.
Proof using Type.
  revert k. induction A as [|a A IH]; intros k H Hk.
  - by assert (k = 0) as -> by (simpl in Hk; lia).
  - assert (H' : ∀ A1 b A2, A = A1 ++ b :: A2 →
        HasPrefix (b :: A2 ++ T) old = HasPrefix (b :: A2) old).
    { intros A1 b A2 ->. by apply (H (a :: A1)). }
    destruct k as [|k]; [|simpl; apply IH; [done|simpl in Hk; lia]].
    change ((a :: A) ++ T) with (a :: (A ++ T)).
    pose proof (H [] a A eq_refl) as Ha.
    destruct (HasPrefix (a :: A) old) eqn:Hm.
    + rewrite !replace_go_match by done. rewrite IH, <- app_assoc; [done..|].
      apply HasPrefix_length in Hm. simpl in Hm. lia.
    + rewrite !replace_go_nomatch by done. rewrite IH by (done || lia). done.
Qed.

(** A block of bytes that are not in [old] is copied. *)
Lemma replace_go_sep_block A c T B k :
  c ∉ old → Forall (λ d, d ∉ old) T → k ≤ length A →
  replace_go old new k (A ++ c :: T ++ B)
  = replace_go old new k A ++ c :: T ++ replace_go old new 0 B.
Proof using old_nonempty.
  intros Hc HT. revert A c k Hc.
  induction HT as [|d T Hd HT IH]; intros A c k Hc Hk; [by apply replace_go_sep|].
  rewrite replace_go_sep by done. do 2 f_equal.
  apply (IH [] d 0 Hd). simpl. lia.
Qed.

End ReplaceFacts.

(** An occurrence at the head of the text is replaced. *)
Lemma replace_go_head x q new B :
  replace_go (x :: q) new 0 ((x :: q) ++ B) = new ++ replace_go (x :: q) new 0 B.
Proof.
  change ((x :: q) ++ B) with (x :: (q ++ B)).
  rewrite replace_go_match by apply (HasPrefix_app (x :: q) B).
  f_equal. apply replace_go_skip. simpl. lia.
Qed.


(** *** The first and the last byte of a scan *)

Section ReplaceEnds.
Variables old new : gostring.
Implicit Types (s X : gostring) (k : nat) (z : ascii) (Q : option ascii → Prop).

(** What holds of the last byte of the text and of the last byte of [new]
    holds of the last byte of the result. *)
Lemma replace_go_ends Q k X s :
  new ≠ [] → Q (last new) → (s ≠ [] → Q (last s)) →
  (0 < k ∨ s = [] → Q (last X)) →
  Q (last (X ++ replace_go old new k s)).
Proof.
  intros Hne Hnew. revert k X. induction s as [|c s IH]; intros k X Hs HX.
  - destruct k; simpl; rewrite app_nil_r; apply HX; by right.
  - assert (Hs' : s ≠ [] → Q (last s)).
    { intros Hn. destruct s as [|d s]; [done|].
      rewrite <- (last_app_cons [c] s d). by apply Hs. }
    destruct k as [|k].
    + cbn [replace_go]. destruct (HasPrefix (c :: s) old).
      * rewrite app_assoc. apply IH; [done|]. intros _.
        destruct (exists_last Hne) as (n & y & E). rewrite E in *.
        rewrite app_assoc, last_snoc. by rewrite last_snoc in Hnew.
      * change (X ++ c :: ?r) with (X ++ [c] ++ r). rewrite app_assoc.
        apply IH; [done|]. intros [?| ->]; [lia|]. rewrite last_snoc. by apply Hs.
    + cbn [replace_go]. apply IH; [done|]. intros _. apply HX. left. lia.
Qed.


Lemma replace_go_last_eq z s :
  last new = Some z → last s = Some z → last (replace_go old new 0 s) = Some z.
Proof.
  intros H1 H3. apply (replace_go_ends (λ o, o = Some z) 0 [] s); try done.
  - by destruct new.
  - intros [?| ->]; [lia|done].
Qed.


Lemma replace_go_head_eq z s :
  head new = Some z → head s = Some z → head (replace_go old new 0 s) = Some z.
Proof.
  intros H1 H3. destruct s as [|c s]; [done|]. cbn [replace_go].
  destruct (HasPrefix (c :: s) old); [|done]. by destruct new.
Qed.

End ReplaceEnds.

(** ** Facts about white space and [Fields] *)

Definition is_ascii (c : ascii) : bool := (nat_of_ascii c <? 128)%nat.

(** The six ASCII white-space bytes. *)
Definition is_space_byte (c : ascii) : bool :=
  let n := nat_of_ascii c in ((9 <=? n) && (n <=? 13) || (n =? 32))%nat.

(** No white-space rune, ASCII or not, starts at any position of [f]. *)
Fixpoint spaceless (f : gostring) : bool :=
  match f with
  | [] => true
  | _ :: f' => (space_width f =? 0) && spaceless f'
  end.

(** A field of [Fields]: not empty, and no white-space rune in it, be it
    one of the six ASCII ones or one of the others of [unicode.IsSpace]. *)
Definition field_ok (f : gostring) : Prop := f ≠ [] ∧ spaceless f = true.

Lemma spaceless_spec (f : gostring) :
  spaceless f = true ↔ ∀ A B, f = A ++ B → space_width B = 0.
Proof.
  induction f as [|c f IH].
  - split; [|done]. intros _ A B E. symmetry in E. by apply app_eq_nil in E as [_ ->].
  - cbn [spaceless]. rewrite andb_true_iff, Nat.eqb_eq, IH. split.
    + intros [Hc Hf] [|a A] B E; [simpl in E; by subst B|].
      injection E as _ E. by apply (Hf A).
    + intros H. split; [by apply (H [])|]. intros A B ->. by apply (H (c :: A)).
Qed.

Lemma field_ok_spec (f : gostring) :
  field_ok f ↔ f ≠ [] ∧ ∀ A B, f = A ++ B → space_width B = 0.
Proof. unfold field_ok. by rewrite spaceless_spec. Qed.

Ltac by_bytes c :=
  destruct c as [[|] [|] [|] [|] [|] [|] [|] [|]];
  try (exfalso; vm_compute in *; congruence);
  try reflexivity.

Section FieldsFacts.
Implicit Types (s q A B cur f : gostring) (c : ascii) (k : nat) (F : list gostring).

Lemma space_width_space c s : is_space_byte c = true → space_width (c :: s) = 1.
Proof. intros H. by_bytes c. Qed.

Lemma space_width_plain c s :
  is_ascii c = true → is_space_byte c = false → space_width (c :: s) = 0.
Proof. intros H1 H2. by_bytes c. Qed.

Lemma space_width_0_head c s : space_width (c :: s) = 0 → is_space_byte c = false.
Proof.
  intros H. destruct (is_space_byte c) eqn:E; [|done].
  by rewrite space_width_space in H.
Qed.

Lemma space_runes_shape :
  Forall (λ e, length e = 1 ∨ forallb (λ b, negb (is_ascii b)) e = true) space_runes.
Proof.
  assert (Hb : forallb (λ e, (length e =? 1) || forallb (λ b, negb (is_ascii b)) e)
                 space_runes = true) by (vm_compute; reflexivity).
  rewrite forallb_forall in Hb. apply Forall_forall. intros e He.
  apply list_elem_of_In, Hb, orb_true_iff in He as [He|He]; [left|by right].
  by apply Nat.eqb_eq.
Qed.

Lemma space_width_app_ascii A c B :
  A ≠ [] → is_ascii c = true → space_width (A ++ c :: B) = space_width A.
Proof.
  intros HA Hc. unfold space_width.
  assert (Hext : Forall (λ e, HasPrefix (A ++ c :: B) e = HasPrefix A e) space_runes).
  { eapply Forall_impl; [apply space_runes_shape|]. intros e [He|He].
    - destruct e as [|x [|? ?]]; try done. destruct A as [|a A]; [done|]. done.
    - apply HasPrefix_app_sep. intros Hin.
      rewrite forallb_forall in He. apply list_elem_of_In, He in Hin.
      by rewrite Hc in Hin. }
  induction Hext as [|e l He _ IH]; [done|]. simpl. rewrite He.
  by destruct (HasPrefix A e).
Qed.

Lemma space_width_bound s w : space_width s = S w → w < length s.
Proof.
  unfold space_width. destruct (find _ _) as [e|] eqn:Hf; [|done].
  apply find_some in Hf as [_ He%HasPrefix_length]. lia.
Qed.

(** An ASCII white-space byte ends the field before it. *)
Lemma fields_go_space A c B k cur :
  is_space_byte c = true → k ≤ length A →
  fields_go k cur (A ++ c :: B) = fields_go k cur A ++ fields_go 0 [] B.
Proof.
  intros Hc. assert (Hasc : is_ascii c = true) by (by_bytes c).
  revert k cur. induction A as [|a A IH]; intros k cur Hk.
  - assert (k = 0) as -> by (simpl in Hk; lia).
    cbn [app fields_go]. by rewrite space_width_space.
  - destruct k as [|k]; [|simpl; apply IH; simpl in Hk; lia].
    change ((a :: A) ++ c :: B) with (a :: (A ++ c :: B)). cbn [fields_go].
    change (a :: (A ++ c :: B)) with ((a :: A) ++ c :: B).
    rewrite space_width_app_ascii by done.
    destruct (space_width (a :: A)) as [|w] eqn:Hw.
    + apply IH. lia.
    + apply space_width_bound in Hw. simpl in Hw.
      rewrite IH by lia. by rewrite app_assoc.
Qed.

Lemma fields_go_plain_word f cur :
  Forall (λ c, is_ascii c = true ∧ is_space_byte c = false) f →
  fields_go 0 cur f = flush (rev f ++ cur).
Proof.
  intros Hf. revert cur. induction Hf as [|c f [H1 H2] _ IH]; intros cur; [done|].
  cbn [fields_go]. rewrite space_width_plain by done.
  rewrite IH. simpl. by rewrite <- app_assoc.
Qed.

Lemma Fields_plain_word f :
  f ≠ [] → Forall (λ c, is_ascii c = true ∧ is_space_byte c = false) f →
  Fields f = [f].
Proof.
  intros Hne Hf. unfold Fields. rewrite fields_go_plain_word by done.
  rewrite app_nil_r. unfold flush.
  destruct (rev f) eqn:E; [|by rewrite <- E, rev_involutive].
  apply (f_equal (@rev ascii)) in E. rewrite rev_involutive in E. done.
Qed.

Lemma fields_go_pending k cur s : cur ≠ [] → fields_go k cur s ≠ [].
Proof.
  intros Hcur. revert k cur Hcur. induction s as [|c s IH]; intros k cur Hcur.
  - by destruct cur.
  - destruct k as [|k]; [|by apply IH]. cbn [fields_go].
    destruct (space_width (c :: s)); [by apply IH|].
    destruct cur; [done|]. done.
Qed.

(** A plain byte (ASCII, no white space) lands in some field. *)
Lemma fields_go_nonempty A c B k cur :
  is_ascii c = true → is_space_byte c = false → k ≤ length A →
  fields_go k cur (A ++ c :: B) ≠ [].
Proof.
  intros H1 H2. revert k cur. induction A as [|a A IH]; intros k cur Hk.
  - assert (k = 0) as -> by (simpl in Hk; lia).
    cbn [app fields_go]. rewrite space_width_plain by done.
    by apply fields_go_pending.
  - destruct k as [|k]; [|simpl; apply IH; simpl in Hk; lia].
    change ((a :: A) ++ c :: B) with (a :: (A ++ c :: B)). cbn [fields_go].
    change (a :: (A ++ c :: B)) with ((a :: A) ++ c :: B).
    rewrite space_width_app_ascii by done.
    destruct (space_width (a :: A)) as [|w] eqn:Hw.
    + apply IH. lia.
    + apply space_width_bound in Hw. simpl in Hw. intros Hnil.
      apply app_eq_nil in Hnil as [_ Hnil]. revert Hnil. apply IH. lia.
Qed.

Lemma space_runes_nonempty e : e ∈ space_runes → e ≠ [].
Proof.
  assert (H : forallb (λ e, negb (length e =? 0)) space_runes = true)
    by (vm_compute; reflexivity).
  rewrite forallb_forall in H. intros He%list_elem_of_In%H ->. done.
Qed.

(** A white-space rune at the head of a text is one at the head of every
    extension of the text. *)
Lemma space_width_prefix X Y : space_width (X ++ Y) = 0 → space_width X = 0.
Proof.
  unfold space_width. intros H.
  destruct (find (λ e, HasPrefix X e) space_runes) as [e|] eqn:HX; [|done].
  exfalso. apply find_some in HX as [Hin HX].
  destruct (find (λ e, HasPrefix (X ++ Y) e) space_runes) as [e'|] eqn:HXY.
  - apply find_some in HXY as [Hin' _]. apply list_elem_of_In, space_runes_nonempty in Hin'.
    by destruct e'.
  - apply (find_none _ _ HXY) in Hin. apply HasPrefix_spec in HX as [t ->].
    by rewrite <- app_assoc, HasPrefix_app in Hin.
Qed.

Lemma field_ok_bytes f : field_ok f → Forall (λ c, is_space_byte c = false) f.
Proof.
  intros [_ Hf]%field_ok_spec. apply Forall_forall. intros c [A [B ->]]%list_elem_of_split.
  by apply (space_width_0_head c B), (Hf A).
Qed.

Lemma flush_ok cur :
  (∀ A c B, rev cur = A ++ c :: B → space_width (c :: B) = 0) →
  Forall field_ok (flush cur).
Proof.
  intros H. destruct cur as [|c cur]; [constructor|].
  constructor; [|constructor]. apply field_ok_spec. split.
  - simpl. intros [_ ?]%app_eq_nil. done.
  - intros A [|b B] E; [done|]. by apply (H A).
Qed.

Lemma fields_go_ok k cur s :
  cur = [] ∨ (k = 0 ∧ ∀ A c B, rev cur = A ++ c :: B → space_width (c :: B ++ s) = 0) →
  Forall field_ok (fields_go k cur s).
Proof.
  revert k cur. induction s as [|c s IH]; intros k cur Hcur.
  - apply flush_ok. destruct Hcur as [->|[_ H]].
    + intros A c B E. by destruct A.
    + intros A c B E. specialize (H A c B E). by rewrite app_nil_r in H.
  - destruct k as [|k].
    + cbn [fields_go]. destruct (space_width (c :: s)) eqn:Hw.
      * apply IH. right. split; [done|]. intros A d B E. simpl in E.
        destruct (decide (B = [])) as [->|HB].
        -- apply app_inj_tail in E as [_ <-]. exact Hw.
        -- destruct (exists_last HB) as (B' & z & ->).
           rewrite app_comm_cons, app_assoc in E. apply app_inj_tail in E as [E <-].
           rewrite <- app_assoc. cbn [app].
           destruct Hcur as [->|[_ H]]; [by destruct A|]. by apply (H A).
      * apply Forall_app. split; [|apply IH; by left].
        apply flush_ok. intros A d B E.
        destruct Hcur as [->|[_ H]]; [by destruct A|].
        specialize (H A d B E). change (d :: B ++ c :: s) with ((d :: B) ++ c :: s) in H.
        by apply space_width_prefix in H.
    + cbn [fields_go]. apply IH. destruct Hcur as [->|[? _]]; [by left|done].
Qed.

Lemma Fields_ok s : Forall field_ok (Fields s).
Proof. apply fields_go_ok. by left. Qed.





End FieldsFacts.

Section NormalizeFacts.
Implicit Types (s q cur f : gostring) (c : ascii) (k : nat) (F : list gostring).



Lemma ReplaceAll_nonempty s old new :
  old ≠ [] → ReplaceAll s old new = replace_go old new 0 s.
Proof. by destruct old. Qed.


Lemma apart_dec q new :
  forallb (λ c, negb (existsb (Ascii.eqb c) q)) new = true → apart q new.
Proof.
  intros H c Hc Hq. rewrite forallb_forall in H.
  apply list_elem_of_In, H, negb_true_iff in Hc.
  assert (existsb (Ascii.eqb c) q = true); [|congruence].
  apply existsb_exists. exists c. split; [by apply list_elem_of_In|].
  apply Ascii.eqb_refl.
Qed.

Lemma not_elem_dec c q : existsb (Ascii.eqb c) q = false → c ∉ q.
Proof.
  intros H Hq. assert (existsb (Ascii.eqb c) q = true); [|congruence].
  apply existsb_exists. exists c. split; [by apply list_elem_of_In|].
  apply Ascii.eqb_refl.
Qed.

End NormalizeFacts.

Ltac literal_facts :=
  match goal with
  | |- apart _ _ => apply apart_dec; vm_compute; reflexivity
  | |- _ ∉ _ => apply not_elem_dec; vm_compute; reflexivity
  | |- _ ≠ [] => vm_compute; congruence
  end.

(** The library model on inputs with Unicode white space, an overflowing
    number and overlapping occurrences. *)
Example Fields_unicode :
  Fields (str "  1.1" ++ bytes [194; 160] ++ str "General  rules " ++ bytes [9] ++ str "4 ")
  = [str "1.1"; str "General"; str "rules"; str "4"].
Proof. vm_compute. reflexivity. Qed.

Example TrimSpace_unicode :
  TrimSpace (bytes [226; 128; 168] ++ str " a  b " ++ bytes [194; 133]) = str "a  b".
Proof. vm_compute. reflexivity. Qed.

Example Atoi_cases :
  Atoi (str "0042") = (42%Z, true)
  ∧ Atoi (str "9223372036854775808") = (GoInt.int_max, false)
  ∧ Atoi (str "4x") = (0%Z, false).
Proof. vm_compute. auto. Qed.

Example ReplaceAll_overlap :
  ReplaceAll (str "a . . . . . . b") (str " . . . ") (str " ") = str "a . . . b".
Proof. vm_compute. reflexivity. Qed.

(** *** What becomes of one glyph *)

Section GlyphFacts.
Implicit Types (A B T old new : gostring) (c : ascii).

Lemma replace_go_apart old new A T B :
  old ≠ [] → T ≠ [] → apart old T →
  replace_go old new 0 (A ++ T ++ B)
  = replace_go old new 0 A ++ T ++ replace_go old new 0 B.
Proof.
  intros Hold HT Hap. destruct T as [|c T]; [done|].
  apply replace_go_sep_block; [done| | |lia].
  - apply Hap. by left.
  - apply Forall_forall. intros d Hd. apply Hap. by right.
Qed.

(** An occurrence that none before it can run into is replaced where it
    stands. *)
Lemma replace_go_glyph old new A B :
  old ≠ [] →
  (∀ c A' B', HasPrefix (c :: A' ++ old ++ B') old = HasPrefix (c :: A') old) →
  replace_go old new 0 (A ++ old ++ B)
  = replace_go old new 0 A ++ new ++ replace_go old new 0 B.
Proof.
  intros Hold H. rewrite replace_go_split; [|intros; apply H|lia]. f_equal.
  destruct old as [|x q]; [done|]. apply replace_go_head.
Qed.

Ltac overlap A :=
  destruct A as [|? [|? A]]; cbn; rewrite ?andb_false_r; reflexivity.

Lemma bullet_unbordered c A B :
  HasPrefix (c :: A ++ bullet ++ B) bullet = HasPrefix (c :: A) bullet.
Proof. overlap A. Qed.

Lemma middleDot_unbordered c A B :
  HasPrefix (c :: A ++ middleDot ++ B) middleDot = HasPrefix (c :: A) middleDot.
Proof. overlap A. Qed.

Lemma ellipsis_unbordered c A B :
  HasPrefix (c :: A ++ ellipsis ++ B) ellipsis = HasPrefix (c :: A) ellipsis.
Proof. overlap A. Qed.

(** The bullet and the ellipsis share two bytes, yet no bullet can lie
    across an ellipsis. *)
Lemma bullet_pass_ellipsis new A B :
  replace_go bullet new 0 (A ++ ellipsis ++ B)
  = replace_go bullet new 0 A ++ ellipsis ++ replace_go bullet new 0 B.
Proof.
  rewrite replace_go_split; [done| |lia].
  intros _ c A' _. overlap A'.
Qed.

Lemma normalize_bullet A B :
  normalizeDotLeaders (A ++ bullet ++ B) = normalizeDotLeaders (A ++ str " " ++ B).
Proof.
  unfold normalizeDotLeaders. do 8 f_equal.
  rewrite !ReplaceAll_nonempty by literal_facts.
  rewrite replace_go_glyph by (literal_facts || apply bullet_unbordered).
  by rewrite replace_go_apart by literal_facts.
Qed.

Lemma normalize_middleDot A B :
  normalizeDotLeaders (A ++ middleDot ++ B) = normalizeDotLeaders (A ++ str " " ++ B).
Proof.
  unfold normalizeDotLeaders. do 7 f_equal.
  rewrite !ReplaceAll_nonempty by literal_facts.
  rewrite !(replace_go_apart bullet) by literal_facts.
  rewrite replace_go_glyph by (literal_facts || apply middleDot_unbordered).
  by rewrite replace_go_apart by literal_facts.
Qed.

Lemma normalize_ellipsis A B :
  normalizeDotLeaders (A ++ ellipsis ++ B) = normalizeDotLeaders (A ++ str " ... " ++ B).
Proof.
  unfold normalizeDotLeaders. do 6 f_equal.
  rewrite !ReplaceAll_nonempty by literal_facts.
  rewrite bullet_pass_ellipsis, (replace_go_apart bullet) by literal_facts.
  rewrite !(replace_go_apart middleDot) by literal_facts.
  rewrite replace_go_glyph by (literal_facts || apply ellipsis_unbordered).
  by rewrite replace_go_apart by literal_facts.
Qed.

End GlyphFacts.

(** *** The spaced dots *)

Section SpacedFacts.
Implicit Types (A B S T : gostring) (c : ascii).






End SpacedFacts.

(** *** What the normaliser leaves alone *)






Example normalizeDotLeaders_ellipsis :
  normalizeDotLeaders (str "1.1 Rules " ++ ellipsis ++ ellipsis ++ str " 4")
  = str "1.1 Rules ... ... 4".
Proof. vm_compute. reflexivity. Qed.

(** ** Facts about the matcher *)

(** The state [k] bytes further on. *)
Definition advance (k : nat) (st : mstate) : mstate :=
  MState (rev (take k (after st)) ++ before st) (drop k (after st)) (caps st).

(** The length of the longest prefix of [s] within the class [p]. *)
Fixpoint span (p : ascii → bool) (s : gostring) : nat :=
  match s with
  | c :: s' => if p c then S (span p s') else 0
  | [] => 0
  end.

(** What [Group i] records on the way from [st] to [st']. *)
Definition capture (i : nat) (st st' : mstate) : mstate :=
  MState (before st') (after st') (<[i := consumed st st']> (caps st')).

Section RegexFacts.
Implicit Types (r : regex) (st : mstate) (p : ascii → bool) (g : bool) (k : nat).

Lemma run_Seq r1 r2 st : run (Seq r1 r2) st = run r1 st ≫= run r2.
Proof. reflexivity. Qed.

Lemma run_Alt r1 r2 st : run (Alt r1 r2) st = run r1 st ++ run r2 st.
Proof. reflexivity. Qed.

Lemma run_Group i r st : run (Group i r) st = capture i st <$> run r st.
Proof. reflexivity. Qed.

Lemma run_Plus g r st : run (Plus g r) st = run r st ≫= run (Star g r).
Proof. reflexivity. Qed.

Lemma run_Chr_cons p b c s cs :
  run (Chr p) (MState b (c :: s) cs) = if p c then [MState (c :: b) s cs] else [].
Proof. reflexivity. Qed.

Lemma run_Chr_nil p b cs : run (Chr p) (MState b [] cs) = [].
Proof. reflexivity. Qed.

Lemma advance_0 st : advance 0 st = st.
Proof. destruct st. unfold advance. simpl. by rewrite drop_0. Qed.

Lemma advance_S k b c s cs :
  advance (S k) (MState b (c :: s) cs) = advance k (MState (c :: b) s cs).
Proof. unfold advance. simpl. by rewrite <- app_assoc. Qed.

Lemma advance_app b x s cs :
  advance (length x) (MState b (x ++ s) cs) = MState (rev x ++ b) s cs.
Proof. unfold advance. simpl. by rewrite take_app_length, drop_app_length. Qed.

Lemma after_advance k st : after (advance k st) = drop k (after st).
Proof. reflexivity. Qed.

Lemma star_go_fuel step g f1 f2 st :
  length (after st) < f1 → length (after st) < f2 →
  star_go step g f1 st = star_go step g f2 st.
Proof.
  revert f2 st. induction f1 as [|f1 IH]; intros [|f2] st H1 H2; try lia.
  cbn [star_go].
  assert (E : (step st ≫= λ st',
                 if (length (after st') <? length (after st))%nat
                 then star_go step g f1 st' else [])
            = (step st ≫= λ st',
                 if (length (after st') <? length (after st))%nat
                 then star_go step g f2 st' else [])).
  { apply list_bind_ext; [|done]. intros st'.
    destruct (Nat.ltb_spec (length (after st')) (length (after st))); [|done].
    apply IH; lia. }
  by rewrite E.
Qed.

Lemma run_Star g r st :
  run (Star g r) st =
    let more := run r st ≫= λ st',
                  if (length (after st') <? length (after st))%nat
                  then run (Star g r) st' else [] in
    if g then more ++ [st] else st :: more.
Proof.
  cbn [run star_go].
  assert (E : (run r st ≫= λ st',
                 if (length (after st') <? length (after st))%nat
                 then star_go (run r) g (length (after st)) st' else [])
            = (run r st ≫= λ st',
                 if (length (after st') <? length (after st))%nat
                 then star_go (run r) g (S (length (after st'))) st' else [])).
  { apply list_bind_ext; [|done]. intros st'.
    destruct (Nat.ltb_spec (length (after st')) (length (after st))); [|done].
    apply star_go_fuel; lia. }
  by rewrite E.
Qed.

Lemma run_Star_stop g r st : run r st = [] → run (Star g r) st = [st].
Proof. intros H. rewrite run_Star, H. by destruct g. Qed.

(** Repetition of a class: every prefix of the longest run, the longest
    first when greedy and the shortest first otherwise. *)
Lemma run_Star_class g p st :
  run (Star g (Chr p)) st
  = (λ k, advance k st) <$>
      (if g then reverse (seq 0 (S (span p (after st))))
       else seq 0 (S (span p (after st)))).
Proof.
  destruct st as [b a cs]. revert b. induction a as [|c a IH]; intros b.
  - rewrite run_Star_stop by done. destruct g; simpl; by rewrite advance_0.
  - cbn [span after]. destruct (p c) eqn:Hp.
    + rewrite run_Star, run_Chr_cons, Hp. cbn zeta.
      rewrite bind_singleton. cbn [after length].
      destruct (Nat.ltb_spec (length a) (S (length a))); [|lia].
      rewrite IH. cbn [after].
      change (seq 0 (S (S (span p a)))) with (0 :: seq 1 (S (span p a))).
      rewrite <- fmap_S_seq.
      destruct g.
      * rewrite reverse_cons, fmap_app. cbn [fmap list_fmap].
        rewrite advance_0. f_equal.
        rewrite <- fmap_reverse, <- list_fmap_compose. apply list_fmap_ext.
        intros _ k _. simpl. by rewrite advance_S.
      * rewrite fmap_cons, advance_0. f_equal.
        rewrite <- list_fmap_compose. apply list_fmap_ext.
        intros _ k _. simpl. by rewrite advance_S.
    + rewrite run_Star_stop by (by rewrite run_Chr_cons, Hp).
      destruct g; simpl; by rewrite advance_0.
Qed.

Lemma run_Plus_class g p st :
  run (Plus g (Chr p)) st
  = (λ k, advance k st) <$>
      (if g then reverse (seq 1 (span p (after st))) else seq 1 (span p (after st))).
Proof.
  rewrite run_Plus. destruct st as [b [|c a] cs].
  - rewrite run_Chr_nil. by destruct g.
  - rewrite run_Chr_cons. cbn [after span]. destruct (p c); [|by destruct g].
    rewrite bind_singleton, run_Star_class. cbn [after].
    rewrite <- fmap_S_seq.
    destruct g.
    + rewrite <- fmap_reverse, <- list_fmap_compose. apply list_fmap_ext.
      intros _ k _. simpl. by rewrite advance_S.
    + rewrite <- list_fmap_compose. apply list_fmap_ext.
      intros _ k _. simpl. by rewrite advance_S.
Qed.

Lemma elem_run_Star_class g p st st' :
  st' ∈ run (Star g (Chr p)) st → ∃ k, k ≤ span p (after st) ∧ st' = advance k st.
Proof.
  rewrite run_Star_class. intros (k & -> & Hk)%list_elem_of_fmap.
  exists k. split; [|done].
  destruct g; [rewrite elem_of_reverse in Hk|]; apply elem_of_seq in Hk; lia.
Qed.

Lemma elem_run_Plus_class g p st st' :
  st' ∈ run (Plus g (Chr p)) st →
  ∃ k, 1 ≤ k ≤ span p (after st) ∧ st' = advance k st.
Proof.
  rewrite run_Plus_class. intros (k & -> & Hk)%list_elem_of_fmap.
  exists k. split; [|done].
  destruct g; [rewrite elem_of_reverse in Hk|]; apply elem_of_seq in Hk; lia.
Qed.

Lemma head_run_Star_class p st :
  head (run (Star true (Chr p)) st) = Some (advance (span p (after st)) st).
Proof. by rewrite run_Star_class, seq_S, reverse_snoc. Qed.

Lemma head_run_Plus_class p st :
  1 ≤ span p (after st) →
  head (run (Plus true (Chr p)) st) = Some (advance (span p (after st)) st).
Proof.
  intros Hn. rewrite run_Plus_class.
  destruct (span p (after st)) as [|n]; [lia|].
  by rewrite seq_S, reverse_snoc.
Qed.

Lemma head_bind_first {A B} (f : A → list B) l x y :
  head l = Some x → head (f x) = Some y → head (l ≫= f) = Some y.
Proof.
  destruct l as [|x0 l]; [done|]. intros [= ->] Hy.
  rewrite bind_cons. destruct (f x); [done|]. done.
Qed.

Lemma bind_none {A B} (f : A → list B) l : (∀ z, z ∈ l → f z = []) → l ≫= f = [].
Proof.
  induction l as [|z l IH]; intros H; [done|].
  rewrite bind_cons, (H z) by apply list_elem_of_here.
  apply IH. intros z' Hz'. apply H. by apply list_elem_of_further.
Qed.

Lemma head_bind_skip {A B} (f : A → list B) l1 x l2 y :
  (∀ z, z ∈ l1 → f z = []) → head (f x) = Some y →
  head ((l1 ++ x :: l2) ≫= f) = Some y.
Proof.
  intros H1 Hy. rewrite bind_app, bind_none by done.
  rewrite app_nil_l. by apply head_bind_first with (x := x).
Qed.

Lemma head_run_Seq r1 r2 st st1 st2 :
  head (run r1 st) = Some st1 → head (run r2 st1) = Some st2 →
  head (run (Seq r1 r2) st) = Some st2.
Proof. intros. rewrite run_Seq. by eapply head_bind_first. Qed.

Lemma head_run_Alt_l r1 r2 st st1 :
  head (run r1 st) = Some st1 → head (run (Alt r1 r2) st) = Some st1.
Proof. intros H. rewrite run_Alt. destruct (run r1 st); [done|]. done. Qed.

Lemma head_run_Group i r st st1 :
  head (run r st) = Some st1 → head (run (Group i r) st) = Some (capture i st st1).
Proof. intros H. rewrite run_Group. destruct (run r st); [done|]. simpl in *. congruence. Qed.

Lemma head_run_Star_step r st st1 st2 :
  head (run r st) = Some st1 →
  length (after st1) < length (after st) →
  head (run (Star true r) st1) = Some st2 →
  head (run (Star true r) st) = Some st2.
Proof.
  intros H1 Hlt H2. rewrite run_Star. cbn zeta.
  apply head_app_Some. left. apply head_bind_first with (x := st1); [done|].
  by destruct (Nat.ltb_spec (length (after st1)) (length (after st))); [|lia].
Qed.

Lemma span_app p x s : forallb p x = true → span p (x ++ s) = length x + span p s.
Proof.
  induction x as [|c x IH]; [done|]. simpl. intros [-> Hx]%andb_true_iff.
  by rewrite IH.
Qed.

Lemma span_le p A c B : p c = false → span p (A ++ c :: B) ≤ length A.
Proof.
  intros Hc. induction A as [|a A IH]; simpl; [by rewrite Hc|].
  destruct (p a); lia.
Qed.

Lemma span_all p x : forallb p x = true → span p x = length x.
Proof. intros H. rewrite <- (app_nil_r x) at 1. rewrite span_app by done. simpl. lia. Qed.

Lemma head_Plus_run p b x s cs :
  x ≠ [] → forallb p x = true → span p s = 0 →
  head (run (Plus true (Chr p)) (MState b (x ++ s) cs)) = Some (MState (rev x ++ b) s cs).
Proof.
  intros Hx Hp Hs. rewrite head_run_Plus_class; cbn [after]; rewrite span_app, Hs by done.
  - by rewrite Nat.add_0_r, advance_app.
  - destruct x; [done|]. simpl. lia.
Qed.

Lemma head_Star_run p b x s cs :
  forallb p x = true → span p s = 0 →
  head (run (Star true (Chr p)) (MState b (x ++ s) cs)) = Some (MState (rev x ++ b) s cs).
Proof.
  intros Hp Hs. rewrite head_run_Star_class. cbn [after].
  by rewrite span_app, Hs, Nat.add_0_r, advance_app.
Qed.

Lemma head_Star_none p st :
  span p (after st) = 0 → head (run (Star true (Chr p)) st) = Some st.
Proof. intros H. by rewrite head_run_Star_class, H, advance_0. Qed.

Lemma capture_app i b x s cs b' cs' :
  capture i (MState b (x ++ s) cs) (MState b' s cs') = MState b' s (<[i := x]> cs').
Proof.
  unfold capture, consumed. cbn [before after caps]. do 2 f_equal.
  rewrite length_app. replace (length x + length s - length s) with (length x) by lia.
  apply take_app_length.
Qed.

Lemma capture_all i b x cs b' cs' :
  capture i (MState b x cs) (MState b' [] cs') = MState b' [] (<[i := x]> cs').
Proof.
  unfold capture, consumed. cbn [before after caps length]. do 2 f_equal.
  rewrite Nat.sub_0_r. apply firstn_all.
Qed.

End RegexFacts.

(** ** The entry patterns on a normalised line *)

(** A non-empty run of ASCII digits. *)
Definition digits (s : gostring) : Prop := s ≠ [] ∧ forallb is_digit s = true.

(** Dotted digit groups, as in [.2.10]. *)
Definition dotted (groups : list gostring) : gostring :=
  concat (map (λ g, "."%char :: g) groups).

(** The title part of a normalised line: no line feed in it, and neither
    its first nor its last byte is matched by [\s]. *)
Definition title_ok (t : gostring) : Prop :=
  forallb re_any t = true
  ∧ match t with
    | [] => False
    | a :: _ => re_space a = false
    end
  ∧ match last t with
    | None => False
    | Some z => re_space z = false
    end.

Lemma title_ok_inv t :
  title_ok t →
  forallb re_any t = true
  ∧ (∃ a t', t = a :: t' ∧ re_space a = false)
  ∧ (∃ t' z, t = t' ++ [z] ∧ re_space z = false).
Proof.
  intros (Hany & Hhead & Hlast). split; [done|]. split.
  - destruct t as [|a t']; [done|]. by exists a, t'.
  - destruct (last t) as [z|] eqn:Hz; [|done].
    apply last_Some in Hz as [t' ->]. by exists t', z.
Qed.

Section ClassFacts.
Implicit Types c : ascii.

Lemma digit_not_space c : is_digit c = true → re_space c = false.
Proof. intros H. by_bytes c. Qed.

Lemma digit_any c : is_digit c = true → re_any c = true.
Proof. intros H. by_bytes c. Qed.

Lemma digit_plain c : is_digit c = true → is_ascii c = true ∧ is_space_byte c = false.
Proof. intros H. split; by_bytes c. Qed.

Lemma digit_ne_dot c : is_digit c = true → Ascii.eqb c "." = false.
Proof. intros H. by_bytes c. Qed.

Lemma digit_ne_minus c : is_digit c = true → Ascii.eqb c "-" = false.
Proof. intros H. by_bytes c. Qed.

Lemma digit_ne_plus c : is_digit c = true → Ascii.eqb c "+" = false.
Proof. intros H. by_bytes c. Qed.

Lemma upper_ne_dot c : re_upper c = true → Ascii.eqb c "." = false.
Proof. intros H. by_bytes c. Qed.

Lemma upper_not_space c : re_upper c = true → re_space c = false.
Proof. intros H. by_bytes c. Qed.

Lemma space_byte_re_space c : is_space_byte c = false → re_space c = false.
Proof. intros H. by_bytes c. Qed.

Lemma space_byte_re_any c : is_space_byte c = false → re_any c = true.
Proof. intros H. by_bytes c. Qed.

Lemma digits_head P : digits P → ∃ d P', P = d :: P' ∧ is_digit d = true.
Proof.
  intros [Hne Hd]. destruct P as [|d P']; [done|]. simpl in Hd.
  apply andb_true_iff in Hd as [Hd _]. by exists d, P'.
Qed.

Lemma digits_any P : forallb is_digit P = true → forallb re_any P = true.
Proof.
  rewrite !forallb_forall. intros H c Hc. by apply digit_any, H.
Qed.

End ClassFacts.

Section TailFacts.
Implicit Types (st : mstate) (t P b : gostring) (cs : list gostring).

Lemma run_Eol_more st : after st ≠ [] → run Eol st = [].
Proof. destruct st as [b [|c a] cs]; [done|]. reflexivity. Qed.

Lemma run_Eol_end b cs : run Eol (MState b [] cs) = [MState b [] cs].
Proof. reflexivity. Qed.

Lemma span_drop p n A c B :
  p c = false → n ≤ length A → span p (drop n (A ++ c :: B)) ≤ length A - n.
Proof.
  intros Hc Hn. rewrite drop_app_le by done.
  etrans; [by apply span_le|]. by rewrite length_drop.
Qed.

(** What follows the title, [\s+(\d+)\s*$], fails while more than the
    page number is left behind the blank. *)
Lemma pageTail_fails i st y z P :
  after st = y ++ z :: " "%char :: P → re_space z = false → digits P →
  run (Seq (Plus true ws)
         (Seq (Group i (Plus true digit)) (Seq (Star true ws) Eol))) st = [].
Proof.
  intros Hst Hz HP. destruct (digits_head P HP) as (d & P' & -> & Hd).
  rewrite run_Seq. apply bind_none. intros s1 (a & [Ha1 Ha2] & ->)%elem_run_Plus_class.
  rewrite run_Seq, run_Group, list_fmap_bind. apply bind_none.
  intros s2 (n & [Hn1 Hn2] & ->)%elem_run_Plus_class. cbn [compose].
  rewrite run_Seq. apply bind_none. intros s3 (m & Hm & ->)%elem_run_Star_class.
  apply run_Eol_more.
  change (after (advance m (capture i (advance a st) (advance n (advance a st)))))
    with (drop m (drop n (drop a (after st)))).
  rewrite !after_advance in *. cbn [after capture] in Hm.
  rewrite !after_advance in *. rewrite Hst in *. clear Hst.
  assert (Ha : a ≤ length y) by (etrans; [exact Ha2|by apply span_le]).
  assert (Hn : a + n ≤ length y + 1).
  { pose proof (span_drop is_digit a (y ++ [z]) " "%char (d :: P') eq_refl) as Hs.
    rewrite length_app in Hs. simpl in Hs. rewrite <- app_assoc in Hs.
    simpl in Hs. specialize (Hs ltac:(lia)). lia. }
  assert (Hm' : a + n + m ≤ length y + 2).
  { pose proof (span_drop re_space (a + n) (y ++ [z; " "%char]) d P'
                  (digit_not_space _ Hd)) as Hs.
    rewrite length_app in Hs. simpl in Hs. rewrite <- app_assoc in Hs.
    simpl in Hs. specialize (Hs ltac:(lia)).
    rewrite drop_drop in Hm. lia. }
  intros Hnil. apply (f_equal length) in Hnil.
  rewrite !length_drop, length_app in Hnil. simpl in Hnil. lia.
Qed.

Lemma pageTail_first i b P cs :
  digits P →
  head (run (Seq (Plus true ws)
               (Seq (Group i (Plus true digit)) (Seq (Star true ws) Eol)))
          (MState b (" "%char :: P) cs))
  = Some (MState (rev (" "%char :: P) ++ b) [] (<[i := P]> cs)).
Proof.
  intros HP. destruct (digits_head P HP) as (d & P' & -> & Hd).
  destruct HP as [_ HP]. unfold ws, digit.
  apply head_run_Seq with (st1 := MState (" "%char :: b) (d :: P') cs).
  { apply (head_Plus_run re_space b [" "%char]); [done..|].
    simpl. by rewrite (digit_not_space _ Hd). }
  apply head_run_Seq
    with (st1 := MState (rev (d :: P') ++ " "%char :: b) [] (<[i := d :: P']> cs)).
  { rewrite <- (capture_all i (" "%char :: b) (d :: P') cs).
    apply head_run_Group.
    rewrite <- (app_nil_r (d :: P')) at 1. by apply head_Plus_run. }
  apply head_run_Seq
    with (st1 := MState (rev (d :: P') ++ " "%char :: b) [] (<[i := d :: P']> cs)).
  { by apply (head_Star_run re_space _ []). }
  rewrite run_Eol_end. cbn [head]. do 2 f_equal.
  simpl. by rewrite <- !app_assoc.
Qed.

(** The common end of the entry patterns takes the shortest title that
    leaves a blank and the page number: the whole of [t]. *)
Lemma entryTail_first g b t P cs :
  title_ok t → digits P →
  head (run (entryTail g) (MState b (" "%char :: t ++ " "%char :: P) cs))
  = Some (MState (rev (" "%char :: t ++ " "%char :: P) ++ b) []
            (<[S g := P]> (<[g := t]> cs))).
Proof.
  intros (Hany & (a & t1 & Ht1 & Ha) & (t2 & z & Ht2 & Hz))%title_ok_inv HP.
  unfold entryTail.
  apply head_run_Seq with (st1 := MState (" "%char :: b) (t ++ " "%char :: P) cs).
  { apply (head_Plus_run re_space b [" "%char]); [done..|].
    rewrite Ht1. simpl. by rewrite Ha. }
  set (sa := MState (" "%char :: b) (t ++ " "%char :: P) cs).
  rewrite run_Seq, run_Group, run_Plus_class. cbn [after sa].
  rewrite span_all.
  2:{ rewrite forallb_app, Hany. simpl. apply digits_any, HP. }
  rewrite <- list_fmap_compose, list_fmap_bind.
  assert (Hlen : 1 ≤ length t) by (rewrite Ht1; simpl; lia).
  replace (length (t ++ " "%char :: P))
    with ((length t - 1) + S (S (length P)))
    by (rewrite length_app; simpl; lia).
  rewrite seq_app. replace (1 + (length t - 1)) with (length t) by lia.
  cbn [seq]. apply head_bind_skip.
  - intros k Hk%elem_of_seq. cbn [compose].
    apply pageTail_fails with (y := drop k t2) (z := z) (P := P); [|done..].
    change (after (capture g sa (advance k sa))) with (drop k (after sa)).
    cbn [after sa]. rewrite Ht2, <- app_assoc. cbn [app].
    rewrite drop_app_le; [done|].
    rewrite Ht2, length_app in Hk. simpl in Hk. lia.
  - cbn [compose]. unfold sa. rewrite advance_app, capture_app.
    rewrite pageTail_first by done. do 2 f_equal.
    simpl. rewrite rev_app_distr. simpl. by rewrite <- !app_assoc.
Qed.

End TailFacts.

(** What may follow a number token: not a dot and not a digit. *)
Definition token_end (rest : gostring) : Prop :=
  match rest with
  | [] => True
  | c :: _ => Ascii.eqb "." c = false ∧ is_digit c = false
  end.

Section TokenFacts.
Implicit Types (st : mstate) (b rest N : gostring) (cs : list gostring)
  (groups : list gostring).

Lemma token_end_span rest : token_end rest → span is_digit rest = 0.
Proof. destruct rest as [|c rest]; [done|]. simpl. by intros [_ ->]. Qed.

Lemma span_dotted groups rest :
  token_end rest → span is_digit (dotted groups ++ rest) = 0.
Proof. destruct groups; [apply token_end_span|done]. Qed.

(** The greedy repetition of dotted digit groups takes them all. *)
Lemma dotted_first groups b rest cs :
  Forall digits groups → token_end rest →
  head (run (Star true (Seq dot (Plus true digit))) (MState b (dotted groups ++ rest) cs))
  = Some (MState (rev (dotted groups) ++ b) rest cs).
Proof.
  intros Hg Hrest. revert b. induction Hg as [|g groups [Hne Hd] _ IH]; intros b.
  - change (dotted [] ++ rest) with rest.
    rewrite run_Star_stop; [done|]. rewrite run_Seq. unfold dot, Byte.
    destruct rest as [|c rest]; [done|]. rewrite run_Chr_cons.
    destruct Hrest as [-> _]. done.
  - cbn [dotted map concat]. fold (dotted groups).
    apply head_run_Star_step
      with (st1 := MState (rev ("."%char :: g) ++ b) (dotted groups ++ rest) cs).
    + apply head_run_Seq
        with (st1 := MState ("."%char :: b) (g ++ dotted groups ++ rest) cs).
      * unfold dot, Byte. cbn [app]. rewrite <- app_assoc. by rewrite run_Chr_cons.
      * replace (rev ("."%char :: g) ++ b) with (rev g ++ "."%char :: b)
          by (simpl; by rewrite <- app_assoc).
        apply head_Plus_run; [done..|]. by apply span_dotted.
    + cbn [after]. rewrite <- app_assoc, (length_app (_ :: _)). simpl. lia.
    + rewrite IH. do 2 f_equal.
      by rewrite rev_app_distr, <- app_assoc.
Qed.

Lemma alphaToken_first L groups b rest cs :
  re_upper L = true → Forall digits groups → token_end rest →
  head (run alphaToken (MState b (L :: dotted groups ++ rest) cs))
  = Some (MState (rev (L :: dotted groups) ++ b) rest cs).
Proof.
  intros HL Hg Hrest. unfold alphaToken.
  apply head_run_Seq with (st1 := MState (L :: b) (dotted groups ++ rest) cs).
  { by rewrite run_Chr_cons, HL. }
  rewrite dotted_first by done. do 2 f_equal. simpl. by rewrite <- app_assoc.
Qed.

Lemma numToken_first N groups b rest cs :
  digits N → Forall digits groups → token_end rest →
  head (run (Seq (Plus true digit) (Star true (Seq dot (Plus true digit))))
          (MState b (N ++ dotted groups ++ rest) cs))
  = Some (MState (rev (N ++ dotted groups) ++ b) rest cs).
Proof.
  intros [HN Hd] Hg Hrest.
  apply head_run_Seq with (st1 := MState (rev N ++ b) (dotted groups ++ rest) cs).
  { apply head_Plus_run; [done..|]. by apply span_dotted. }
  rewrite dotted_first by done. do 2 f_equal.
  by rewrite rev_app_distr, <- app_assoc.
Qed.

(** Searching with an anchored pattern. *)
Definition startState (re : Regexp) (line : gostring) : mstate :=
  MState [] line (replicate (S (numSubexp re)) []).

Lemma search_unfold re b a :
  search re b a =
    match run (prog re) (MState b a (replicate (S (numSubexp re)) [])) with
    | st' :: _ => Some (MState b a (replicate (S (numSubexp re)) []), st')
    | [] => match a with
            | [] => None
            | c :: a' => search re (c :: b) a'
            end
    end.
Proof. by destruct a. Qed.

Lemma search_anchored_later re r b a :
  prog re = Seq Bol r → b ≠ [] → search re b a = None.
Proof.
  intros Hre. revert b. induction a as [|c a IH]; intros b Hb;
    rewrite search_unfold, Hre, run_Seq; (destruct b; [done|]); simpl; [done|].
  by apply IH.
Qed.

Lemma search_found re line st' :
  head (run (prog re) (startState re line)) = Some st' →
  FindStringSubmatch re line = submatches (startState re line, st')
  ∧ MatchString re line = true.
Proof.
  intros H. unfold FindStringSubmatch, MatchString. rewrite search_unfold.
  fold (startState re line). by destruct (run (prog re) (startState re line)) as [|? ?];
    simplify_eq/=.
Qed.

Lemma search_anchored_none re r line :
  prog re = Seq Bol r → run (prog re) (startState re line) = [] →
  FindStringSubmatch re line = [] ∧ MatchString re line = false.
Proof.
  intros Hre H. unfold FindStringSubmatch, MatchString. rewrite search_unfold.
  fold (startState re line). rewrite H.
  destruct line as [|c line]; [done|].
  by rewrite (search_anchored_later re r).
Qed.

End TokenFacts.

Section AppendixFacts.
Variables (word : gostring) (L : ascii) (groups : list gostring) (t P : gostring).
Hypothesis word_appendix : word = str "Appendix" ∨ word = str "APPENDIX".
Hypothesis L_upper : re_upper L = true.
Hypothesis groups_digits : Forall digits groups.
Hypothesis t_title : title_ok t.
Hypothesis P_digits : digits P.

(** The line [Appendix L title P] behind its first word. *)
Definition appendixBody : gostring :=
  L :: dotted groups ++ " "%char :: t ++ " "%char :: P.

Definition appendixLine : gostring := word ++ " "%char :: appendixBody.

Lemma run_Lit x b s cs :
  run (Lit x) (MState b (x ++ s) cs) = [MState (rev x ++ b) s cs].
Proof using Type.
  revert b. induction x as [|c x IH]; intros b; [done|].
  cbn [Lit app]. rewrite run_Seq. unfold Byte. rewrite run_Chr_cons, Ascii.eqb_refl.
  rewrite bind_singleton, IH. simpl. by rewrite <- app_assoc.
Qed.

Lemma token_end_blank s : token_end (" "%char :: s).
Proof using Type. done. Qed.

(** Either spelling of the word is passed by its own branch of the
    alternation. *)
Lemma appendix_word b s cs :
  head (run (Alt (Lit (str "Appendix")) (Lit (str "APPENDIX"))) (MState b (word ++ s) cs))
  = Some (MState (rev word ++ b) s cs).
Proof using word_appendix.
  destruct word_appendix as [E|E]; rewrite E.
  - apply head_run_Alt_l. by rewrite run_Lit.
  - rewrite run_Alt. rewrite (run_Lit (str "APPENDIX")). reflexivity.
Qed.

Lemma appendix_run :
  ∃ b, head (run (prog tocAppendixRe) (startState tocAppendixRe appendixLine))
       = Some (MState b [] [[]; L :: dotted groups; t; P]).
Proof using All.
  eexists. unfold tocAppendixRe, startState, appendixLine. cbn [prog numSubexp].
  eapply head_run_Seq; [reflexivity|].
  eapply head_run_Seq.
  { apply head_Star_none. destruct word_appendix as [E|E]; by rewrite E. }
  eapply head_run_Seq; [apply appendix_word|].
  eapply head_run_Seq.
  { apply (head_Plus_run re_space _ [" "%char]); [done..|].
    unfold appendixBody. simpl. by rewrite upper_not_space. }
  eapply head_run_Seq.
  { unfold appendixBody. apply head_run_Group.
    by apply alphaToken_first; [| |apply token_end_blank]. }
  change (L :: dotted groups ++ ?r) with ((L :: dotted groups) ++ r).
  rewrite capture_app, entryTail_first by done. reflexivity.
Qed.

Lemma appendix_submatches :
  FindStringSubmatch tocAppendixRe appendixLine
  = [appendixLine; L :: dotted groups; t; P].
Proof using All.
  destruct appendix_run as [b Hrun].
  destruct (search_found _ _ _ Hrun) as [-> _].
  unfold submatches, consumed, startState. cbn [fst snd after caps length].
  rewrite Nat.sub_0_r, firstn_all. reflexivity.
Qed.

(** The bare alphabetic pattern has no match on such a line: behind the
    letter [A] it wants white space and finds the second letter of the
    word. *)
Lemma appendix_not_alpha :
  FindStringSubmatch tocAlphaRe appendixLine = []
  ∧ MatchString tocAlphaRe appendixLine = false.
Proof using word_appendix.
  assert (Hword : ∃ c w, word = "A"%char :: c :: w
                         ∧ re_space c = false ∧ Ascii.eqb "." c = false).
  { destruct word_appendix as [E|E]; rewrite E; by eexists _, _. }
  destruct Hword as (c & w & E & Hspace & Hdot).
  eapply search_anchored_none; [reflexivity|].
  unfold tocAlphaRe, startState, appendixLine. cbn [prog numSubexp]. rewrite E.
  set (rest := w ++ " "%char :: appendixBody).
  set (st0 := MState [] (("A"%char :: c :: w) ++ " "%char :: appendixBody) (replicate 4 [])).
  rewrite run_Seq. apply bind_none. intros s1 Hs1.
  change (run Bol st0) with [st0] in Hs1. apply list_elem_of_singleton in Hs1 as ->.
  rewrite run_Seq. apply bind_none.
  intros s2 (k & Hk & ->)%elem_run_Star_class.
  change (span re_space (after st0)) with 0 in Hk.
  assert (k = 0) as -> by lia. rewrite advance_0.
  rewrite run_Seq, run_Group, list_fmap_bind. apply bind_none.
  intros s3 Hs3. cbn [compose]. unfold alphaToken in Hs3.
  rewrite run_Seq in Hs3. apply list_elem_of_bind in Hs3 as (y & Hs3 & Hy).
  change (run (Chr re_upper) st0)
    with [MState ["A"%char] (c :: rest) (replicate 4 [])] in Hy.
  apply list_elem_of_singleton in Hy as ->.
  rewrite run_Star_stop in Hs3.
  2:{ rewrite run_Seq. unfold dot, Byte. by rewrite run_Chr_cons, Hdot. }
  apply list_elem_of_singleton in Hs3 as ->.
  unfold entryTail. rewrite run_Seq. apply bind_none.
  intros s4 (n & Hn & _)%elem_run_Plus_class.
  unfold capture in Hn. cbn [after span] in Hn. rewrite Hspace in Hn. lia.
Qed.

End AppendixFacts.

Section AtoiFacts.

Lemma Atoi_digits P :
  digits P →
  Atoi P = if (digits_val 0 P <=? GoInt.int_max)%Z
           then (digits_val 0 P, true) else (GoInt.int_max, false).
Proof.
  intros HP. destruct (digits_head P HP) as (d & P' & -> & Hd).
  destruct HP as [_ HP]. unfold Atoi.
  assert (Hm : HasPrefix (d :: P') (str "-") = false)
    by (simpl; by rewrite digit_ne_minus).
  assert (Hp : HasPrefix (d :: P') (str "+") = false)
    by (simpl; by rewrite digit_ne_plus).
  rewrite Hm, Hp. cbn [orb]. by rewrite HP.
Qed.

Lemma Atoi_page P :
  digits P → (Atoi P).1 = Z.min (digits_val 0 P) GoInt.int_max.
Proof.
  intros HP. rewrite Atoi_digits by done.
  destruct (Z.leb_spec (digits_val 0 P) GoInt.int_max); simpl; lia.
Qed.

Lemma count_go_digits g s :
  forallb is_digit g = true →
  count_go (str ".") 0 (g ++ s) = count_go (str ".") 0 s.
Proof.
  induction g as [|c g IH]; [done|]. simpl forallb.
  intros [Hc Hg]%andb_true_iff. cbn [app count_go].
  assert (HasPrefix (c :: g ++ s) (str ".") = false) as ->
    by (simpl; by rewrite digit_ne_dot).
  by apply IH.
Qed.

Lemma count_go_dotted groups s :
  Forall digits groups →
  count_go (str ".") 0 (dotted groups ++ s) = length groups + count_go (str ".") 0 s.
Proof.
  induction 1 as [|g groups [_ Hg] _ IH]; [done|].
  cbn [dotted map concat]. fold (dotted groups). rewrite <- !app_assoc.
  cbn [app count_go]. change (HasPrefix ("."%char :: ?x) (str ".")) with true.
  cbn [length Nat.sub]. rewrite count_go_digits by done. by rewrite IH.
Qed.

Lemma Count_token c groups :
  Ascii.eqb c "." = false → Forall digits groups →
  Count (c :: dotted groups) (str ".") = length groups.
Proof.
  intros Hc Hg. unfold Count. cbn [count_go].
  assert (HasPrefix (c :: dotted groups) (str ".") = false) as ->
    by (simpl; by rewrite Hc).
  rewrite <- (app_nil_r (dotted groups)), count_go_dotted by done. simpl. lia.
Qed.

End AtoiFacts.

(** The appendix pattern is tried before the other three: where it
    matches, the entry is read off its submatches. *)
Lemma matchToC_appendix_first line m :
  FindStringSubmatch tocAppendixRe line = m → length m = 4 →
  matchToC line
  = ({| eNumber := sub m 1;
        eTitle := TrimSpace (sub m 2);
        ePage := (Atoi (sub m 3)).1;
        eDepth := (Z.of_nat (Count (sub m 1) (str ".")) + 1)%Z |}, true).
Proof. intros <- Hlen. unfold matchToC. by rewrite Hlen. Qed.

(** C6: a normalised line [Appendix L title P], the word in either of its
    two spellings, is matched by the appendix pattern, which is tried
    first: the number token is [L] without the word, the depth is one more
    than the number of dotted groups of [L]; the bare alphabetic pattern
    has no match on such a line. *)
Theorem matchToC_appendix (word : gostring) (L : ascii) (groups : list gostring)
    (t P : gostring) :
  word = str "Appendix" ∨ word = str "APPENDIX" →
  re_upper L = true →
  Forall digits groups →
  title_ok t →
  digits P →
  FindStringSubmatch tocAppendixRe (appendixLine word L groups t P)
    = [appendixLine word L groups t P; L :: dotted groups; t; P]
  ∧ matchToC (appendixLine word L groups t P)
    = ({| eNumber := L :: dotted groups;
          eTitle := TrimSpace t;
          ePage := Z.min (digits_val 0 P) GoInt.int_max;
          eDepth := (Z.of_nat (length groups) + 1)%Z |}, true)
  ∧ MatchString tocAlphaRe (appendixLine word L groups t P) = false.
Proof.
  intros Hw HL Hg Ht HP. split_and!.
  - by apply appendix_submatches.
  - rewrite (matchToC_appendix_first _ _ (appendix_submatches word L groups t P Hw HL Hg Ht HP))
      by done.
    cbn [sub nth]. rewrite Atoi_page by done.
    rewrite Count_token; [done| |done]. by apply upper_ne_dot.
  - by apply appendix_not_alpha.
Qed.

Lemma matchToC_appendix_witness :
  FindStringSubmatch tocAppendixRe
      (appendixLine (str "Appendix") "A" [str "2"] (str "Wiring diagrams") (str "12"))
    = [appendixLine (str "Appendix") "A" [str "2"] (str "Wiring diagrams") (str "12");
       "A"%char :: dotted [str "2"]; str "Wiring diagrams"; str "12"]
  ∧ matchToC (appendixLine (str "Appendix") "A" [str "2"] (str "Wiring diagrams") (str "12"))
    = ({| eNumber := "A"%char :: dotted [str "2"];
          eTitle := TrimSpace (str "Wiring diagrams");
          ePage := Z.min (digits_val 0 (str "12")) GoInt.int_max;
          eDepth := (Z.of_nat (length [str "2"]) + 1)%Z |}, true)
  ∧ MatchString tocAlphaRe
      (appendixLine (str "Appendix") "A" [str "2"] (str "Wiring diagrams") (str "12"))
    = false.
Proof.
  apply (matchToC_appendix (str "Appendix") "A" [str "2"] (str "Wiring diagrams") (str "12")).
  - by left.
  - reflexivity.
  - repeat constructor; vm_compute; congruence.
  - vm_compute. auto.
  - split; vm_compute; congruence.
Defined.

(** The line of the specification, and its upper-case spelling. *)
Example matchToC_appendix_line :
  matchToC (normalizeDotLeaders (str "Appendix A Title ... 12"))
    = ({| eNumber := str "A"; eTitle := str "Title ..."; ePage := 12; eDepth := 1 |}, true)
  ∧ matchToC (str "APPENDIX B.1 Parts 30")
    = ({| eNumber := str "B.1"; eTitle := str "Parts"; ePage := 30; eDepth := 2 |}, true).
Proof. split; vm_compute; reflexivity. Qed.

(** ** The normaliser on a decimal entry line *)

(** A byte the normaliser never touches: ASCII, no white space, no dot. *)
Definition plain (c : ascii) : Prop :=
  is_ascii c = true ∧ is_space_byte c = false ∧ Ascii.eqb c "." = false.

Section ReplaceOnEntry.
Variables old new : gostring.
Hypothesis old_nodigit : forallb (λ c, negb (is_digit c)) old = true.
Hypothesis old_long : 2 ≤ length old.
Hypothesis new_head : ∃ n, new = " "%char :: n.
Hypothesis new_last : ∃ n, new = n ++ [" "%char].
Implicit Types (s u v D P X : gostring) (c d : ascii) (k : nat).

Lemma digit_not_in_old d : is_digit d = true → d ∉ old.
Proof using All.
  intros Hd Hin. rewrite forallb_forall in old_nodigit.
  apply list_elem_of_In, old_nodigit in Hin. by rewrite Hd in Hin.
Qed.

Lemma HasPrefix_digit_head d s : is_digit d = true → HasPrefix (d :: s) old = false.
Proof using All.
  intros Hd. pose proof (digit_not_in_old d Hd) as Hn.
  destruct old as [|x q]; [simpl in old_long; lia|].
  apply HasPrefix_head_ne. intros ->. apply Hn, list_elem_of_here.
Qed.

Lemma HasPrefix_second_digit c d s :
  is_digit d = true → HasPrefix (c :: d :: s) old = false.
Proof using All.
  intros Hd. pose proof (digit_not_in_old d Hd) as Hn.
  destruct old as [|x [|y q]]; [simpl in old_long; lia..|].
  simpl. destruct (Ascii.eqb_spec d y) as [->|]; [|by rewrite andb_false_r].
  exfalso. apply Hn, list_elem_of_further, list_elem_of_here.
Qed.

Lemma keep_digits D s :
  forallb is_digit D = true → replace_go old new 0 (D ++ s) = D ++ replace_go old new 0 s.
Proof using All.
  induction D as [|d D IH]; [done|]. simpl forallb. intros [Hd HD]%andb_true_iff.
  cbn [app]. rewrite replace_go_nomatch by (by apply HasPrefix_digit_head).
  by rewrite IH.
Qed.

Lemma replace_digits_only D :
  forallb is_digit D = true → replace_go old new 0 D = D.
Proof using All.
  intros HD. pose proof (keep_digits D [] HD) as H.
  rewrite app_nil_r in H. simpl in H. by rewrite app_nil_r in H.
Qed.

Lemma replace_head_blank u : ∃ u', replace_go old new 0 (" "%char :: u) = " "%char :: u'.
Proof using All.
  destruct new_head as [n ->]. cbn [replace_go].
  destruct (HasPrefix (" "%char :: u) old); by eexists.
Qed.

Lemma prefix_before_digit A d B :
  is_digit d = true → HasPrefix (A ++ d :: B) old = true → length old ≤ length A.
Proof using All.
  intros Hd H. rewrite HasPrefix_app_sep in H by (by apply digit_not_in_old).
  by apply HasPrefix_length.
Qed.

(** The blank and the page number at the end of the line stay there. *)
Lemma replace_go_tail P v k X :
  digits P →
  k ≤ length v ∨ (k = S (length v) ∧ ∃ X', X = X' ++ [" "%char]) →
  ∃ w, X ++ replace_go old new k (v ++ " "%char :: P) = w ++ " "%char :: P.
Proof using All.
  intros HP. destruct (digits_head P HP) as (d & P' & -> & Hd). destruct HP as [_ HP].
  revert k X. induction v as [|a v IH]; intros k X Hk.
  - cbn [app]. destruct Hk as [Hk|[-> (X' & ->)]].
    + assert (k = 0) as -> by (simpl in Hk; lia).
      rewrite replace_go_nomatch by (by apply HasPrefix_second_digit).
      rewrite replace_digits_only by done. by exists X.
    + change (replace_go old new (S (length [])) (" "%char :: d :: P'))
        with (replace_go old new 0 (d :: P')).
      rewrite replace_digits_only by done.
      exists X'. by rewrite <- app_assoc.
  - destruct k as [|k].
    + change ((a :: v) ++ " "%char :: d :: P') with (a :: (v ++ " "%char :: d :: P')).
      destruct (HasPrefix (a :: v ++ " "%char :: d :: P') old) eqn:Hm.
      * rewrite replace_go_match by done. rewrite app_assoc. apply IH.
        assert (Hlen : length old ≤ length ((a :: v) ++ [" "%char])).
        { apply (prefix_before_digit _ d P' Hd). rewrite <- app_assoc. exact Hm. }
        rewrite length_app in Hlen. simpl in Hlen.
        destruct (decide (length old - 1 ≤ length v)); [by left|right].
        split; [lia|]. destruct new_last as [nl' ->]. exists (X ++ nl').
        by rewrite app_assoc.
      * rewrite replace_go_nomatch by done.
        change (X ++ a :: ?r) with (X ++ [a] ++ r). rewrite app_assoc.
        apply IH. left. lia.
    + cbn [app replace_go]. apply IH. simpl in Hk.
      destruct Hk as [Hk|[Hk HX]]; [left; lia|right; split; [lia|done]].
Qed.

(** The shape of a decimal entry line, which every replacement keeps:
    number token, blank, text holding the plain byte [c], blank, page. *)
Definition entryShape (N M : gostring) (c : ascii) (P s : gostring) : Prop :=
  ∃ u v, s = N ++ "."%char :: M ++ " "%char :: u ++ c :: v ++ " "%char :: P.

Lemma replace_go_shape N M c P s :
  old ≠ [] → c ∉ old → digits N → digits M → digits P →
  entryShape N M c P s → entryShape N M c P (replace_go old new 0 s).
Proof using All.
  intros Hold Hc [_ HN] HM HP (u & v & ->).
  destruct (digits_head M HM) as (m & M' & -> & Hm). destruct HM as [_ HM].
  replace (N ++ "."%char :: (m :: M') ++ " "%char :: u ++ c :: v ++ " "%char :: P)
    with ((N ++ "."%char :: (m :: M') ++ " "%char :: u) ++ c :: (v ++ " "%char :: P))
    by (by rewrite <- !app_assoc; cbn [app]; rewrite <- !app_assoc).
  rewrite replace_go_sep by (done || lia).
  rewrite keep_digits by done.
  cbn [app]. rewrite replace_go_nomatch by (by apply HasPrefix_second_digit).
  change (m :: M' ++ " "%char :: u) with ((m :: M') ++ " "%char :: u).
  rewrite keep_digits by done.
  destruct (replace_head_blank u) as [u' ->].
  destruct (replace_go_tail P v 0 [] HP) as [w Hw]; [left; lia|].
  cbn [app] in Hw. rewrite Hw. exists u', w.
  by rewrite <- !app_assoc; cbn [app]; rewrite <- !app_assoc.
Qed.

End ReplaceOnEntry.

Ltac assoc_eq :=
  repeat first [rewrite <- app_assoc | progress cbn [app]]; reflexivity.

Section EntryLine.
Implicit Types (N M P s t f : gostring) (c : ascii) (F : list gostring).

Lemma plain_not_in c old :
  plain c →
  forallb (λ x, negb (is_ascii x) || Ascii.eqb x "." || is_space_byte x) old = true →
  c ∉ old.
Proof.
  intros (H1 & H2 & H3) Hold Hin. rewrite forallb_forall in Hold.
  apply list_elem_of_In, Hold in Hin. by rewrite H1, H2, H3 in Hin.
Qed.

Lemma Join_cons f F sep : F ≠ [] → Join (f :: F) sep = f ++ sep ++ Join F sep.
Proof. by destruct F. Qed.

Lemma Join_snoc F f sep : F ≠ [] → Join (F ++ [f]) sep = Join F sep ++ sep ++ f.
Proof.
  induction F as [|g F IH]; [done|]. intros _. destruct F as [|h F]; [done|].
  change ((g :: h :: F) ++ [f]) with (g :: ((h :: F) ++ [f])).
  rewrite !Join_cons by done. rewrite IH by done. by rewrite <- !app_assoc.
Qed.

Lemma Join_any F :
  Forall field_ok F → forallb re_any (Join F (str " ")) = true.
Proof.
  assert (Hf : ∀ f, field_ok f → forallb re_any f = true).
  { intros f Hf%field_ok_bytes. apply forallb_forall. intros c Hc%list_elem_of_In.
    rewrite Forall_forall in Hf. by apply space_byte_re_any, Hf. }
  induction 1 as [|f F Hfo HF IH]; [done|]. destruct F as [|g F]; [by apply Hf|].
  rewrite Join_cons by done. rewrite !forallb_app, Hf, IH by done. done.
Qed.

Lemma Join_last F :
  F ≠ [] → Forall field_ok F →
  ∃ t z, Join F (str " ") = t ++ [z] ∧ is_space_byte z = false.
Proof.
  intros HF Hok. induction Hok as [|f F Hfo Hok IH]; [done|].
  pose proof (field_ok_bytes f Hfo) as Hf. destruct Hfo as [Hne _].
  destruct F as [|g F].
  - destruct (exists_last Hne) as (t & z & ->). exists t, z. split; [done|].
    apply Forall_app in Hf as [_ Hz]. by inversion Hz.
  - destruct IH as (t & z & Ht & Hz); [done|]. rewrite Join_cons, Ht by done.
    exists (f ++ str " " ++ t), z. split; [|done]. by rewrite <- !app_assoc.
Qed.

Lemma Join_title_ok F :
  F ≠ [] → Forall field_ok F → title_ok (Join F (str " ")).
Proof.
  intros HF Hok. split_and!.
  - by apply Join_any.
  - destruct F as [|f F]; [done|]. inversion Hok as [|? ? Hfo _]; subst.
    pose proof (field_ok_bytes f Hfo) as Hf. destruct Hfo as [Hne _].
    destruct f as [|a f]; [done|]. inversion Hf; subst.
    assert (Join ((a :: f) :: F) (str " ") = a :: (match F with
                                                    | [] => f
                                                    | _ :: _ => f ++ str " " ++ Join F (str " ")
                                                    end)) as -> by (by destruct F).
    by apply space_byte_re_space.
  - destruct (Join_last F HF Hok) as (t & z & -> & Hz).
    rewrite last_snoc. by apply space_byte_re_space.
Qed.

(** The normaliser on a line of the shape [N.M text PAGE]: the number
    token and the page number stay at the two ends, with at least one word
    in between. *)
Lemma normalize_entry N M c P s :
  digits N → digits M → digits P → plain c →
  entryShape N M c P s →
  ∃ F, F ≠ [] ∧ Forall field_ok F
       ∧ normalizeDotLeaders s
         = N ++ "."%char :: M ++ " "%char :: Join F (str " ") ++ " "%char :: P.
Proof.
  intros HN HM HP Hc Hs. unfold normalizeDotLeaders.
  assert (Hstep : ∀ old new s,
    forallb (λ c, negb (is_digit c)) old = true → 2 ≤ length old →
    (∃ n, new = " "%char :: n) → (∃ n, new = n ++ [" "%char]) →
    forallb (λ x, negb (is_ascii x) || Ascii.eqb x "." || is_space_byte x) old = true →
    entryShape N M c P s → entryShape N M c P (ReplaceAll s old new)).
  { intros old new s0 H1 H2 H3 H4 H5 H6.
    assert (old ≠ []) by (destruct old; [simpl in H2; lia|done]).
    rewrite ReplaceAll_nonempty by done.
    apply replace_go_shape; try done. by apply plain_not_in. }
  assert (Hb : ∃ n, str " " = " "%char :: n) by (by exists []).
  assert (Hb' : ∃ n, str " " = n ++ [" "%char]) by (by exists []).
  assert (He : ∃ n, str " ... " = " "%char :: n) by (by eexists).
  assert (He' : ∃ n, str " ... " = n ++ [" "%char]) by (by exists (str " ...")).
  set (s7 := ReplaceAll _ (str " . . . ") _).
  assert (H7 : entryShape N M c P s7).
  { unfold s7.
    do 7 (apply Hstep;
          [vm_compute; reflexivity|vm_compute; lia|done|done|vm_compute; reflexivity|]).
    done. }
  clearbody s7. destruct H7 as (u & v & ->).
  destruct HN as [HNne HN], HM as [HMne HM].
  exists (Fields (u ++ c :: v)). split_and!.
  - destruct Hc as (H1 & H2 & _). unfold Fields.
    apply fields_go_nonempty; [done..|lia].
  - apply Fields_ok.
  - unfold Fields at 1.
    replace (N ++ "."%char :: M ++ " "%char :: u ++ c :: v ++ " "%char :: P)
      with ((N ++ "."%char :: M) ++ " "%char :: (u ++ c :: v) ++ " "%char :: P)
      by assoc_eq.
    rewrite (fields_go_space (N ++ "."%char :: M) " "%char) by (done || lia).
    rewrite (fields_go_space (u ++ c :: v) " "%char P) by (done || lia).
    fold (Fields (N ++ "."%char :: M)) (Fields (u ++ c :: v)) (Fields P).
    rewrite (Fields_plain_word (N ++ _)), (Fields_plain_word P).
    + assert (Hne : Fields (u ++ c :: v) ≠ []).
      { destruct Hc as (H1 & H2 & _). unfold Fields.
        apply fields_go_nonempty; [done..|lia]. }
      cbn [app]. rewrite Join_cons by (by destruct (Fields (u ++ c :: v))).
      rewrite Join_snoc by done. assoc_eq.
    + by destruct HP.
    + destruct HP as [_ HP]. rewrite forallb_forall in HP. apply Forall_forall.
      intros x Hx%list_elem_of_In. by apply digit_plain, HP.
    + by destruct N.
    + rewrite forallb_forall in HN, HM. apply Forall_app. split.
      * apply Forall_forall. intros x Hx%list_elem_of_In. by apply digit_plain, HN.
      * constructor; [done|]. apply Forall_forall.
        intros x Hx%list_elem_of_In. by apply digit_plain, HM.
Qed.

End EntryLine.

Section DecimalFacts.
Variables N M t P : gostring.
Hypothesis N_digits : digits N.
Hypothesis M_digits : digits M.
Hypothesis t_title : title_ok t.
Hypothesis P_digits : digits P.

(** A normalised decimal entry line. *)
Definition decimalLine : gostring :=
  N ++ "."%char :: M ++ " "%char :: t ++ " "%char :: P.

Lemma digit_ne_letter d c : is_digit d = true → re_upper c = true → Ascii.eqb c d = false.
Proof using Type.
  intros Hd Hc. destruct (Ascii.eqb_spec c d) as [->|]; [|done].
  clear -Hd Hc. by_bytes d.
Qed.

Lemma decimalLine_head : ∃ d rest, decimalLine = d :: rest ∧ is_digit d = true.
Proof using N_digits.
  destruct (digits_head N N_digits) as (d & N' & E & Hd).
  unfold decimalLine. rewrite E. eexists _, _. split; [reflexivity|done].
Qed.

(** The appendix pattern, tried first, has no match on such a line. *)
Lemma decimal_not_appendix : FindStringSubmatch tocAppendixRe decimalLine = [].
Proof using N_digits.
  destruct decimalLine_head as (d & rest & -> & Hd).
  eapply search_anchored_none; [reflexivity|].
  unfold tocAppendixRe, startState. cbn [prog numSubexp].
  set (st0 := MState [] (d :: rest) (replicate 4 [])).
  rewrite run_Seq. apply bind_none. intros s1 Hs1.
  change (run Bol st0) with [st0] in Hs1. apply list_elem_of_singleton in Hs1 as ->.
  rewrite run_Seq. apply bind_none.
  intros s2 (k & Hk & ->)%elem_run_Star_class.
  cbn [after st0 span] in Hk. rewrite (digit_not_space _ Hd) in Hk.
  assert (k = 0) as -> by lia. rewrite advance_0.
  rewrite run_Seq, run_Alt. unfold st0. cbn [Lit str list_ascii_of_string].
  rewrite !run_Seq. unfold Byte. rewrite !run_Chr_cons.
  by rewrite !(digit_ne_letter d) by done.
Qed.

Lemma decimal_run :
  ∃ b, head (run (prog tocNumRe) (startState tocNumRe decimalLine))
       = Some (MState b [] [[]; N ++ "."%char :: M; t; P]).
Proof using All.
  eexists. unfold tocNumRe, startState. cbn [prog numSubexp].
  assert (E : decimalLine = (N ++ dotted [M]) ++ " "%char :: t ++ " "%char :: P).
  { unfold decimalLine. cbn [dotted map concat]. rewrite app_nil_r. assoc_eq. }
  assert (Hsp : span re_space decimalLine = 0).
  { destruct decimalLine_head as (d & rest & -> & Hd).
    simpl. by rewrite digit_not_space. }
  rewrite E in Hsp |- *.
  eapply head_run_Seq; [reflexivity|].
  eapply head_run_Seq.
  { by apply head_Star_none. }
  eapply head_run_Seq.
  { apply head_run_Group. rewrite <- app_assoc.
    apply (numToken_first N [M]); [done| |done]. constructor; [done|constructor]. }
  rewrite capture_app, entryTail_first by done.
  cbn [dotted map concat]. rewrite !app_nil_r. reflexivity.
Qed.

Lemma decimal_submatches :
  FindStringSubmatch tocNumRe decimalLine = [decimalLine; N ++ "."%char :: M; t; P].
Proof using All.
  destruct decimal_run as [b Hrun].
  destruct (search_found _ _ _ Hrun) as [-> _].
  unfold submatches, consumed, startState. cbn [fst snd after caps length].
  rewrite Nat.sub_0_r, firstn_all. reflexivity.
Qed.

Lemma Count_decimal : Count (N ++ "."%char :: M) (str ".") = 1.
Proof using N_digits M_digits.
  destruct N_digits as [_ HN], M_digits as [_ HM]. unfold Count.
  rewrite count_go_digits by done. cbn [count_go].
  change (HasPrefix ("."%char :: M) (str ".")) with true. cbn [length Nat.sub].
  rewrite <- (app_nil_r M), count_go_digits by done. done.
Qed.

Lemma matchToC_decimalLine :
  matchToC decimalLine
  = ({| eNumber := N ++ "."%char :: M;
        eTitle := TrimSpace t;
        ePage := Z.min (digits_val 0 P) GoInt.int_max;
        eDepth := 2 |}, true).
Proof using All.
  unfold matchToC. rewrite decimal_not_appendix. cbn [length Nat.eqb].
  rewrite decimal_submatches. cbn [length Nat.eqb sub nth].
  by rewrite Atoi_page, Count_decimal.
Qed.

End DecimalFacts.

(** The leader between title and page number: any sequence of literal
    dots, bullets, middle dots, ellipsis glyphs and blanks. *)
Inductive glyph : Type := LeaderDot | Bullet | MiddleDot | Ellipsis | Blank.

Definition glyphBytes (g : glyph) : gostring :=
  match g with
  | LeaderDot => str "."
  | Bullet => bullet
  | MiddleDot => middleDot
  | Ellipsis => ellipsis
  | Blank => str " "
  end.

Definition leaderOf (leader : list glyph) : gostring :=
  concat (map glyphBytes leader).

Definition plainb (c : ascii) : bool :=
  is_ascii c && negb (is_space_byte c) && negb (Ascii.eqb c ".").

(** A title holds at least one plain byte (a letter, say). *)
Definition hasPlain (title : gostring) : Prop := existsb plainb title = true.

Lemma hasPlain_split title :
  hasPlain title → ∃ u c v, title = u ++ c :: v ∧ plain c.
Proof.
  intros (c & Hin & Hc)%existsb_exists. apply in_split in Hin as (u & v & ->).
  exists u, c, v. split; [done|]. unfold plainb in Hc.
  apply andb_true_iff in Hc as [[H1 H2%negb_true_iff]%andb_true_iff H3%negb_true_iff].
  done.
Qed.

(** *** [TrimSpace] on single-spaced words *)

Section TrimWords.
Implicit Types (s f rest : gostring) (F : list gostring).

Lemma strip_word f rest :
  (∀ A B, f = A ++ B → space_width B = 0) →
  rest = [] ∨ (∃ c r, rest = c :: r ∧ is_ascii c = true) →
  strip_end (space_flags 0 (f ++ rest)) (f ++ rest)
  = f ++ strip_end (space_flags 0 rest) rest.
Proof.
  induction f as [|a f IH]; intros Hf Hrest; [done|].
  cbn [app space_flags].
  assert (Hw : space_width (a :: f ++ rest) = 0).
  { pose proof (Hf [] (a :: f) eq_refl) as H0.
    destruct Hrest as [->|(c & r & -> & Hc)]; [by rewrite app_nil_r|].
    change (a :: f ++ c :: r) with ((a :: f) ++ c :: r).
    by rewrite space_width_app_ascii. }
  rewrite Hw. cbn [strip_end].
  rewrite IH; [|intros A B ->; by apply (Hf (a :: A))|done].
  by destruct (f ++ strip_end (space_flags 0 rest) rest).
Qed.

Lemma Join_nonempty F : F ≠ [] → Forall field_ok F → Join F (str " ") ≠ [].
Proof.
  intros HF Hok. destruct Hok as [|f F [Hf _] _]; [done|].
  destruct f; [done|]. by destruct F.
Qed.

Lemma strip_words F :
  Forall field_ok F →
  strip_end (space_flags 0 (Join F (str " "))) (Join F (str " ")) = Join F (str " ").
Proof.
  induction 1 as [|f F [Hne Hf]%field_ok_spec HF IH]; [done|]. destruct F as [|g F].
  - pose proof (strip_word f [] Hf (or_introl eq_refl)) as H.
    rewrite !app_nil_r in H. exact H.
  - change (Join (f :: g :: F) (str " ")) with (f ++ " "%char :: Join (g :: F) (str " ")).
    rewrite strip_word; [|done|right; by eexists _, _]. f_equal.
    cbn [space_flags].
    change (space_width (" "%char :: Join (g :: F) (str " "))) with 1.
    cbn [strip_end]. rewrite IH.
    pose proof (Join_nonempty (g :: F) ltac:(done) HF) as HJ.
    by destruct (Join (g :: F) (str " ")).
Qed.

(** The normaliser leaves nothing for [TrimSpace] to remove. *)
Lemma TrimSpace_words F :
  Forall field_ok F → TrimSpace (Join F (str " ")) = Join F (str " ").
Proof.
  intros HF. unfold TrimSpace.
  assert (trimLeft_go 0 (Join F (str " ")) = Join F (str " ")) as ->; [|by apply strip_words].
  destruct HF as [|f F [Hne Hf]%field_ok_spec HF]; [done|].
  assert (Hw : space_width (Join (f :: F) (str " ")) = 0).
  { pose proof (Hf [] f eq_refl) as H0. destruct F as [|g F]; [done|].
    change (Join (f :: g :: F) (str " ")) with (f ++ " "%char :: Join (g :: F) (str " ")).
    by rewrite space_width_app_ascii. }
  destruct (Join (f :: F) (str " ")) as [|c t] eqn:E; [done|].
  cbn [trimLeft_go]. by rewrite Hw.
Qed.

End TrimWords.

(** ** The normaliser on a line between number token and page number *)

(** The seven replacements of [normalizeDotLeaders], before the fields are
    taken. *)
Definition replaced (s : gostring) : gostring :=
  let s := ReplaceAll s bullet (str " ") in
  let s := ReplaceAll s middleDot (str " ") in
  let s := ReplaceAll s ellipsis (str " ... ") in
  let s := ReplaceAll s middleDot (str " ") in
  let s := ReplaceAll s ellipsis (str " ... ") in
  let s := ReplaceAll s leaderDots (str " ") in
  ReplaceAll s (str " . . . ") (str " ").

Section BetweenFacts.
Implicit Types (N M P X A B s : gostring) (F : list gostring).

Lemma normalizeDotLeaders_replaced s :
  normalizeDotLeaders s = Join (Fields (replaced s)) (str " ").
Proof. reflexivity. Qed.

(** No occurrence of a pattern without digits reaches into the number
    token or into the page number. *)
Lemma replace_go_entry old new N M X P :
  forallb (λ c, negb (is_digit c)) old = true → 2 ≤ length old →
  (∃ n, new = " "%char :: n) → (∃ n, new = n ++ [" "%char]) →
  digits N → digits M → digits P →
  replace_go old new 0 (N ++ "."%char :: M ++ X ++ P)
  = N ++ "."%char :: M ++ replace_go old new 0 X ++ P.
Proof.
  intros H1 H2 H3 H4 [_ HN] HM HP.
  assert (Hold : old ≠ []) by (destruct old; [simpl in H2; lia|done]).
  destruct (digits_head M HM) as (m & M' & -> & Hm). destruct HM as [_ HM].
  destruct (digits_head P HP) as (d & P' & -> & Hd). destruct HP as [_ HP].
  rewrite (keep_digits old new) by done. f_equal. cbn [app].
  rewrite replace_go_nomatch by (by apply (HasPrefix_second_digit old new)).
  f_equal. change (m :: M' ++ X ++ d :: P') with ((m :: M') ++ X ++ d :: P').
  rewrite (keep_digits old new) by done. cbn [app]. do 2 f_equal.
  rewrite replace_go_sep by (done || lia || by apply (digit_not_in_old old new)).
  simpl in HP. apply andb_true_iff in HP as [_ HP].
  by rewrite (replace_digits_only old new H1 H2 H3 H4 P').
Qed.

Lemma replaced_entry N M X P :
  digits N → digits M → digits P →
  replaced (N ++ "."%char :: M ++ X ++ P) = N ++ "."%char :: M ++ replaced X ++ P.
Proof.
  intros HN HM HP. unfold replaced. rewrite !ReplaceAll_nonempty by literal_facts.
  do 7 (rewrite replace_go_entry;
        [|vm_compute; reflexivity|vm_compute; lia|by eexists|first [by exists []|by exists (str " ...")]|done..]).
  done.
Qed.

Lemma replaced_blanks X :
  head X = Some " "%char → last X = Some " "%char →
  head (replaced X) = Some " "%char ∧ last (replaced X) = Some " "%char.
Proof.
  intros H1 H2. unfold replaced. rewrite !ReplaceAll_nonempty by literal_facts.
  split; [by repeat apply replace_go_head_eq|by repeat apply replace_go_last_eq].
Qed.

Lemma Fields_blank A B : Fields (A ++ " "%char :: B) = Fields A ++ Fields B.
Proof. unfold Fields. by rewrite fields_go_space by (done || lia). Qed.

(** A text between two blanks has its own fields. *)
Lemma Fields_between A X B :
  head X = Some " "%char → last X = Some " "%char →
  Fields (A ++ X ++ B) = Fields A ++ Fields X ++ Fields B.
Proof.
  intros H1 H2. destruct X as [|x W]; [done|]. injection H1 as ->.
  destruct (decide (W = [])) as [->|HW].
  - cbn [app]. by rewrite Fields_blank.
  - destruct (exists_last HW) as (W' & z & ->).
    change (" "%char :: W' ++ [z]) with ((" "%char :: W') ++ [z]) in H2.
    rewrite last_snoc in H2. injection H2 as ->.
    replace (A ++ (" "%char :: W' ++ [" "%char]) ++ B)
      with (A ++ " "%char :: (W' ++ " "%char :: B))
      by (cbn [app]; by rewrite <- app_assoc).
    rewrite !Fields_blank.
    pose proof (Fields_blank [] (W' ++ [" "%char])) as E1. cbn [app] in E1.
    pose proof (Fields_blank W' []) as E2.
    rewrite E1, E2. cbn [app]. by rewrite app_nil_r.
Qed.

Lemma Fields_digits D : digits D → Fields D = [D].
Proof.
  intros [Hne HD]. apply Fields_plain_word; [done|].
  rewrite forallb_forall in HD. apply Forall_forall.
  intros x Hx%list_elem_of_In. by apply digit_plain, HD.
Qed.

Lemma Fields_token N M : digits N → digits M → Fields (N ++ "."%char :: M) = [N ++ "."%char :: M].
Proof.
  intros [HNe HN] [_ HM]. apply Fields_plain_word; [by destruct N|].
  rewrite forallb_forall in HN, HM. apply Forall_app. split.
  - apply Forall_forall. intros x Hx%list_elem_of_In. by apply digit_plain, HN.
  - constructor; [done|]. apply Forall_forall.
    intros x Hx%list_elem_of_In. by apply digit_plain, HM.
Qed.

(** The normaliser works on the text between number token and page number
    as it does on that text alone. *)
Lemma normalize_line N M X P :
  digits N → digits M → digits P →
  head X = Some " "%char → last X = Some " "%char →
  normalizeDotLeaders (N ++ "."%char :: M ++ X ++ P)
  = Join ((N ++ "."%char :: M) :: Fields (replaced X) ++ [P]) (str " ").
Proof.
  intros HN HM HP H1 H2. rewrite normalizeDotLeaders_replaced.
  rewrite replaced_entry by done. destruct (replaced_blanks X H1 H2) as [H1' H2'].
  replace (N ++ "."%char :: M ++ replaced X ++ P)
    with ((N ++ "."%char :: M) ++ replaced X ++ P) by (by rewrite <- app_assoc).
  rewrite Fields_between by done.
  by rewrite (Fields_token N M), (Fields_digits P) by done.
Qed.

Lemma matchToC_between N M X P :
  digits N → digits M → digits P →
  head X = Some " "%char → last X = Some " "%char →
  normalizeDotLeaders X ≠ [] →
  matchToC (normalizeDotLeaders (N ++ "."%char :: M ++ X ++ P))
  = ({| eNumber := N ++ "."%char :: M;
        eTitle := normalizeDotLeaders X;
        ePage := Z.min (digits_val 0 P) GoInt.int_max;
        eDepth := 2 |}, true).
Proof.
  intros HN HM HP H1 H2 Hrest. rewrite normalize_line by done.
  rewrite normalizeDotLeaders_replaced in Hrest |- *.
  set (F := Fields (replaced X)) in *.
  assert (HF : F ≠ []) by (by intros E; rewrite E in Hrest).
  assert (Hok : Forall field_ok F) by apply Fields_ok.
  rewrite Join_cons by (by destruct F). rewrite Join_snoc by done.
  replace ((N ++ "."%char :: M) ++ str " " ++ Join F (str " ") ++ str " " ++ P)
    with (decimalLine N M (Join F (str " ")) P)
    by (unfold decimalLine; by rewrite <- app_assoc).
  rewrite matchToC_decimalLine by (done || by apply Join_title_ok).
  by rewrite TrimSpace_words.
Qed.

End BetweenFacts.

(** What the normaliser puts for a glyph of the leader. *)
Definition glyphText (g : glyph) : gostring :=
  match g with
  | LeaderDot => str "."
  | Bullet | MiddleDot | Blank => str " "
  | Ellipsis => str " ... "
  end.

(** The leader sets the page number off: its last glyph is a blank or one
    the normaliser turns into blanks, not a literal dot. *)
Definition setsOff (leader : list glyph) : Prop :=
  match last leader with
  | Some LeaderDot | None => False
  | Some _ => True
  end.

Lemma leaderOf_snoc l g : leaderOf (l ++ [g]) = leaderOf l ++ glyphBytes g.
Proof. unfold leaderOf. by rewrite map_app, concat_app; cbn; rewrite app_nil_r. Qed.

Lemma normalize_glyph A g B :
  normalizeDotLeaders (A ++ glyphBytes g ++ B) = normalizeDotLeaders (A ++ glyphText g ++ B).
Proof.
  destruct g; [done|apply normalize_bullet|apply normalize_middleDot
              |apply normalize_ellipsis|done].
Qed.

Lemma setsOff_split leader :
  setsOff leader →
  ∃ l g W, leader = l ++ [g] ∧ glyphText g = W ++ [" "%char].
Proof.
  unfold setsOff. destruct (last leader) as [g|] eqn:E; [|done].
  apply last_Some in E as [l ->]. intros Hg. exists l, g.
  destruct g; [done|by exists []..|by exists (str " ...")|by exists []].
Qed.

(** Line and title part with the last glyph of the leader written as the
    normaliser reads it. *)
Lemma decimal_line_parts N M title P l g :
  normalizeDotLeaders (N ++ "."%char :: M ++ " "%char :: title ++ leaderOf (l ++ [g]) ++ P)
  = normalizeDotLeaders
      (N ++ "."%char :: M ++ (" "%char :: title ++ leaderOf l ++ glyphText g) ++ P)
  ∧ normalizeDotLeaders (" "%char :: title ++ leaderOf (l ++ [g]))
    = normalizeDotLeaders (" "%char :: title ++ leaderOf l ++ glyphText g).
Proof.
  rewrite leaderOf_snoc. split.
  - replace (N ++ "."%char :: M ++ " "%char :: title ++ (leaderOf l ++ glyphBytes g) ++ P)
      with ((N ++ "."%char :: M ++ " "%char :: title ++ leaderOf l) ++ glyphBytes g ++ P)
      by assoc_eq.
    rewrite normalize_glyph. f_equal. assoc_eq.
  - replace (" "%char :: title ++ leaderOf l ++ glyphBytes g)
      with ((" "%char :: title ++ leaderOf l) ++ glyphBytes g ++ [])
      by (rewrite app_nil_r; assoc_eq).
    rewrite normalize_glyph. f_equal. rewrite app_nil_r. assoc_eq.
Qed.

(** A plain byte of the title is left by the normaliser. *)
Lemma hasPlain_rest title Y :
  hasPlain title →
  normalizeDotLeaders (" "%char :: title ++ Y ++ [" "%char]) ≠ [].
Proof.
  intros (u & c & v & -> & Hc)%hasPlain_split Hnil.
  set (X := " "%char :: (u ++ c :: v) ++ Y ++ [" "%char]) in *.
  assert (Hd : digits (str "1")) by (split; vm_compute; congruence).
  assert (H1 : head X = Some " "%char) by done.
  assert (H2 : last X = Some " "%char).
  { unfold X. rewrite app_comm_cons, !app_assoc. apply last_snoc. }
  pose proof (normalize_line (str "1") (str "1") X (str "1") Hd Hd Hd H1 H2) as Hline.
  destruct (normalize_entry (str "1") (str "1") c (str "1")
              (str "1" ++ "."%char :: str "1" ++ X ++ str "1"))
    as (F & HF & Hok & E); [done..| |].
  { exists u, (v ++ Y). unfold X. assoc_eq. }
  rewrite normalizeDotLeaders_replaced in Hnil.
  assert (HX : Fields (replaced X) = []).
  { pose proof (Fields_ok (replaced X)) as Hw.
    destruct (Fields (replaced X)) as [|f F'] eqn:EF; [done|].
    by apply Join_nonempty in Hnil. }
  rewrite HX, E in Hline. apply (f_equal length) in Hline.
  pose proof (Join_title_ok F HF Hok) as (_ & Ht & _).
  destruct (Join F (str " ")) as [|a t]; [done|].
  rewrite !length_app in Hline. simpl in Hline. rewrite !length_app in Hline.
  simpl in Hline. lia.
Qed.

(** C5: on a line made of the number token [N.M], a blank, a title, a
    leader and the page number [PAGE] (one that fits Go's [int]), where the
    leader is any sequence of literal dots, bullets, middle dots, ellipsis
    glyphs and blanks that does not end with a literal dot, normaliser and
    matcher give the number token [N.M], the depth 2, the page number
    [PAGE] and for title the normalised text of title and leader, provided
    the normaliser leaves a word of that text; it does whenever the title
    holds an ASCII byte other than white space and the dot. *)
Theorem matchToC_decimal (N M title P : gostring) (leader : list glyph) :
  digits N →
  digits M →
  digits P →
  (digits_val 0 P ≤ GoInt.int_max)%Z →
  setsOff leader →
  let rest := normalizeDotLeaders (" "%char :: title ++ leaderOf leader) in
  (hasPlain title → rest ≠ [])
  ∧ (rest ≠ [] →
     matchToC (normalizeDotLeaders
                 (N ++ "."%char :: M ++ " "%char :: title ++ leaderOf leader ++ P))
     = ({| eNumber := N ++ "."%char :: M;
           eTitle := rest;
           ePage := digits_val 0 P;
           eDepth := 2 |}, true)).
Proof.
  intros HN HM HP Hfit (l & g & W & -> & HW)%setsOff_split. cbv zeta.
  destruct (decimal_line_parts N M title P l g) as [-> ->]. rewrite HW.
  split.
  - intros Hplain. rewrite (app_assoc (leaderOf l)). by apply hasPlain_rest.
  - intros Hrest. rewrite matchToC_between; [by rewrite Z.min_l|done..| |done].
    rewrite app_comm_cons, !app_assoc. apply last_snoc.
Qed.

Lemma matchToC_decimal_witness :
  matchToC (normalizeDotLeaders
              (str "1" ++ "."%char :: str "1" ++ " "%char :: str "General rules"
               ++ leaderOf [LeaderDot; LeaderDot; Bullet; MiddleDot; Ellipsis]
               ++ str "4"))
  = ({| eNumber := str "1" ++ "."%char :: str "1";
        eTitle := normalizeDotLeaders
                    (" "%char :: str "General rules"
                     ++ leaderOf [LeaderDot; LeaderDot; Bullet; MiddleDot; Ellipsis]);
        ePage := digits_val 0 (str "4");
        eDepth := 2 |}, true)
  ∧ matchToC (normalizeDotLeaders
                (str "2" ++ "."%char :: str "10" ++ " "%char :: bytes [227; 129; 130]
                 ++ leaderOf [Bullet; Bullet] ++ str "12"))
    = ({| eNumber := str "2" ++ "."%char :: str "10";
          eTitle := normalizeDotLeaders
                      (" "%char :: bytes [227; 129; 130] ++ leaderOf [Bullet; Bullet]);
          ePage := digits_val 0 (str "12");
          eDepth := 2 |}, true).
Proof.
  split.
  - destruct (matchToC_decimal (str "1") (str "1") (str "General rules") (str "4")
                [LeaderDot; LeaderDot; Bullet; MiddleDot; Ellipsis]) as [Hrest Hmatch].
    + split; vm_compute; congruence.
    + split; vm_compute; congruence.
    + split; vm_compute; congruence.
    + vm_compute. congruence.
    + exact I.
    + apply Hmatch, Hrest. vm_compute. reflexivity.
  - destruct (matchToC_decimal (str "2") (str "10") (bytes [227; 129; 130]) (str "12")
                [Bullet; Bullet]) as [_ Hmatch].
    + split; vm_compute; congruence.
    + split; vm_compute; congruence.
    + split; vm_compute; congruence.
    + vm_compute. congruence.
    + exact I.
    + apply Hmatch. vm_compute. congruence.
Defined.

(** C5 as the specification states it fails on a leader of literal dots
    that touches the page number: the line is not matched, while the same
    line with bullets or with ellipsis glyphs for leader is. *)
Lemma matchToC_decimal_counterexample :
  matchToC (normalizeDotLeaders (str "1.1 General rules........4")) = (noEntry, false)
  ∧ matchToC (normalizeDotLeaders (str "1.1 General rules" ++ bullet ++ bullet ++ str "4"))
    = ({| eNumber := str "1.1"; eTitle := str "General rules";
          ePage := 4; eDepth := 2 |}, true)
  ∧ matchToC (normalizeDotLeaders (str "1.1 General rules" ++ ellipsis ++ str "4"))
    = ({| eNumber := str "1.1"; eTitle := str "General rules ...";
          ePage := 4; eDepth := 2 |}, true).
Proof. split_and!; vm_compute; reflexivity. Qed.

(** The three leader styles of the specification on its own example. *)
Example matchToC_leader_styles :
  matchToC (normalizeDotLeaders (str "1.1 General rules ........ 4"))
    = ({| eNumber := str "1.1"; eTitle := str "General rules ........";
          ePage := 4; eDepth := 2 |}, true)
  ∧ matchToC (normalizeDotLeaders
                (str "1.1 General rules " ++ bullet ++ bullet ++ middleDot ++ str " 4"))
    = ({| eNumber := str "1.1"; eTitle := str "General rules";
          ePage := 4; eDepth := 2 |}, true)
  ∧ matchToC (normalizeDotLeaders
                (str "1.1 General rules" ++ ellipsis ++ ellipsis ++ str " 4"))
    = ({| eNumber := str "1.1"; eTitle := str "General rules ... ...";
          ePage := 4; eDepth := 2 |}, true).
Proof. split_and!; vm_compute; reflexivity. Qed.

(** * The rest of the pipeline

    What the matcher returns on every line, what [parseToCLines] makes of
    it and what the later stages can rely on. *)

(** ** Invariants of the matcher *)

Section RunInvariants.
Implicit Types (r : regex) (st : mstate) (g : bool).

(** A relation between a state and the states a search reaches from it:
    kept by every step, it is kept by every expression. *)
Variable R : mstate → mstate → Prop.
Hypothesis R_refl : ∀ st, R st st.
Hypothesis R_trans : ∀ st1 st2 st3, R st1 st2 → R st2 st3 → R st1 st3.
Hypothesis R_byte : ∀ b c s cs, R (MState b (c :: s) cs) (MState (c :: b) s cs).
Hypothesis R_capture : ∀ i st st', R st st' → R st (capture i st st').

Lemma star_go_rel (step : mstate → list mstate) g fuel st st' :
  (∀ x y, y ∈ step x → R x y) →
  st' ∈ star_go step g fuel st → R st st'.
Proof using R_refl R_trans.
  intros Hstep. revert st. induction fuel as [|f IH]; intros st; cbn [star_go].
  - by intros ->%list_elem_of_singleton.
  - assert (Hmore : st' ∈ (step st ≫= λ m,
        if (length (after m) <? length (after st))%nat
        then star_go step g f m else []) → R st st').
    { intros (m & Hin & Hm)%list_elem_of_bind.
      destruct (length (after m) <? length (after st))%nat;
        [|by apply elem_of_nil in Hin].
      eapply R_trans; [by apply Hstep|by apply IH]. }
    destruct g.
    + intros [?| ->%list_elem_of_singleton]%elem_of_app; [by apply Hmore|done].
    + intros [->|?]%elem_of_cons; [done|by apply Hmore].
Qed.

Lemma run_rel r st st' : st' ∈ run r st → R st st'.
Proof using All.
  revert st st'. induction r as [|p|r1 IH1 r2 IH2|r1 IH1 r2 IH2|g r IH|i r IH| | |];
    intros st st'; cbn [run].
  - by intros ->%list_elem_of_singleton.
  - destruct st as [b [|c s] cs]; cbn [after]; [by intros ?%elem_of_nil|].
    destruct (p c); [|by intros ?%elem_of_nil].
    intros ->%list_elem_of_singleton. apply R_byte.
  - intros (m & Hin & Hm)%list_elem_of_bind. eapply R_trans; [by apply IH1|by apply IH2].
  - intros [?|?]%elem_of_app; [by apply IH1|by apply IH2].
  - apply star_go_rel. intros x y. apply IH.
  - intros (m & -> & Hm)%list_elem_of_fmap. apply (R_capture i), IH, Hm.
  - destruct (before st); [|by intros ?%elem_of_nil]. by intros ->%list_elem_of_singleton.
  - destruct (after st); [|by intros ?%elem_of_nil]. by intros ->%list_elem_of_singleton.
  - destruct (xorb _ _); [|by intros ?%elem_of_nil]. by intros ->%list_elem_of_singleton.
Qed.

End RunInvariants.

(** The number of submatch slots never changes. *)
Lemma run_caps_length r st st' :
  st' ∈ run r st → length (caps st') = length (caps st).
Proof.
  apply (run_rel (λ x y, length (caps y) = length (caps x))); try done.
  - intros x y z Hxy Hyz. by rewrite Hyz.
  - intros i x y Hxy. unfold capture. cbn [caps]. by rewrite length_insert.
Qed.

Lemma search_elem re b a found :
  search re b a = Some found →
  found.2 ∈ run (prog re) found.1
  ∧ caps found.1 = replicate (S (numSubexp re)) [].
Proof.
  revert b. induction a as [|c a IH]; intros b; rewrite search_unfold.
  - destruct (run (prog re) (MState b [] _)) as [|st' l] eqn:Hrun; [done|].
    intros [= <-]. split; [|done].
    pose proof (list_elem_of_here st' l) as Hin. rewrite <- Hrun in Hin. exact Hin.
  - destruct (run (prog re) (MState b (c :: a) _)) as [|st' l] eqn:Hrun; [apply IH|].
    intros [= <-]. split; [|done].
    pose proof (list_elem_of_here st' l) as Hin. rewrite <- Hrun in Hin. exact Hin.
Qed.

(** [FindStringSubmatch] returns either nothing or one string for the
    match and one for each group. *)
Lemma FindStringSubmatch_length re s :
  length (FindStringSubmatch re s)
  = if MatchString re s then S (numSubexp re) else 0.
Proof.
  unfold FindStringSubmatch, MatchString.
  destruct (search re [] s) as [found|] eqn:Hs; [|done].
  apply search_elem in Hs as [Hin Hcaps]. apply run_caps_length in Hin.
  unfold submatches. rewrite length_insert, Hin, Hcaps. by rewrite length_replicate.
Qed.

Lemma matchToC_ok line :
  (matchToC line).2
  = MatchString tocAppendixRe line || MatchString tocNumRe line
    || MatchString tocAlphaRe line || MatchString tocRomanRe line.
Proof.
  unfold matchToC. rewrite !FindStringSubmatch_length.
  destruct (MatchString tocAppendixRe line); [done|].
  destruct (MatchString tocNumRe line); [done|].
  destruct (MatchString tocAlphaRe line); [done|].
  destruct (MatchString tocRomanRe line); [|done].
  cbn [numSubexp tocRomanRe Nat.eqb orb]. by case_match.
Qed.

(** ** The page number and the depth of an entry *)

Lemma digits_val_ge acc s : (0 ≤ acc)%Z → forallb is_digit s = true → (acc ≤ digits_val acc s)%Z.
Proof.
  revert acc. induction s as [|c s IH]; intros acc Hacc; simpl; [lia|].
  intros [Hc Hs]%andb_true_iff.
  assert (0 ≤ digit_val c)%Z.
  { unfold is_digit in Hc. apply andb_true_iff in Hc as [Hc _].
    apply Nat.leb_le in Hc. unfold digit_val. lia. }
  specialize (IH (10 * acc + digit_val c)%Z ltac:(lia) Hs). lia.
Qed.

Lemma Atoi_page_ok d :
  digits d → (0 ≤ (Atoi d).1 ≤ GoInt.int_max)%Z.
Proof.
  intros Hd. rewrite Atoi_page by done. destruct Hd as [_ Hd].
  pose proof (digits_val_ge 0 d ltac:(lia) Hd). unfold GoInt.int_max. lia.
Qed.

Lemma take_span p k s : k ≤ span p s → forallb p (take k s) = true.
Proof.
  revert k. induction s as [|c s IH]; intros [|k]; simpl; try done.
  destruct (p c); [|lia]. intros Hk. simpl. apply IH. lia.
Qed.

Lemma span_length p s : span p s ≤ length s.
Proof. induction s as [|c s IH]; simpl; [done|]. destruct (p c); lia. Qed.

Lemma consumed_advance k st :
  k ≤ length (after st) → consumed st (advance k st) = take k (after st).
Proof.
  intros Hk. unfold consumed. rewrite after_advance, length_drop. f_equal. lia.
Qed.

(** Whatever [entryTail] matches, its second group holds a run of
    digits. *)
Lemma entryTail_page g st st' :
  S g < length (caps st) → st' ∈ run (entryTail g) st →
  ∃ d, caps st' !! S g = Some d ∧ digits d.
Proof.
  intros Hlen. unfold entryTail. rewrite run_Seq.
  intros (m1 & Hin & H1)%list_elem_of_bind. rewrite run_Seq in Hin.
  apply list_elem_of_bind in Hin as (m2 & Hin & H2). rewrite run_Seq in Hin.
  apply list_elem_of_bind in Hin as (m3 & Hin & H3). rewrite run_Seq in Hin.
  apply list_elem_of_bind in Hin as (m4 & Hin & H4). rewrite run_Seq in Hin.
  apply list_elem_of_bind in Hin as (m5 & Hin & H5).
  apply run_caps_length in H1, H2, H3.
  rewrite run_Group in H4. apply list_elem_of_fmap in H4 as (m & -> & Hm).
  apply elem_run_Plus_class in Hm as (k & Hk & ->).
  apply elem_run_Star_class in H5 as (j & _ & ->).
  assert (st' = advance j (capture (S g) m3 (advance k m3))) as ->.
  { cbn [run] in Hin. destruct (after _); [|by apply elem_of_nil in Hin].
    by apply list_elem_of_singleton in Hin. }
  pose proof (span_length is_digit (after m3)).
  exists (take k (after m3)). split.
  - cbn [advance capture caps]. rewrite consumed_advance by lia.
    apply list_lookup_insert_eq. cbn [advance caps]. lia.
  - split; [|apply take_span; lia].
    destruct (after m3); [simpl in *; lia|]. destruct k; [lia|done].
Qed.

Inductive endsWith (g : nat) : regex → Prop :=
| ends_here : endsWith g (entryTail g)
| ends_seq r1 r2 : endsWith g r2 → endsWith g (Seq r1 r2).

Lemma endsWith_page g r st st' :
  endsWith g r → S g < length (caps st) → st' ∈ run r st →
  ∃ d, caps st' !! S g = Some d ∧ digits d.
Proof.
  intros Hr. revert st. induction Hr as [|r1 r2 _ IH]; intros st Hlen.
  - by apply entryTail_page.
  - rewrite run_Seq. intros (m & Hin & Hm)%list_elem_of_bind.
    apply (IH m); [|done]. apply run_caps_length in Hm. lia.
Qed.

(** The page group of each of the four entry patterns. *)
Lemma page_group re g s :
  endsWith g (prog re) → S g = numSubexp re →
  MatchString re s = true →
  digits (sub (FindStringSubmatch re s) (S g)).
Proof.
  intros Hends Hg. unfold MatchString, FindStringSubmatch.
  destruct (search re [] s) as [found|] eqn:Hs; [intros _|done].
  apply search_elem in Hs as [Hin Hcaps].
  destruct (endsWith_page g _ found.1 found.2 Hends) as (d & Hd & Hok); [|done|].
  { rewrite Hcaps, length_replicate. lia. }
  unfold submatches, sub. erewrite nth_lookup_Some; [done|].
  by rewrite list_lookup_insert_ne.
Qed.

Ltac ends_with := first [exact (ends_here _) | apply ends_seq; ends_with].

Lemma matchToC_entry_facts line :
  match matchToC line with
  | (e, true) => page_ok e ∧ (1 ≤ eDepth e)%Z
  | (e, false) => e = noEntry
  end.
Proof.
  unfold matchToC. rewrite !FindStringSubmatch_length.
  destruct (MatchString tocAppendixRe line) eqn:Happ.
  { cbn [numSubexp tocAppendixRe Nat.eqb]. unfold page_ok. cbn [ePage eDepth].
    split; [|lia]. apply Atoi_page_ok.
    apply (page_group tocAppendixRe 2); [unfold tocAppendixRe; cbn [prog]; ends_with|done..]. }
  destruct (MatchString tocNumRe line) eqn:Hnum.
  { cbn [numSubexp tocNumRe Nat.eqb]. unfold page_ok. cbn [ePage eDepth].
    split; [|lia]. apply Atoi_page_ok.
    apply (page_group tocNumRe 2); [unfold tocNumRe; cbn [prog]; ends_with|done..]. }
  destruct (MatchString tocAlphaRe line) eqn:Halpha.
  { cbn [numSubexp tocAlphaRe Nat.eqb]. unfold page_ok. cbn [ePage eDepth].
    split; [|lia]. apply Atoi_page_ok.
    apply (page_group tocAlphaRe 2); [unfold tocAlphaRe; cbn [prog]; ends_with|done..]. }
  destruct (MatchString tocRomanRe line) eqn:Hroman; [|done].
  cbn [numSubexp tocRomanRe Nat.eqb].
  assert (Hp : digits (sub (FindStringSubmatch tocRomanRe line) 4)).
  { apply (page_group tocRomanRe 3); [unfold tocRomanRe; cbn [prog]; ends_with|done..]. }
  apply Atoi_page_ok in Hp.
  destruct (sub (FindStringSubmatch tocRomanRe line) 2); unfold page_ok; cbn [ePage eDepth]; lia.
Qed.

(** X1: an entry the matcher returns has a page number between 0 and the
    largest [int] and a depth of at least 1; without a match it returns the
    zero entry. *)
Theorem matchToC_entry_ok line :
  match matchToC line with
  | (e, true) => page_ok e ∧ (1 ≤ eDepth e)%Z
  | (e, false) => e = noEntry
  end.
Proof. apply matchToC_entry_facts. Qed.

(** ** [parseToCLines] *)

(** The entry of a raw line, when it has one. *)
Definition entryOf (line : gostring) : option tocEntry :=
  let '(e, ok) := matchToC (normalizeDotLeaders line) in
  if ok then Some e else None.

Lemma parse_loop lines acc :
  foldl (λ out line,
           let '(e, ok) := matchToC (normalizeDotLeaders line) in
           if ok then out ++ [e] else out) acc lines
  = acc ++ omap entryOf lines.
Proof.
  revert acc. induction lines as [|l lines IH]; intros acc; simpl.
  - by rewrite app_nil_r.
  - rewrite IH. unfold entryOf at 2.
    destruct (matchToC (normalizeDotLeaders l)) as [e [|]]; [|done].
    by rewrite <- app_assoc.
Qed.

Definition pageLe (e e' : tocEntry) : Prop := (ePage e ≤ ePage e')%Z.

Lemma insertByPage_perm e l : insertByPage e l ≡ₚ e :: l.
Proof.
  induction l as [|x l IH]; simpl; [done|].
  destruct (ePage e <? ePage x)%Z; [done|]. rewrite IH. apply Permutation_swap.
Qed.

Lemma insertByPage_sorted e l :
  StronglySorted pageLe l → StronglySorted pageLe (insertByPage e l).
Proof.
  induction 1 as [|x l Hl IH Hx]; simpl; [by repeat constructor|].
  destruct (Z.ltb_spec (ePage e) (ePage x)).
  - constructor; [by constructor|]. constructor; [unfold pageLe; lia|].
    eapply Forall_impl; [exact Hx|]. unfold pageLe. intros; lia.
  - constructor; [done|]. rewrite insertByPage_perm. by constructor.
Qed.

Lemma filter_none {A} (P : A → Prop) `{∀ x, Decision (P x)} (l : list A) :
  Forall (λ x, ¬ P x) l → filter P l = [].
Proof.
  induction 1 as [|x l Hx _ IH]; [done|]. by rewrite filter_cons, decide_False.
Qed.

(** Among the entries of one page the order of insertion is kept. *)
Lemma insertByPage_stable p e l :
  StronglySorted pageLe l →
  filter (λ x, ePage x = p) (insertByPage e l)
  = filter (λ x, ePage x = p) l ++ filter (λ x, ePage x = p) [e].
Proof.
  induction 1 as [|x l Hl IH Hx]; cbn [insertByPage]; [done|].
  destruct (Z.ltb_spec (ePage e) (ePage x)).
  - rewrite !filter_cons, filter_nil.
    destruct (decide (ePage e = p)) as [He|He]; [|by rewrite app_nil_r].
    rewrite decide_False by lia.
    rewrite (filter_none _ l); [done|].
    eapply Forall_impl; [exact Hx|]. unfold pageLe. simpl. intros; lia.
  - rewrite !filter_cons, IH. by destruct (decide (ePage x = p)).
Qed.

Lemma sortByPage_spec out acc :
  StronglySorted pageLe acc →
  let r := foldl (λ sorted e, insertByPage e sorted) acc out in
  StronglySorted pageLe r
  ∧ r ≡ₚ acc ++ out
  ∧ ∀ p, filter (λ x, ePage x = p) r = filter (λ x, ePage x = p) (acc ++ out).
Proof.
  revert acc. induction out as [|e out IH]; intros acc Hacc; cbn [foldl].
  - rewrite app_nil_r. done.
  - destruct (IH (insertByPage e acc)) as (Hs & Hp & Hf); [by apply insertByPage_sorted|].
    split_and!; [done| |].
    + rewrite Hp, insertByPage_perm. simpl. apply Permutation_middle.
    + intros p. rewrite Hf, !filter_app, insertByPage_stable by done.
      change (e :: out) with ([e] ++ out). by rewrite filter_app, app_assoc.
Qed.

Lemma StronglySorted_adjacent l i e e' :
  StronglySorted pageLe l → l !! i = Some e → l !! (i + 1) = Some e' → pageLe e e'.
Proof.
  intros Hl. revert i. induction Hl as [|x l Hl IH Hx]; intros i; [done|].
  destruct i as [|i]; simpl.
  - intros [= ->] He'. rewrite Forall_forall in Hx. apply Hx.
    by eapply list_elem_of_lookup_2.
  - apply IH.
Qed.

Lemma parseToCLines_spec lines :
  sortedByPage (parseToCLines lines)
  ∧ parseToCLines lines ≡ₚ omap entryOf lines
  ∧ (∀ p, filter (λ e, ePage e = p) (parseToCLines lines)
          = filter (λ e, ePage e = p) (omap entryOf lines))
  ∧ Forall (λ e, page_ok e ∧ (1 ≤ eDepth e)%Z) (parseToCLines lines).
Proof.
  unfold parseToCLines, sortByPage. rewrite parse_loop. cbn [app].
  destruct (sortByPage_spec (omap entryOf lines) []) as (Hs & Hp & Hf);
    [constructor|]. cbn [app] in Hp, Hf.
  split_and!; [|done|done|].
  - intros i e e' He He'. exact (StronglySorted_adjacent _ _ _ _ Hs He He').
  - rewrite Hp. apply Forall_forall. intros e (l & _ & He)%list_elem_of_omap.
    unfold entryOf in He. pose proof (matchToC_entry_facts (normalizeDotLeaders l)) as Hok.
    destruct (matchToC (normalizeDotLeaders l)) as [e0 [|]]; [|done].
    by injection He as <-.
Qed.

(** X2: [parseToCLines] returns the entries of the lines that have one,
    ordered by page; entries of the same page keep the order of the lines;
    every page number lies between 0 and the largest [int] and every depth
    is at least 1. *)
Theorem parseToCLines_sorted lines :
  sortedByPage (parseToCLines lines)
  ∧ parseToCLines lines ≡ₚ omap entryOf lines
  ∧ (∀ p, filter (λ e, ePage e = p) (parseToCLines lines)
          = filter (λ e, ePage e = p) (omap entryOf lines))
  ∧ Forall (λ e, page_ok e ∧ (1 ≤ eDepth e)%Z) (parseToCLines lines).
Proof. apply parseToCLines_spec. Qed.

Lemma isToCLine_agree l : isToCLine l = (matchToC (normalizeDotLeaders l)).2.
Proof. unfold isToCLine. by rewrite matchToC_ok. Qed.

Lemma parseToCLines_length lines :
  length (parseToCLines lines) = length (filter (λ l, isToCLine l = true) lines).
Proof.
  destruct (parseToCLines_spec lines) as (_ & Hp & _). rewrite Hp. clear Hp.
  induction lines as [|l lines IH]; [done|].
  cbn [omap list_omap]. fold (omap entryOf lines). rewrite filter_cons.
  destruct (decide (isToCLine l = true)) as [Hl|Hl]; rewrite isToCLine_agree in Hl;
    unfold entryOf at 1;
    destruct (matchToC (normalizeDotLeaders l)) as [e [|]]; simpl in *;
    try done; try congruence; by rewrite IH.
Qed.

(** X3: the line test of the locator and the matcher agree: [isToCLine]
    holds of a line exactly when [matchToC] finds an entry in the normalised
    line, so [parseToCLines] returns one entry for each line that passes
    the test. *)
Theorem isToCLine_matchToC (s : gostring) (lines : list gostring) :
  isToCLine s = (matchToC (normalizeDotLeaders s)).2
  ∧ length (parseToCLines lines) = length (filter (λ l, isToCLine l = true) lines).
Proof. split; [apply isToCLine_agree|apply parseToCLines_length]. Qed.

Lemma StronglySorted_filter {A} (R : A → A → Prop) (P : A → Prop)
    `{∀ x, Decision (P x)} (l : list A) :
  StronglySorted R l → StronglySorted R (filter P l).
Proof.
  induction 1 as [|x l Hl IH Hx]; [constructor|]. rewrite filter_cons.
  destruct (decide (P x)); [|done]. constructor; [done|].
  apply Forall_forall. intros y [_ Hy]%list_elem_of_filter.
  rewrite Forall_forall in Hx. by apply Hx.
Qed.

(** X4: on the entries [parseToCLines] returns, for every depth cutoff,
    the sections [buildSections] makes start in ascending page order, none
    ends before it starts, all have depth at least 1 and no children, and
    [buildHierarchy] does not panic on them: it returns what
    [attachChildren] makes of them. *)
Theorem toc_sections_ok (lines : list gostring) (maxDepth : Z) :
  let sections := buildSections (parseToCLines lines) maxDepth in
  buildHierarchy sections = Some (attachChildren sections)
  ∧ Forall (λ s, (Start s ≤ EndPage s)%Z ∧ (1 ≤ Depth s)%Z ∧ Children s = []) sections
  ∧ ∀ i s s', sections !! i = Some s → sections !! (i + 1) = Some s' →
      (Start s ≤ Start s')%Z.
Proof.
  intros sections.
  destruct (parseToCLines_spec lines) as (_ & Hperm & _ & Hok).
  assert (Hpages : Forall page_ok (parseToCLines lines))
    by (eapply Forall_impl; [exact Hok|]; by intros e [? _]).
  assert (Hall : Forall (λ s, (Start s ≤ EndPage s)%Z ∧ (1 ≤ Depth s)%Z ∧ Children s = [])
                   sections).
  { unfold sections. rewrite buildSections_spec by done.
    apply Forall_forall. intros s ([i e] & Hin & Hs)%list_elem_of_omap.
    apply elem_of_lookup_imap in Hin as (j & e0 & [= -> ->] & Hj).
    unfold claimedSection in Hs. case_decide; [|done]. injection Hs as <-.
    cbn [Start EndPage Depth Children]. split_and!; [apply claimedEnd_ge| |done].
    rewrite Forall_forall in Hok. by apply Hok, (list_elem_of_lookup_2 _ j). }
  split_and!; [|done|].
  - apply buildHierarchy_attachChildren. eapply Forall_impl; [exact Hall|].
    by intros s (_ & ? & _).
  - intros i s s' Hs Hs'.
    assert (Hkeys : map sectionKey sections
                    = map entryKey (filter (λ e, (eDepth e ≤ if (maxDepth <=? 0)%Z then 10 else maxDepth)%Z)
                                      (parseToCLines lines))).
    { unfold sections, buildSections. by rewrite buildLoop_keys. }
    assert (Hsorted : StronglySorted pageLe
              (filter (λ e, (eDepth e ≤ if (maxDepth <=? 0)%Z then 10 else maxDepth)%Z)
                 (parseToCLines lines))).
    { apply StronglySorted_filter. unfold parseToCLines, sortByPage.
      by apply (sortByPage_spec _ []); constructor. }
    set (F := filter _ _) in Hkeys, Hsorted.
    assert (Hi : map sectionKey sections !! i = Some (sectionKey s))
      by (by rewrite list_lookup_fmap, Hs).
    assert (Hi' : map sectionKey sections !! (i + 1) = Some (sectionKey s'))
      by (by rewrite list_lookup_fmap, Hs').
    rewrite Hkeys, list_lookup_fmap in Hi, Hi'.
    destruct (F !! i) as [e|] eqn:He; [|done].
    destruct (F !! (i + 1)) as [e'|] eqn:He'; [|done].
    injection Hi as _ _ Hstart _. injection Hi' as _ _ Hstart' _.
    pose proof (StronglySorted_adjacent _ _ _ _ Hsorted He He') as Hle.
    unfold pageLe in Hle. lia.
Qed.

(** ** The hierarchy builder on every input *)

Lemma trimStack_nonpos stack depth : (depth ≤ 0)%Z → trimStack stack depth = None.
Proof.
  intros Hd. induction stack as [|i stack IH]; cbn [trimStack].
  - by destruct (Z.geb_spec (Z.of_nat (length (@nil nat))) depth); [|simpl in *; lia].
  - by destruct (Z.geb_spec (Z.of_nat (length (i :: stack))) depth); [|lia].
Qed.

Lemma stackLoop_nonpos sections st :
  Exists (λ s, (Depth s ≤ 0)%Z) sections → stackLoop st sections = None.
Proof.
  intros Hex. revert st. induction Hex as [s rest Hs|s rest _ IH]; intros st;
    cbn [stackLoop].
  - unfold stackStep. by rewrite trimStack_nonpos.
  - destruct (stackStep st s) as [st'|]; [apply IH|done].
Qed.

(** X5: [buildHierarchy] panics (a slice bound out of range in its stack
    pass) exactly when some section has a depth of 0 or less; otherwise it
    returns the result of [attachChildren]. *)
Theorem buildHierarchy_panic sections :
  (buildHierarchy sections = None ↔ Exists (λ s, (Depth s ≤ 0)%Z) sections)
  ∧ (buildHierarchy sections ≠ None →
     buildHierarchy sections = Some (attachChildren sections)).
Proof.
  assert (Hiff : buildHierarchy sections = None ↔ Exists (λ s, (Depth s ≤ 0)%Z) sections).
  { split.
    - intros Hnone. apply not_Forall_Exists; [intros s; apply _|].
      intros Hall. rewrite buildHierarchy_attachChildren in Hnone; [done|].
      eapply Forall_impl; [exact Hall|]. intros s Hn. simpl in Hn.
      apply Z.compare_gt_iff in Hn. lia.
    - intros Hex. unfold buildHierarchy. by rewrite stackLoop_nonpos. }
  split; [done|]. intros Hsome. apply buildHierarchy_attachChildren.
  apply Forall_forall. intros s Hs.
  destruct (Z.le_gt_cases (Depth s) 0); [|lia].
  destruct Hsome. apply Hiff, Exists_exists. by exists s.
Qed.

(** *** What [attachChildren] computes *)

(** The sections among the first [t] whose backward scan stops at index
    [k], and those for which it finds nothing. *)
Definition attachedTo (flat : list SectionT) (t k : nat) : list SectionT :=
  omap (λ '(j, c), if decide (scanBack flat c j = Some k) then Some c else None)
       (imap pair (take t flat)).

Definition parentless (flat : list SectionT) (t : nat) : list SectionT :=
  omap (λ '(j, c), match scanBack flat c j with None => Some c | Some _ => None end)
       (imap pair (take t flat)).

Lemma withChildren_id n : withChildren n (Children n) = n.
Proof. by destruct n. Qed.

Lemma imap_take_S {A} (l : list A) t x :
  l !! t = Some x → imap pair (take (S t) l) = imap pair (take t l) ++ [(t, x)].
Proof.
  intros Hx. rewrite (take_S_r _ _ _ Hx), imap_app. cbn [imap].
  rewrite length_take_le by (apply lookup_lt_Some in Hx; lia).
  by rewrite Nat.add_0_r.
Qed.

Lemma attachedTo_S flat t k s :
  flat !! t = Some s →
  attachedTo flat (S t) k
  = attachedTo flat t k ++ (if decide (scanBack flat s t = Some k) then [s] else []).
Proof.
  intros Hs. unfold attachedTo. rewrite (imap_take_S _ _ _ Hs), omap_app.
  f_equal. cbn [omap list_omap]. by destruct (decide _).
Qed.

Lemma parentless_S flat t s :
  flat !! t = Some s →
  parentless flat (S t)
  = parentless flat t ++ match scanBack flat s t with None => [s] | Some _ => [] end.
Proof.
  intros Hs. unfold parentless. rewrite (imap_take_S _ _ _ Hs), omap_app.
  f_equal. cbn [omap list_omap]. by destruct (scanBack flat s t).
Qed.

(** Nothing is attached to a section before its own turn. *)
Lemma attachedTo_early flat t k : t ≤ k → attachedTo flat t k = [].
Proof.
  intros Hk. unfold attachedTo.
  assert (Hall : Forall (λ jc : nat * SectionT, jc.1 < t) (imap pair (take t flat))).
  { apply Forall_forall. intros [j c] (i & y & [= -> ->] & Hi)%elem_of_lookup_imap.
    apply lookup_lt_Some in Hi. rewrite length_take in Hi. simpl. lia. }
  induction Hall as [|[j c] l Hj _ IH]; [done|]. cbn [omap list_omap].
  destruct (decide (scanBack flat c j = Some k)) as [Hscan|_]; [|exact IH].
  apply scanBack_lt in Hscan. simpl in Hj. lia.
Qed.

(** The scan looks at depths and numbers only. *)
Lemma scanBack_ext nodes nodes' s j :
  (∀ k, (λ n, (Depth n, Number n)) <$> nodes !! k
        = (λ n, (Depth n, Number n)) <$> nodes' !! k) →
  scanBack nodes s j = scanBack nodes' s j.
Proof.
  intros Hext. induction j as [|j IH]; [done|]. cbn [scanBack].
  specialize (Hext j).
  destruct (nodes !! j) as [n|], (nodes' !! j) as [n'|]; simpl in Hext; try done.
  injection Hext as Hd Hn. by rewrite Hd, Hn, IH.
Qed.

(** The state of the loop of [attachChildren] after [t] turns. *)
Lemma attachLoop_spec flat t :
  t ≤ length flat →
  ∃ nodes,
    foldl attachStep (flat, []) (seq 0 t) = (nodes, parentless flat t)
    ∧ length nodes = length flat
    ∧ ∀ k n, flat !! k = Some n →
        nodes !! k = Some (withChildren n (Children n ++ attachedTo flat t k)).
Proof.
  induction t as [|t IH]; intros Ht.
  - exists flat. split_and!; [done..|]. intros k n Hn.
    by rewrite attachedTo_early, app_nil_r, withChildren_id by lia.
  - destruct IH as (nodes & Hfold & Hlen & Hnodes); [lia|].
    rewrite seq_S, foldl_app, Hfold. cbn [foldl Nat.add attachStep].
    destruct (lookup_lt_is_Some_2 flat t) as [s Hs]; [lia|].
    rewrite (Hnodes _ _ Hs), attachedTo_early, app_nil_r, withChildren_id by lia.
    assert (Hscan : scanBack nodes s t = scanBack flat s t).
    { apply scanBack_ext. intros k. destruct (flat !! k) as [n|] eqn:Hn.
      - by rewrite (Hnodes _ _ Hn).
      - apply lookup_ge_None in Hn. rewrite lookup_ge_None_2 by lia. done. }
    rewrite Hscan, (parentless_S _ _ _ Hs).
    destruct (scanBack flat s t) as [p|] eqn:Hp.
    + pose proof (scanBack_lt _ _ _ _ Hp) as Hlt.
      destruct (lookup_lt_is_Some_2 flat p) as [fp Hfp]; [lia|].
      rewrite (Hnodes _ _ Hfp). eexists. split_and!.
      * by rewrite app_nil_r.
      * by rewrite length_insert.
      * intros k n Hn. rewrite (attachedTo_S _ _ _ _ Hs).
        destruct (decide (p = k)) as [->|Hne].
        -- rewrite list_lookup_insert_eq by (rewrite Hlen; by eapply lookup_lt_Some).
           rewrite decide_True by done. simplify_eq. unfold withChildren. simpl.
           by rewrite app_assoc.
        -- rewrite list_lookup_insert_ne by done.
           rewrite decide_False by congruence. rewrite app_nil_r. by apply Hnodes.
    + exists nodes. split_and!; [done..|]. intros k n Hn.
      rewrite (attachedTo_S _ _ _ _ Hs), decide_False by congruence.
      rewrite app_nil_r. by apply Hnodes.
Qed.

Lemma byNumberOf_fold_key (nodes : list SectionT) (m : gmap gostring SectionT) k v :
  (∀ k' v', m !! k' = Some v' → Number v' = k') →
  foldl (λ byNumber n, <[Number n := n]> byNumber) m nodes !! k = Some v →
  Number v = k.
Proof.
  revert m. induction nodes as [|n nodes IH]; intros m Hm; cbn [foldl]; [apply Hm|].
  apply IH. intros k' v'. destruct (decide (Number n = k')) as [<-|Hne].
  - rewrite lookup_insert_eq. by intros [= <-].
  - rewrite lookup_insert_ne by done. apply Hm.
Qed.

Lemma byNumberOf_key nodes k v : byNumberOf nodes !! k = Some v → Number v = k.
Proof. apply byNumberOf_fold_key. intros k' v'. by rewrite lookup_empty. Qed.

Lemma byNumberOf_fold_other (nodes : list SectionT) (m : gmap gostring SectionT) k :
  k ∉ map Number nodes →
  foldl (λ byNumber n, <[Number n := n]> byNumber) m nodes !! k = m !! k.
Proof.
  revert m. induction nodes as [|n nodes IH]; intros m Hk; cbn [foldl]; [done|].
  cbn [map] in Hk. apply not_elem_of_cons in Hk as [Hne Hk].
  rewrite IH by done. by rewrite lookup_insert_ne.
Qed.

(** Where numbers are not repeated, the map gives every node back. *)
Lemma byNumberOf_lookup nodes i n :
  NoDup (map Number nodes) → nodes !! i = Some n →
  byNumberOf nodes !! Number n = Some n.
Proof.
  unfold byNumberOf. generalize (∅ : gmap gostring SectionT).
  revert i. induction nodes as [|x nodes IH]; intros i m Hnd Hi; [done|].
  cbn [map] in Hnd. apply NoDup_cons in Hnd as [Hx Hnd]. cbn [foldl].
  destruct i as [|i]; simpl in Hi.
  - injection Hi as ->. rewrite byNumberOf_fold_other by done. apply lookup_insert_eq.
  - by apply (IH i).
Qed.

Lemma attachLoop_numbers flat nodes :
  length nodes = length flat →
  (∀ k n, flat !! k = Some n →
     nodes !! k = Some (withChildren n (Children n ++ attachedTo flat (length flat) k))) →
  map Number nodes = map Number flat.
Proof.
  intros Hlen Hnodes. apply list_eq. intros k. rewrite !list_lookup_fmap.
  destruct (flat !! k) as [n|] eqn:Hn.
  - by rewrite (Hnodes _ _ Hn).
  - apply lookup_ge_None in Hn. rewrite lookup_ge_None_2 by lia. done.
Qed.

(** X6: the roots [attachChildren] returns carry, in input order, the
    numbers of the sections for which the backward scan finds no parent
    (no earlier section of lower depth whose number followed by a dot
    starts theirs): such a section is never left out at the root level. *)
Theorem attachChildren_roots flat :
  map Number (attachChildren flat) = map Number (parentless flat (length flat)).
Proof.
  unfold attachChildren.
  destruct (attachLoop_spec flat (length flat)) as (nodes & -> & _); [done|].
  unfold rebuildWithChildrenOrder. rewrite <- list_fmap_compose.
  apply list_fmap_ext. intros _ r _. simpl.
  destruct (byNumberOf nodes !! Number r) as [v|] eqn:Hv; [|done].
  by apply byNumberOf_key in Hv.
Qed.

(** The root made of the section at index [i], if it has no parent: the
    section with the sections attached to it behind its own children. *)
Definition rootAt (flat : list SectionT) (ic : nat * SectionT) : option SectionT :=
  let '(i, s) := ic in
  match scanBack flat s i with
  | None => Some (withChildren s (Children s ++ attachedTo flat (length flat) i))
  | Some _ => None
  end.

(** X7: where no two sections have the same number, [attachChildren]
    returns exactly two levels: each section without a parent, in input
    order, holding behind its own children the sections whose backward scan
    stops at it, each as it was given (with the children it came with, and
    none of those attached to it). *)
Theorem attachChildren_two_levels flat :
  NoDup (map Number flat) →
  attachChildren flat = omap (rootAt flat) (imap pair flat).
Proof.
  intros Hnd. unfold attachChildren.
  destruct (attachLoop_spec flat (length flat)) as (nodes & -> & Hlen & Hnodes); [done|].
  rewrite <- (attachLoop_numbers flat nodes Hlen Hnodes) in Hnd.
  unfold rebuildWithChildrenOrder, parentless. rewrite firstn_all.
  assert (Hall : Forall (λ ic : nat * SectionT, flat !! ic.1 = Some ic.2) (imap pair flat)).
  { apply Forall_forall. by intros [j c] (i & y & [= -> ->] & Hi)%elem_of_lookup_imap. }
  induction Hall as [|[i s] l Hi _ IH]; [done|]. cbn [omap list_omap rootAt].
  simpl in Hi. destruct (scanBack flat s i); [exact IH|].
  cbn [map]. fold (omap (rootAt flat) l). rewrite <- IH. f_equal.
  pose proof (byNumberOf_lookup nodes i _ Hnd (Hnodes _ _ Hi)) as Hlook.
  cbn [withChildren Number] in Hlook. by rewrite Hlook.
Qed.

Lemma attachChildren_two_levels_witness :
  attachChildren nestedThree = omap (rootAt nestedThree) (imap pair nestedThree).
Proof.
  apply (attachChildren_two_levels nestedThree).
  apply (bool_decide_unpack _). vm_compute. reflexivity.
Defined.

Lemma attachChildren_shallow_witness : Forall shallow (attachChildren nestedThree).
Proof. apply (attachChildren_shallow nestedThree). repeat constructor. Defined.

(** ** [strings.Split] and [strings.Join] *)

Section SplitFacts.
Variable sep : gostring.
Hypothesis sep_nonempty : sep ≠ [].
Implicit Types (s cur : gostring) (k : nat).

Lemma split_go_nonempty k cur s : split_go sep k cur s ≠ [].
Proof.
  revert k cur. induction s as [|c s IH]; intros k cur; cbn [split_go]; [done|].
  destruct k; [|apply IH]. destruct (HasPrefix (c :: s) sep); [done|apply IH].
Qed.

Lemma Join_cons_nonempty e rest : rest ≠ [] → Join (e :: rest) sep = e ++ sep ++ Join rest sep.
Proof. by destruct rest. Qed.

Lemma Join_split_go k cur s :
  Join (split_go sep k cur s) sep = rev cur ++ drop k s.
Proof using All.
  revert k cur. induction s as [|c s IH]; intros k cur; cbn [split_go].
  - simpl. by rewrite drop_nil, app_nil_r.
  - destruct k as [|k]; [|by rewrite IH].
    destruct (HasPrefix (c :: s) sep) eqn:Hp.
    + rewrite Join_cons_nonempty by apply split_go_nonempty. rewrite IH.
      apply HasPrefix_spec in Hp as [t Ht]. rewrite drop_0, Ht.
      destruct sep as [|x q]; [done|]. simplify_eq/=.
      by rewrite Nat.sub_0_r, drop_app_length.
    + rewrite IH. simpl. by rewrite <- app_assoc.
Qed.

(** Joining the pieces with the separator gives the text back. *)
Lemma Join_Split s : Join (Strings.Split s sep) sep = s.
Proof using All. unfold Strings.Split. by rewrite Join_split_go. Qed.

End SplitFacts.

(** ** The table heuristic on every text *)

(** The fields of a line as the block loop reads them, and their number
    (0 for a line that is empty once its trailing blanks are cut). *)
Definition cellsOf (l : gostring) : list gostring :=
  splitBy2Spaces (TrimRightByte l " ").

Definition columns (l : gostring) : nat :=
  match TrimRightByte l " " with
  | [] => 0
  | _ :: _ => length (cellsOf l)
  end.

Lemma growBlock_step f lines i c b l :
  lines !! i = Some l →
  growBlock (S f) lines i c b
  = if columns l <? 2 then (b, c, i) else
    let c' := if c =? 0 then columns l else c in
    if negb (columns l =? c') then (b, c', i) else
    if 50 <? length (b ++ [cellsOf l]) then (b ++ [cellsOf l], c', i)
    else growBlock f lines (S i) c' (b ++ [cellsOf l]).
Proof.
  intros Hl. cbn [growBlock]. rewrite Hl. unfold columns, cellsOf.
  by destruct (TrimRightByte l " ").
Qed.

Lemma take_one_drop {A} (l : list A) i x :
  l !! i = Some x → take 1 (drop i l) = [x] ∧ drop i l = x :: drop (S i) l.
Proof.
  intros Hx. rewrite (drop_S _ _ _ Hx). by split.
Qed.

Lemma tablesLoop_prose f lines i out :
  Forall (λ l, columns l < 2) lines → length lines ≤ i + f →
  tablesLoop f lines i out = out ++ drop i lines.
Proof.
  intros Hall. revert i out. induction f as [|f IH]; intros i out Hf; cbn [tablesLoop].
  - by rewrite drop_ge, app_nil_r by lia.
  - destruct (Nat.leb_spec (length lines) i); [by rewrite drop_ge, app_nil_r by lia|].
    destruct (lookup_lt_is_Some_2 lines i) as [l Hl]; [lia|].
    rewrite (growBlock_step _ _ _ _ _ _ Hl).
    assert (Hcol : columns l < 2).
    { rewrite Forall_forall in Hall. by apply Hall, (list_elem_of_lookup_2 _ i). }
    destruct (Nat.ltb_spec (columns l) 2); [|lia]. cbn [length Nat.leb andb].
    rewrite IH by lia. destruct (take_one_drop _ _ _ Hl) as [Ht Hd].
    replace (S i - i) with 1 by lia. by rewrite Ht, Hd, <- app_assoc.
Qed.

(** X8: a text in which no line splits into two or more fields (on runs
    of two or more white-space characters) comes back from
    [transformTables] byte for byte. *)
Theorem transformTables_prose text :
  Forall (λ l, columns l < 2) (Strings.Split text nl) →
  transformTables text = text.
Proof.
  intros Hall. unfold transformTables. rewrite tablesLoop_prose by (done || lia).
  rewrite drop_0. by apply Join_Split.
Qed.

Lemma transformTables_prose_witness :
  transformTables (str "Safety first." ++ nl ++ nl ++ str "  Read the manual.")
  = str "Safety first." ++ nl ++ nl ++ str "  Read the manual.".
Proof.
  apply (transformTables_prose (str "Safety first." ++ nl ++ nl ++ str "  Read the manual.")).
  replace (Strings.Split _ nl) with [str "Safety first."; []; str "  Read the manual."]
    by (vm_compute; reflexivity).
  repeat (constructor; [vm_compute; lia|]). constructor.
Defined.

Section SplitByte.
Variable c : ascii.
Implicit Types (s cur a b : gostring).

Lemma split_byte_cons cur x s :
  split_go [c] 0 cur (x :: s)
  = if Ascii.eqb x c then rev cur :: split_go [c] 0 [] s
    else split_go [c] 0 (x :: cur) s.
Proof. cbn [split_go HasPrefix length Nat.sub]. by rewrite andb_true_r. Qed.

Lemma split_byte_app cur a b :
  split_go [c] 0 cur (a ++ c :: b) = split_go [c] 0 cur a ++ split_go [c] 0 [] b.
Proof.
  revert cur. induction a as [|x a IH]; intros cur.
  - cbn [app]. by rewrite split_byte_cons, Ascii.eqb_refl.
  - cbn [app]. rewrite !split_byte_cons. destruct (Ascii.eqb x c); by rewrite IH.
Qed.

Lemma split_byte_none cur a : c ∉ a → split_go [c] 0 cur a = [rev cur ++ a].
Proof.
  revert cur. induction a as [|x a IH]; intros cur Ha.
  - simpl. by rewrite app_nil_r.
  - apply not_elem_of_cons in Ha as [Hx Ha]. rewrite split_byte_cons.
    destruct (Ascii.eqb_spec x c); [done|]. rewrite IH by done.
    simpl. by rewrite <- app_assoc.
Qed.

Lemma elem_of_rev {A} (x : A) (l : list A) : x ∈ rev l ↔ x ∈ l.
Proof. rewrite !list_elem_of_In. symmetry. apply in_rev. Qed.

(** No piece holds the separator. *)
Lemma split_byte_pieces cur s :
  c ∉ cur → Forall (λ piece, c ∉ piece) (split_go [c] 0 cur s).
Proof.
  revert cur. induction s as [|x s IH]; intros cur Hcur.
  - constructor; [|done]. by rewrite elem_of_rev.
  - rewrite split_byte_cons. destruct (Ascii.eqb_spec x c) as [->|Hx].
    + constructor; [|apply IH; apply not_elem_of_nil].
      by rewrite elem_of_rev.
    + apply IH. by apply not_elem_of_cons.
Qed.

Lemma Split_Join_elem l out :
  l ∈ out → c ∉ l → l ∈ Strings.Split (Join out [c]) [c].
Proof.
  intros Hin Hl. unfold Strings.Split.
  induction out as [|e rest IH]; [by apply elem_of_nil in Hin|].
  destruct rest as [|e' rest].
  - apply list_elem_of_singleton in Hin as ->. simpl.
    rewrite split_byte_none by done. by left.
  - change (Join (e :: e' :: rest) [c]) with (e ++ c :: Join (e' :: rest) [c]).
    rewrite split_byte_app. apply elem_of_app.
    apply elem_of_cons in Hin as [->|Hin]; [left|right; by apply IH].
    rewrite split_byte_none by done. by left.
Qed.

End SplitByte.

(** A line of running text: fewer than two fields, and not blank. *)
Definition prose (l : gostring) : Prop := columns l < 2 ∧ TrimSpace l ≠ [].

Lemma growBlock_rows f lines i c b b' c' i' :
  growBlock f lines i c b = (b', c', i') →
  ∀ j l, i ≤ j < i' → lines !! j = Some l → 2 ≤ columns l.
Proof.
  revert i c b. induction f as [|f IH]; intros i c b.
  - cbn [growBlock]. intros [= <- <- <-] j l Hj. lia.
  - destruct (lines !! i) as [li|] eqn:Hi.
    + rewrite (growBlock_step _ _ _ _ _ _ Hi).
      destruct (Nat.ltb_spec (columns li) 2); [intros [= <- <- <-] j l Hj; lia|].
      cbn zeta. destruct (negb _); [intros [= <- <- <-] j l Hj; lia|].
      destruct (50 <? _); [intros [= <- <- <-] j l Hj; lia|].
      intros Hg j l Hj Hl. destruct (decide (j = i)) as [->|Hne].
      * by simplify_eq.
      * eapply (IH _ _ _ Hg); [|done]. lia.
    + cbn [growBlock]. rewrite Hi. intros [= <- <- <-] j l Hj. lia.
Qed.

Lemma tablesLoop_mono f lines i out x :
  x ∈ out → x ∈ tablesLoop f lines i out.
Proof.
  revert i out. induction f as [|f IH]; intros i out Hx; cbn [tablesLoop]; [done|].
  destruct (length lines <=? i); [done|].
  destruct (growBlock _ _ _ _ _) as [[block colsCount] i'].
  destruct (_ && _); repeat case_match; apply IH; rewrite ?elem_of_app; auto 10.
Qed.

Lemma tablesLoop_keeps f lines i out j l :
  length lines ≤ i + f → i ≤ j → lines !! j = Some l → prose l →
  l ∈ tablesLoop f lines i out.
Proof.
  intros Hf Hij Hl [Hcol Hblank]. revert i out Hf Hij.
  induction f as [|f IH]; intros i out Hf Hij.
  { apply lookup_lt_Some in Hl. lia. }
  cbn [tablesLoop]. pose proof (lookup_lt_Some _ _ _ Hl) as Hlt.
  destruct (Nat.leb_spec (length lines) i); [lia|].
  destruct (growBlock _ _ _ _ _) as [[block colsCount] i'] eqn:Hg.
  pose proof (growBlock_rows _ _ _ _ _ _ _ _ Hg) as Hrows.
  apply growBlock_progress in Hg as [Hi Hb]. simpl in Hb.
  assert (Hj : i' ≤ j).
  { destruct (Nat.le_gt_cases i' j); [done|]. specialize (Hrows j l ltac:(lia) Hl). lia. }
  destruct (Nat.leb_spec 2 (length block)); cbn [andb].
  - destruct (2 <=? colsCount).
    + destruct (lines !! i') as [l'|] eqn:Hl'; [|apply IH; lia].
      destruct (TrimSpace l') eqn:Ht; apply IH; try lia.
      destruct (decide (j = i')) as [->|]; [|lia]. by simplify_eq.
    + destruct (decide (j ≤ i')).
      * apply tablesLoop_mono, elem_of_app. right.
        apply (list_elem_of_lookup_2 _ (j - i)).
        rewrite lookup_take_lt by lia. rewrite lookup_drop. by replace (i + (j - i)) with j by lia.
      * apply IH; lia.
  - destruct (decide (j ≤ i')).
    + apply tablesLoop_mono, elem_of_app. right.
      apply (list_elem_of_lookup_2 _ (j - i)).
      rewrite lookup_take_lt by lia. rewrite lookup_drop. by replace (i + (j - i)) with j by lia.
    + apply IH; lia.
Qed.

(** X9: [transformTables] drops no running text: a line that is not blank
    and does not split into two or more fields is a line of the result,
    wherever it stands. *)
Theorem transformTables_keeps_prose text l :
  l ∈ Strings.Split text nl → prose l →
  l ∈ Strings.Split (transformTables text) nl.
Proof.
  intros Hin Hprose. unfold transformTables.
  assert (Hnl : ascii_of_nat 10 ∉ l).
  { pose proof (split_byte_pieces (ascii_of_nat 10) [] text (not_elem_of_nil _)) as Hp.
    rewrite Forall_forall in Hp. by apply Hp. }
  apply (Split_Join_elem (ascii_of_nat 10)); [|done].
  apply list_elem_of_lookup in Hin as [j Hj].
  by apply (tablesLoop_keeps _ _ _ _ j); [lia..| |].
Qed.

Lemma transformTables_keeps_prose_witness :
  str "See the table:" ∈ Strings.Split
    (transformTables (str "A  B" ++ nl ++ str "C  D" ++ nl ++ str "See the table:")) nl.
Proof.
  apply (transformTables_keeps_prose
           (str "A  B" ++ nl ++ str "C  D" ++ nl ++ str "See the table:")).
  - vm_compute. do 2 right. left.
  - split; vm_compute; [repeat constructor|congruence].
Defined.

(** A block of aligned lines is read to its end when it has no more than
    50 rows. *)
Lemma growBlock_aligned k f lines i c b :
  2 ≤ k → c = 0 ∨ c = k →
  Forall (λ l, columns l = k) lines →
  i ≤ length lines → length lines ≤ i + f →
  length b + (length lines - i) ≤ 50 →
  growBlock f lines i c b
  = (b ++ map cellsOf (drop i lines), if decide (i < length lines) then k else c,
     length lines).
Proof.
  intros Hk Hc Hall. revert i c b Hc.
  induction f as [|f IH]; intros i c b Hc Hi Hf Hcap.
  - cbn [growBlock]. rewrite drop_ge, app_nil_r, decide_False by lia.
    by replace i with (length lines) by lia.
  - destruct (lines !! i) as [l|] eqn:Hl.
    + pose proof (lookup_lt_Some _ _ _ Hl) as Hlt.
      assert (Hcol : columns l = k).
      { rewrite Forall_forall in Hall. by apply Hall, (list_elem_of_lookup_2 _ i). }
      rewrite (growBlock_step _ _ _ _ _ _ Hl), Hcol.
      destruct (Nat.ltb_spec k 2); [lia|]. cbn zeta.
      assert ((if c =? 0 then k else c) = k) as ->.
      { destruct Hc as [->| ->]; [done|]. by destruct (k =? 0). }
      rewrite Nat.eqb_refl. cbn [negb]. rewrite length_app. cbn [length].
      destruct (Nat.ltb_spec 50 (length b + 1)); [lia|].
      rewrite IH; [|by right|lia|lia|rewrite length_app; simpl; lia].
      rewrite (drop_S _ _ _ Hl), <- app_assoc, (decide_True (P := i < length lines)) by done.
      cbn [map app]. by destruct (decide (S i < length lines)).
    + pose proof (lookup_ge_None_1 _ _ Hl). cbn [growBlock]. rewrite Hl.
      rewrite drop_ge, app_nil_r, decide_False by lia.
      by replace i with (length lines) by lia.
Qed.

Lemma tablesLoop_unfold f lines i out :
  tablesLoop (S f) lines i out
  = if (length lines <=? i)%nat then out else
    let start := i in
    let '(block, colsCount, i) := growBlock (S (length lines)) lines i 0 [] in
    if (2 <=? length block)%nat && (2 <=? colsCount)%nat then
      let header := nth 0 block [] in
      let out := out ++ [tableRow (trimAll header)] in
      let out := out ++ [tableRow (map (λ _, str "---") header)] in
      let out := out ++ map (λ row, tableRow (trimAll row)) (drop 1 block) in
      match lines !! i with
      | Some l =>
          match TrimSpace l with
          | [] => tablesLoop f lines (S i) (out ++ [[]])
          | _ :: _ => tablesLoop f lines i out
          end
      | None => tablesLoop f lines i out
      end
    else
      let out := out ++ take (S i - start) (drop start lines) in
      tablesLoop f lines (S i) out.
Proof. reflexivity. Qed.

(** X10: a text of 2 to 50 lines that all split into the same number
    (two or more) of fields becomes one table: the fields of the first line
    as the header row, a separator cell for each of them, and one row for
    each further line, every cell trimmed. *)
Theorem transformTables_table text header rows k :
  Strings.Split text nl = header :: rows →
  Forall (λ l, columns l = k) (header :: rows) →
  2 ≤ k → 1 ≤ length rows ≤ 49 →
  transformTables text
  = Join (tableRow (trimAll (cellsOf header))
          :: tableRow (map (λ _, str "---") (cellsOf header))
          :: map (λ l, tableRow (trimAll (cellsOf l))) rows) nl.
Proof.
  intros Hsplit Hall Hk Hrows. unfold transformTables. rewrite Hsplit. f_equal.
  set (lines := header :: rows). set (len := length lines).
  assert (Hlen : len = S (length rows)) by done.
  rewrite tablesLoop_unfold. fold len.
  destruct (Nat.leb_spec len 0); [lia|].
  rewrite (growBlock_aligned k); [|done|by left|done|lia|lia|simpl; lia].
  cbn zeta. rewrite decide_True by (fold len; lia).
  rewrite drop_0, app_nil_l, length_map. fold len.
  destruct (Nat.leb_spec 2 len); [|lia]. destruct (Nat.leb_spec 2 k); [|lia].
  cbn [andb]. rewrite lookup_ge_None_2 by done.
  assert (Hout : ∀ f out, tablesLoop f lines len out = out).
  { intros [|f] out; cbn [tablesLoop]; [done|]. fold len. by rewrite Nat.leb_refl. }
  rewrite Hout. unfold lines. cbn [map nth drop app].
  by rewrite drop_0, map_map.
Qed.

Lemma transformTables_table_witness :
  transformTables
    (str "Name   Qty   Price" ++ nl ++ str "Bolt   10    2.50" ++ nl ++ str "Nut    20    0.75")
  = Join (tableRow (trimAll (cellsOf (str "Name   Qty   Price")))
          :: tableRow (map (λ _, str "---") (cellsOf (str "Name   Qty   Price")))
          :: map (λ l, tableRow (trimAll (cellsOf l)))
               [str "Bolt   10    2.50"; str "Nut    20    0.75"]) nl.
Proof.
  apply (transformTables_table _ _ _ 3).
  - vm_compute. reflexivity.
  - repeat (constructor; [vm_compute; reflexivity|]). constructor.
  - lia.
  - simpl. lia.
Defined.

(** ** Slugs *)

(** The bytes of a slug: lower-case letters, digits and the hyphen. *)
Definition slug_byte (c : ascii) : bool :=
  re_lower c || is_digit c || Ascii.eqb c "-".

Section ClassSearch.
(** A pattern [[class]+], as [nonSlug] is. *)
Variables (re : Regexp) (p : ascii → bool).
Hypothesis re_prog : prog re = Plus true (Chr p).
Implicit Types (a b : gostring).

Definition notp (c : ascii) : bool := negb (p c).

Lemma span_notp_next a :
  span notp a < length a → 1 ≤ span p (drop (span notp a) a).
Proof.
  induction a as [|c a IH]; simpl; [lia|]. unfold notp at 1 3.
  destruct (p c) eqn:Hc; simpl; [rewrite Hc; lia|]. intros H. apply IH. lia.
Qed.

(** The search stops at the first byte of the class and takes the whole
    run of such bytes. *)
Lemma search_class b a :
  search re b a
  = let n := span notp a in
    if decide (n < length a) then
      let st := MState (rev (take n a) ++ b) (drop n a) (replicate (S (numSubexp re)) []) in
      Some (st, advance (span p (drop n a)) st)
    else None.
Proof using re_prog.
  revert b. induction a as [|c a IH]; intros b; rewrite search_unfold, re_prog.
  - by rewrite run_Plus_class.
  - destruct (p c) eqn:Hc.
    + assert (span notp (c :: a) = 0) as -> by (simpl; unfold notp; by rewrite Hc).
      cbn zeta. rewrite decide_True by (simpl; lia). rewrite drop_0, take_0. cbn [rev app].
      rewrite run_Plus_class. cbn [after span]. rewrite Hc.
      by rewrite seq_S, reverse_snoc.
    + assert (span notp (c :: a) = S (span notp a)) as ->
        by (simpl; unfold notp; by rewrite Hc).
      rewrite run_Plus_class. cbn [after span]. rewrite Hc. cbn [seq reverse fmap list_fmap].
      rewrite IH. cbn zeta. cbn [length].
      destruct (decide (span notp a < length a)).
      * rewrite decide_True by lia. cbn [take drop rev]. by rewrite <- app_assoc.
      * by rewrite decide_False by lia.
Qed.

Lemma each_match_class fuel b a pieces rest :
  length a ≤ fuel →
  each_match re fuel b a = (pieces, rest) →
  Forall (λ piece, forallb notp piece = true) pieces ∧ forallb notp rest = true.
Proof using re_prog.
  revert b a pieces rest. induction fuel as [|f IH]; intros b a pieces rest Hf.
  - destruct a; [|simpl in Hf; lia]. cbn [each_match]. by intros [= <- <-].
  - cbn [each_match]. rewrite search_class. cbn zeta.
    destruct (decide (span notp a < length a)) as [Hn|Hn].
    + pose proof (span_notp_next a Hn) as Hm.
      pose proof (span_length p (drop (span notp a) a)) as Hle.
      rewrite length_drop in Hle.
      rewrite consumed_advance by (cbn [after]; rewrite length_drop; lia).
      cbn [after before advance].
      destruct (take _ (drop (span notp a) a)) as [|x xs] eqn:Htake.
      { apply (f_equal length) in Htake. rewrite length_take, length_drop in Htake.
        simpl in Htake. lia. }
      destruct (each_match re f _ _) as [pieces' rest'] eqn:Hrec.
      intros [= <- <-]. apply IH in Hrec as [Hp Hr].
      2:{ rewrite !length_drop. lia. }
      split; [|done]. constructor; [|done].
      rewrite length_drop. apply take_span. lia.
    + intros [= <- <-]. split; [done|].
      pose proof (span_length notp a).
      rewrite <- (firstn_all a). apply take_span. lia.
Qed.

(** A text without a byte of the class has no match. *)
Lemma search_class_none b a : forallb notp a = true → search re b a = None.
Proof using re_prog.
  intros Ha. rewrite search_class. cbn zeta.
  assert (span notp a = length a) as ->.
  { rewrite <- (app_nil_r a) at 1. rewrite span_app by done. simpl. lia. }
  by rewrite decide_False by lia.
Qed.

End ClassSearch.

Lemma forallb_eq {A} (f g : A → bool) (l : list A) :
  (∀ x, f x = g x) → forallb f l = forallb g l.
Proof. intros H. induction l as [|x l IH]; [done|]. simpl. by rewrite H, IH. Qed.

Lemma forallb_app_intro {A} (q : A → bool) (x y : list A) :
  forallb q x = true → forallb q y = true → forallb q (x ++ y) = true.
Proof. intros. rewrite forallb_app. by apply andb_true_iff. Qed.

Lemma notp_nonSlug c :
  notp (λ c, negb (re_lower c || is_digit c || Ascii.eqb c "-")) c = slug_byte c.
Proof. unfold notp, slug_byte. by rewrite negb_involutive. Qed.

(** What [nonSlug.ReplaceAllString(s, "-")] returns holds slug bytes only. *)
Lemma ReplaceAllString_nonSlug s :
  forallb slug_byte (ReplaceAllString nonSlug s (str "-")) = true.
Proof.
  unfold ReplaceAllString.
  destruct (each_match nonSlug (length s) [] s) as [pieces rest] eqn:He.
  eapply each_match_class in He as [Hp Hr]; [|reflexivity|done].
  apply forallb_app_intro.
  - induction Hp as [|x l Hx _ IH]; [done|]. cbn [map concat].
    apply forallb_app_intro; [|done]. apply forallb_app_intro; [|done].
    erewrite forallb_eq; [exact Hx|]. intros c. unfold notp, slug_byte. cbv beta.
    by rewrite negb_involutive.
  - erewrite forallb_eq; [exact Hr|]. intros c. unfold notp, slug_byte. cbv beta.
    by rewrite negb_involutive.
Qed.

Lemma ReplaceAllString_slug s :
  forallb slug_byte s = true → ReplaceAllString nonSlug s (str "-") = s.
Proof.
  intros Hs. unfold ReplaceAllString.
  assert (each_match nonSlug (length s) [] s = ([], s)) as ->; [|done].
  destruct (length s); [done|]. cbn [each_match].
  erewrite search_class_none; [done|reflexivity|].
  erewrite forallb_eq; [exact Hs|]. intros c. unfold notp, slug_byte. cbv beta.
    by rewrite negb_involutive.
Qed.

Section ReplaceShape.
Variables old new : gostring.
Implicit Types (s : gostring) (k : nat) (q : ascii → bool).

Lemma replace_go_forallb q k s :
  forallb q s = true → forallb q new = true →
  forallb q (replace_go old new k s) = true.
Proof.
  intros Hs Hnew. revert k Hs. induction s as [|c s IH]; intros k; [done|].
  simpl forallb. intros [Hc Hs]%andb_true_iff. cbn [replace_go].
  destruct k; [|by apply IH]. destruct (HasPrefix (c :: s) old).
  - apply forallb_app_intro; [done|by apply IH].
  - simpl. rewrite Hc. by apply IH.
Qed.

Lemma replace_go_length k s :
  length new ≤ length old →
  length (replace_go old new k s) + k `min` length s ≤ length s.
Proof.
  intros Hlen. revert k. induction s as [|c s IH]; intros k; [simpl; lia|].
  cbn [replace_go]. destruct k as [|k].
  - destruct (HasPrefix (c :: s) old) eqn:Hp.
    + apply HasPrefix_length in Hp. specialize (IH (length old - 1)).
      rewrite length_app. simpl in *. lia.
    + specialize (IH 0). simpl in *. lia.
  - specialize (IH k). simpl. lia.
Qed.

(** Where the replacement is shorter than what it replaces, every pass
    that finds an occurrence shortens the text. *)
Lemma replace_go_shorter s :
  length new < length old → Contains s old = true →
  length (replace_go old new 0 s) < length s.
Proof.
  intros Hlen. induction s as [|c s IH].
  - intros H. destruct old; simpl in *; [lia|done].
  - rewrite Contains_cons. cbn [replace_go].
    destruct (HasPrefix (c :: s) old) eqn:Hp.
    + intros _. apply HasPrefix_length in Hp.
      pose proof (replace_go_length (length old - 1) s ltac:(lia)).
      rewrite length_app. simpl in *. lia.
    + simpl. intros H%IH. lia.
Qed.

Lemma replace_go_first s a :
  old ≠ [] → head s = Some a → head old ≠ Some a →
  head (replace_go old new 0 s) = Some a.
Proof.
  intros Hne. destruct s as [|c s]; [done|]. intros [= ->] Hold. cbn [replace_go].
  destruct old as [|x q]; [done|]. rewrite HasPrefix_head_ne; [done|].
  intros ->. by apply Hold.
Qed.

(** A text that lacks the first byte of [old] is copied. *)
Lemma replace_go_absent s :
  (∀ x, head old = Some x → x ∉ s) → old ≠ [] → replace_go old new 0 s = s.
Proof.
  intros Hx Hold. destruct old as [|x q] eqn:E; [done|].
  specialize (Hx x eq_refl). clear Hold.
  induction s as [|c s IH]; [done|]. apply not_elem_of_cons in Hx as [Hne Hx].
  cbn [replace_go]. rewrite HasPrefix_head_ne by done. by rewrite IH.
Qed.

End ReplaceShape.

Lemma replace_go_last old new s z :
  old ≠ [] → last s = Some z → z ∉ old →
  last (replace_go old new 0 s) = Some z.
Proof.
  intros Hold [s' ->]%last_Some Hz.
  rewrite replace_go_sep by (done || lia). simpl. by rewrite last_snoc.
Qed.

(** *** Trimming one byte *)

Section TrimFacts.
Variable c : ascii.
Implicit Types (s : gostring) (q : ascii → bool).

Lemma TrimLeftByte_forallb q s :
  forallb q s = true → forallb q (TrimLeftByte s c) = true.
Proof.
  induction s as [|x s IH]; [done|]. intros Hs. cbn [TrimLeftByte].
  destruct (Ascii.eqb x c); [|done]. simpl in Hs.
  apply andb_true_iff in Hs as [_ Hs]. by apply IH.
Qed.

Lemma TrimLeftByte_head s : head (TrimLeftByte s c) ≠ Some c.
Proof.
  induction s as [|x s IH]; [done|]. cbn [TrimLeftByte].
  destruct (Ascii.eqb_spec x c); [done|]. simpl. congruence.
Qed.

Lemma TrimLeftByte_id s : head s ≠ Some c → TrimLeftByte s c = s.
Proof.
  destruct s as [|x s]; [done|]. simpl. intros Hx.
  destruct (Ascii.eqb_spec x c); [congruence|done].
Qed.

Lemma TrimRightByte_forallb q s :
  forallb q s = true → forallb q (TrimRightByte s c) = true.
Proof.
  induction s as [|x s IH]; [done|]. simpl forallb.
  intros [Hx Hs]%andb_true_iff. cbn [TrimRightByte]. specialize (IH Hs).
  destruct (TrimRightByte s c).
  - destruct (Ascii.eqb x c); [done|]. simpl. by rewrite Hx.
  - change (forallb q (x :: a :: l)) with (q x && forallb q (a :: l)).
    by rewrite Hx, IH.
Qed.

Lemma TrimRightByte_head s : head s ≠ Some c → head (TrimRightByte s c) ≠ Some c.
Proof.
  destruct s as [|x s]; [done|]. simpl. intros Hx.
  destruct (TrimRightByte s c); [destruct (Ascii.eqb x c)|]; simpl; congruence.
Qed.

Lemma TrimRightByte_last s : last (TrimRightByte s c) ≠ Some c.
Proof.
  induction s as [|x s IH]; [done|]. cbn [TrimRightByte].
  destruct (TrimRightByte s c) as [|y r].
  - destruct (Ascii.eqb_spec x c); [done|]. simpl. congruence.
  - by rewrite last_cons_cons.
Qed.

Lemma TrimRightByte_id s : last s ≠ Some c → TrimRightByte s c = s.
Proof.
  induction s as [|x s IH]; [done|]. cbn [TrimRightByte]. destruct s as [|y s].
  - simpl. intros Hx. destruct (Ascii.eqb_spec x c); [congruence|done].
  - rewrite last_cons_cons. intros H. by rewrite (IH H).
Qed.

End TrimFacts.

(** *** The shape of a slug *)

(** Slug bytes only, no hyphen at either end, no two hyphens in a row. *)
Definition slug_ok (s : gostring) : Prop :=
  forallb slug_byte s = true
  ∧ head s ≠ Some "-"%char ∧ last s ≠ Some "-"%char
  ∧ Contains s (str "--") = false.

Lemma slug_byte_facts c :
  slug_byte c = true →
  lower_byte c = c ∧ is_ascii c = true ∧ is_space_byte c = false
  ∧ Ascii.eqb c (ascii_of_nat 196) = false ∧ Ascii.eqb c (ascii_of_nat 226) = false
  ∧ c ≠ " "%char ∧ c ≠ "/"%char ∧ c ≠ "."%char.
Proof.
  intros H.
  destruct c as [[|] [|] [|] [|] [|] [|] [|] [|]];
    try (exfalso; vm_compute in H; congruence);
    repeat split; try reflexivity; discriminate.
Qed.

Lemma collapse_step s :
  forallb slug_byte s = true → head s ≠ Some "-"%char → last s ≠ Some "-"%char →
  let t := ReplaceAll s (str "--") (str "-") in
  forallb slug_byte t = true ∧ head t ≠ Some "-"%char ∧ last t ≠ Some "-"%char.
Proof.
  intros Hs Hh Hl. cbn zeta. rewrite ReplaceAll_nonempty by done. split_and!.
  - by apply replace_go_forallb.
  - destruct s as [|a s]; [done|].
    erewrite replace_go_first; [|done|reflexivity|]; simpl in *; congruence.
  - destruct (last s) as [z|] eqn:Hz.
    + erewrite replace_go_last; [|done|exact Hz|]; [congruence|].
      intros Hin. apply Hl. f_equal.
      apply elem_of_cons in Hin as [->|Hin]; [done|].
      apply elem_of_cons in Hin as [->|Hin]; [done|]. by apply elem_of_nil in Hin.
    + apply last_None in Hz as ->. done.
Qed.

Lemma collapseHyphens_ok fuel s :
  length s ≤ fuel →
  forallb slug_byte s = true → head s ≠ Some "-"%char → last s ≠ Some "-"%char →
  slug_ok (collapseHyphens fuel s).
Proof.
  revert s. induction fuel as [|f IH]; intros s Hf Hs Hh Hl.
  - destruct s; [|simpl in Hf; lia]. by repeat split.
  - cbn [collapseHyphens]. destruct (Contains s (str "--")) eqn:Hc; [|by repeat split].
    destruct (collapse_step s Hs Hh Hl) as (Hs' & Hh' & Hl').
    apply IH; [|done..]. rewrite ReplaceAll_nonempty by done.
    pose proof (replace_go_shorter (str "--") (str "-") s ltac:(simpl; lia) Hc). lia.
Qed.

Lemma collapseHyphens_id fuel s :
  Contains s (str "--") = false → collapseHyphens fuel s = s.
Proof. intros Hc. destruct fuel; [done|]. cbn [collapseHyphens]. by rewrite Hc. Qed.

Lemma lower_go_slug s : forallb slug_byte s = true → lower_go 0 s = s.
Proof.
  induction s as [|c s IH]; [done|]. simpl forallb.
  intros [Hc Hs]%andb_true_iff.
  destruct (slug_byte_facts c Hc) as (Hlow & _ & _ & H196 & H226 & _).
  cbn [lower_go]. 
  assert (HasPrefix (c :: s) (bytes [196; 176]) = false) as ->
    by (cbn [bytes map HasPrefix]; by rewrite H196).
  assert (HasPrefix (c :: s) (bytes [226; 132; 170]) = false) as ->
    by (cbn [bytes map HasPrefix]; by rewrite H226).
  by rewrite Hlow, IH.
Qed.

Lemma strip_end_slug s :
  forallb slug_byte s = true → strip_end (space_flags 0 s) s = s.
Proof.
  induction s as [|c s IH]; [done|]. simpl forallb.
  intros [Hc Hs]%andb_true_iff.
  destruct (slug_byte_facts c Hc) as (_ & Hascii & Hspace & _).
  cbn [space_flags]. rewrite space_width_plain by done. cbn [strip_end].
  rewrite IH by done. by destruct s.
Qed.

Lemma TrimSpace_slug s : forallb slug_byte s = true → TrimSpace s = s.
Proof.
  intros Hs. unfold TrimSpace.
  assert (trimLeft_go 0 s = s) as ->.
  { destruct s as [|c s]; [done|]. simpl in Hs. apply andb_true_iff in Hs as [Hc _].
    destruct (slug_byte_facts c Hc) as (_ & Hascii & Hspace & _).
    cbn [trimLeft_go]. by rewrite space_width_plain. }
  by apply strip_end_slug.
Qed.

Lemma slug_absent s x :
  forallb slug_byte s = true → slug_byte x = false → x ∉ s.
Proof.
  intros Hs Hx Hin. rewrite forallb_forall in Hs.
  apply list_elem_of_In, Hs in Hin. congruence.
Qed.

Lemma slugify_ok s : slug_ok (slugify s).
Proof.
  unfold slugify. cbv zeta.
  set (t := ReplaceAllString nonSlug _ _).
  assert (Ht : forallb slug_byte t = true) by apply ReplaceAllString_nonSlug.
  apply collapseHyphens_ok; [done| | |].
  - by apply TrimRightByte_forallb, TrimLeftByte_forallb.
  - apply TrimRightByte_head, TrimLeftByte_head.
  - apply TrimRightByte_last.
Qed.

(** X11: whatever the text, its slug holds lower-case letters, digits and
    hyphens only, neither starts nor ends with a hyphen and has no two
    hyphens in a row. *)
Theorem slugify_shape s :
  forallb slug_byte (slugify s) = true
  ∧ head (slugify s) ≠ Some "-"%char
  ∧ last (slugify s) ≠ Some "-"%char
  ∧ Contains (slugify s) (str "--") = false.
Proof. apply slugify_ok. Qed.

(** A slug is its own slug. *)
Lemma slugify_slug s : slug_ok s → slugify s = s.
Proof.
  intros (Hs & Hh & Hl & Hc). unfold slugify. cbv zeta.
  unfold ToLower. rewrite lower_go_slug, TrimSpace_slug by done.
  rewrite !ReplaceAll_nonempty by done.
  rewrite (replace_go_absent (str " ")) by (done || intros x [= <-]; by apply slug_absent).
  rewrite (replace_go_absent (str "/")) by (done || intros x [= <-]; by apply slug_absent).
  rewrite (replace_go_absent (str ".")) by (done || intros x [= <-]; by apply slug_absent).
  rewrite ReplaceAllString_slug by done.
  unfold TrimByte. rewrite TrimLeftByte_id, TrimRightByte_id by done.
  by apply collapseHyphens_id.
Qed.

(** X12: [slugify] is idempotent: the slug of a slug is the slug itself
    (so the prefixed slug [Run] computes from a slug is made of a text that
    already has the shape). *)
Theorem slugify_idempotent s : slugify (slugify s) = slugify s.
Proof. apply slugify_slug, slugify_ok. Qed.

(** * Image names, page texts and the fallback splitter (types.go) *)

(** ** [atoi] and [parsePageFromName] *)

(** [atoi] of types.go: the digits of [s] read as one decimal number,
    every other rune stepped over, in Go's wrapping [int] arithmetic.  A
    rune that is not ASCII has no digit among its bytes, so the loop over
    runes and the loop over bytes read the same digits. *)
Definition atoi (s : gostring) : Z :=
  foldl (λ n r, if is_digit r then GoInt.wrap (n * 10 + digit_val r) else n) 0%Z s.

Definition pageRe : Regexp :=
  {| expr := "p(\d+)";
     prog := Seq (Byte "p") (Group 1 (Plus true digit));
     numSubexp := 1 |}.

Definition pageDashRe : Regexp :=
  {| expr := "page-(\d+)";
     prog := Seq (Lit (str "page-")) (Group 1 (Plus true digit));
     numSubexp := 1 |}.

Definition parsePageFromName (name : gostring) : Z :=
  (* Try several common patterns *)
  let m := FindStringSubmatch pageRe name in
  if (length m =? 2)%nat then atoi (sub m 1) else
  let m := FindStringSubmatch pageDashRe name in
  if (length m =? 2)%nat then atoi (sub m 1) else
  0%Z.

(** [discoverImagesForRange] over the names [os.ReadDir] returned. *)
Record ImageRef := { imgName : gostring; imgPage : Z }.

Definition discoverImagesForRange (names : list gostring) (start end_ : Z) : list ImageRef :=
  foldl (λ imgs name,
           let pg := parsePageFromName name in
           if (start <=? pg)%Z && (pg <=? end_)%Z
           then imgs ++ [{| imgName := name; imgPage := pg |}] else imgs)
        [] names.

Lemma atoi_loop_digits acc d :
  forallb is_digit d = true → (0 ≤ acc)%Z → (digits_val acc d ≤ GoInt.int_max)%Z →
  foldl (λ n r, if is_digit r then GoInt.wrap (n * 10 + digit_val r) else n) acc d
  = digits_val acc d.
Proof.
  revert acc. induction d as [|c d IH]; intros acc Hd Hacc Hfit; [done|].
  simpl in Hd. apply andb_true_iff in Hd as [Hc Hd]. cbn [foldl digits_val] in *.
  rewrite Hc.
  assert (0 ≤ digit_val c)%Z.
  { unfold is_digit in Hc. apply andb_true_iff in Hc as [Hc _].
    apply Nat.leb_le in Hc. unfold digit_val. lia. }
  pose proof (digits_val_ge (10 * acc + digit_val c) d ltac:(lia) Hd).
  rewrite wrap_small by (unfold GoInt.int_min; lia).
  replace (acc * 10 + digit_val c)%Z with (10 * acc + digit_val c)%Z by lia.
  apply IH; [done|lia|done].
Qed.

Lemma atoi_loop_filter acc s :
  foldl (λ n r, if is_digit r then GoInt.wrap (n * 10 + digit_val r) else n) acc s
  = foldl (λ n r, if is_digit r then GoInt.wrap (n * 10 + digit_val r) else n) acc
      (List.filter is_digit s).
Proof.
  revert acc. induction s as [|c s IH]; intros acc; [done|]. cbn [foldl List.filter].
  destruct (is_digit c) eqn:Hc; cbn [foldl]; by rewrite ?Hc, IH.
Qed.

Lemma atoi_filter s :
  (digits_val 0 (List.filter is_digit s) ≤ GoInt.int_max)%Z →
  atoi s = digits_val 0 (List.filter is_digit s).
Proof.
  intros Hfit. unfold atoi.
  rewrite atoi_loop_filter. apply atoi_loop_digits; [|lia|done].
  apply forallb_forall. by intros c [_ Hc]%filter_In.
Qed.

(** X13: [atoi] reads the digits of a text as one number, whatever stands
    between them: when that number fits an [int], it is the result. *)
Theorem atoi_digits s :
  (digits_val 0 (List.filter is_digit s) ≤ GoInt.int_max)%Z →
  atoi s = digits_val 0 (List.filter is_digit s).
Proof. apply atoi_filter. Qed.

Lemma atoi_digits_witness :
  atoi (str "12_img_3.png") = digits_val 0 (List.filter is_digit (str "12_img_3.png")).
Proof. apply (atoi_digits (str "12_img_3.png")). vm_compute. congruence. Defined.

(** *** The page of an image name *)

Lemma search_skip re pre b a :
  (∀ A c B, pre = A ++ c :: B →
     run (prog re) (MState (rev A ++ b) (c :: B ++ a) (replicate (S (numSubexp re)) [])) = []) →
  search re b (pre ++ a) = search re (rev pre ++ b) a.
Proof.
  revert b. induction pre as [|x pre IH]; intros b Hnone; [done|].
  cbn [app]. rewrite search_unfold.
  pose proof (Hnone [] x pre eq_refl) as H0. cbn [rev app] in H0. rewrite H0, IH.
  - simpl. by rewrite <- app_assoc.
  - intros A c B ->. specialize (Hnone (x :: A) c B eq_refl).
    simpl in Hnone. by rewrite <- app_assoc in Hnone.
Qed.

(** No [p] of [pre] is followed by a digit. *)
Definition noPageMark (pre : gostring) : Prop :=
  ∀ A c B, pre = A ++ "p"%char :: c :: B → is_digit c = false.

Definition endsNumber (rest : gostring) : Prop :=
  match rest with
  | [] => True
  | c :: _ => is_digit c = false
  end.

Lemma span_digits d rest :
  forallb is_digit d = true → endsNumber rest → span is_digit (d ++ rest) = length d.
Proof.
  intros Hd Hrest. rewrite span_app by done.
  destruct rest as [|c rest]; simpl in *; [lia|]. rewrite Hrest. lia.
Qed.

Lemma filter_digits d : forallb is_digit d = true → List.filter is_digit d = d.
Proof.
  induction d as [|c d IH]; [done|]. simpl. intros [Hc Hd]%andb_true_iff.
  by rewrite Hc, IH.
Qed.

Lemma pageRe_found pre d rest :
  noPageMark pre → digits d → endsNumber rest →
  FindStringSubmatch pageRe (pre ++ "p"%char :: d ++ rest) = ["p"%char :: d; d].
Proof.
  intros Hpre [Hne Hd] Hrest. unfold FindStringSubmatch. rewrite search_skip.
  - rewrite search_unfold. cbn [prog pageRe numSubexp].
    rewrite run_Seq. unfold Byte. rewrite run_Chr_cons, Ascii.eqb_refl, bind_singleton.
    unfold digit. rewrite run_Group, run_Plus_class. cbn [after]. rewrite span_digits by done.
    destruct (length d) as [|n] eqn:Hlen; [by destruct d|].
    rewrite seq_S, reverse_snoc. cbn [fmap list_fmap Nat.add]. rewrite <- Hlen.
    unfold submatches, capture. cbn [fst snd caps].
    rewrite consumed_advance by (cbn [after]; rewrite length_app; lia).
    cbn [after advance]. rewrite take_app_length.
    unfold consumed. cbn [after]. rewrite length_drop.
    replace (length ("p"%char :: d ++ rest) - (length (d ++ rest) - length d))
      with (length ("p"%char :: d)) by (simpl; rewrite length_app; lia).
    change ("p"%char :: d ++ rest) with (("p"%char :: d) ++ rest).
    by rewrite take_app_length.
  - intros A c B ->. cbn [prog pageRe]. rewrite run_Seq. unfold Byte.
    rewrite run_Chr_cons. destruct (Ascii.eqb_spec "p"%char c) as [<-|]; [|done].
    unfold digit. rewrite bind_singleton, run_Group, run_Plus_class. cbn [after].
    assert (span is_digit (B ++ "p"%char :: d ++ rest) = 0) as ->; [|done].
    destruct B as [|c B]; [done|]. simpl.
    by rewrite (Hpre A c B eq_refl).
Qed.

(** X14: in a name that holds [p] and a run of digits behind it, with no
    earlier [p] followed by a digit, [parsePageFromName] returns the number
    of that run (when it fits an [int]): the page of an image named
    [p<page>_img_<n>.<ext>]. *)
Theorem parsePageFromName_mark pre d rest :
  noPageMark pre → digits d → endsNumber rest →
  (digits_val 0 d ≤ GoInt.int_max)%Z →
  parsePageFromName (pre ++ "p"%char :: d ++ rest) = digits_val 0 d.
Proof.
  intros Hpre Hd Hrest Hfit. unfold parsePageFromName.
  rewrite pageRe_found by done. cbn [length Nat.eqb sub nth].
  destruct Hd as [_ Hd]. rewrite atoi_filter; by rewrite filter_digits.
Qed.

Lemma parsePageFromName_mark_witness :
  parsePageFromName ([] ++ "p"%char :: str "12" ++ str "_img_3.png")
  = digits_val 0 (str "12").
Proof.
  apply (parsePageFromName_mark [] (str "12") (str "_img_3.png")).
  - intros A c B H. by destruct A.
  - split; vm_compute; congruence.
  - reflexivity.
  - vm_compute. congruence.
Defined.

(** ** [collectTextByPage] *)

Record PageText := { ptPage : Z; ptText : gostring }.

(** The values [i] takes in [for i := lo; i <= hi; i++]. *)
Definition zrange (lo hi : Z) : list Z :=
  map (λ k, (lo + Z.of_nat k)%Z) (seq 0 (Z.to_nat (hi - lo + 1))).

(** [l[i]]; [None] stands for the panic of an index out of range. *)
Definition index {A} (l : list A) (i : Z) : option A :=
  if (i <? 0)%Z then None else l !! Z.to_nat i.

(** One turn of the loop of [collectTextByPage]. *)
Definition collectStep (pages : list gostring) (out : option (list PageText)) (i : Z)
    : option (list PageText) :=
  out ← out;
  p ← index pages (i - 1);
  let t := TrimSpace p in
  let t := transformTables t in
  Some (out ++ [{| ptPage := i; ptText := t |}]).

Definition collectTextByPage (pages : list gostring) (start end_ : Z)
    : option (list PageText) :=
  let start := if (start <? 1)%Z then 1%Z else start in
  let end_ := if (end_ >? Z.of_nat (length pages))%Z then Z.of_nat (length pages) else end_ in
  foldl (collectStep pages) (Some []) (zrange start end_).

(** The text of every page with its number, counted from 1. *)
Definition pageTexts (pages : list gostring) : list PageText :=
  imap (λ k p, {| ptPage := Z.of_nat k + 1; ptText := transformTables (TrimSpace p) |}) pages.

Lemma collect_loop pages lo j m acc :
  (1 ≤ lo)%Z → (0 < m → Z.to_nat (lo - 1) + j + m ≤ length pages) →
  foldl (collectStep pages) (Some acc) (map (λ k, (lo + Z.of_nat k)%Z) (seq j m))
  = Some (acc ++ take m (drop (Z.to_nat (lo - 1) + j) (pageTexts pages))).
Proof.
  intros Hlo. revert j acc. induction m as [|m IH]; intros j acc Hlen.
  - simpl. by rewrite app_nil_r.
  - cbn [seq map foldl]. specialize (Hlen ltac:(lia)).
    destruct (lookup_lt_is_Some_2 pages (Z.to_nat (lo - 1) + j)) as [p Hp]; [lia|].
    assert (Hstep : collectStep pages (Some acc) (lo + Z.of_nat j)
      = Some (acc ++ [{| ptPage := lo + Z.of_nat j;
                         ptText := transformTables (TrimSpace p) |}])).
    { unfold collectStep, index. cbn [mbind option_bind].
      destruct (Z.ltb_spec (lo + Z.of_nat j - 1) 0); [lia|].
      replace (Z.to_nat (lo + Z.of_nat j - 1)) with (Z.to_nat (lo - 1) + j) by lia.
      by rewrite Hp. }
    rewrite Hstep, IH by lia. f_equal. rewrite <- app_assoc. f_equal.
    assert (Hpt : pageTexts pages !! (Z.to_nat (lo - 1) + j)
                  = Some {| ptPage := lo + Z.of_nat j; ptText := transformTables (TrimSpace p) |}).
    { unfold pageTexts. rewrite list_lookup_imap, Hp. simpl. do 2 f_equal. lia. }
    rewrite (drop_S _ _ _ Hpt). cbn [take app]. by rewrite Nat.add_succ_r.
Qed.

(** X15: for any bounds, [collectTextByPage] reads no page out of range:
    it returns the pages from [max(start, 1)] to [min(end, len(pages))], in
    order, each with its number and its text trimmed and passed through
    [transformTables]; nothing when the range is empty. *)
Theorem collectTextByPage_range pages start end_ :
  let lo := Z.max start 1 in
  let hi := Z.min end_ (Z.of_nat (length pages)) in
  collectTextByPage pages start end_
  = Some (take (Z.to_nat (hi - lo + 1)) (drop (Z.to_nat (lo - 1)) (pageTexts pages))).
Proof.
  cbv zeta. unfold collectTextByPage, zrange.
  replace (if (start <? 1)%Z then 1%Z else start) with (Z.max start 1)
    by (destruct (Z.ltb_spec start 1); lia).
  replace (if (end_ >? Z.of_nat (length pages))%Z then Z.of_nat (length pages) else end_)
    with (Z.min end_ (Z.of_nat (length pages)))
    by (destruct (Z.gtb_spec end_ (Z.of_nat (length pages))); lia).
  rewrite collect_loop; [by rewrite Nat.add_0_r|lia|]. intros Hm.
  pose proof (Z.max_spec start 1). pose proof (Z.min_spec end_ (Z.of_nat (length pages))).
  lia.
Qed.

(** ** The fallback splitter *)

(** [fmt.Sprintf("%d", n)]: the decimal digits of [n], behind a minus
    sign when [n] is negative.  A number below [fuel + 10] has all its
    digits written before the fuel is used up. *)
Fixpoint itoa_go (fuel : nat) (n : Z) (acc : gostring) : gostring :=
  let acc := ascii_of_nat (48 + Z.to_nat (n mod 10)) :: acc in
  match fuel with
  | O => acc
  | S f => if (n <? 10)%Z then acc else itoa_go f (n / 10) acc
  end.

Definition itoa (n : Z) : gostring :=
  if (n <? 0)%Z then "-"%char :: itoa_go (Z.to_nat (- n)) (- n) []
  else itoa_go (Z.to_nat n) n [].

Definition heading_byte (c : ascii) : bool :=     (* [A-Za-z0-9 ,\-/()] *)
  re_upper c || re_lower c || is_digit c || existsb (Ascii.eqb c) (str " ,-/()").

Definition headingRe : Regexp :=
  {| expr := "^[A-Z][A-Za-z0-9 ,\-/()]{3,}$";
     prog :=
       Seq Bol (Seq (Chr re_upper)
         (Seq (Chr heading_byte) (Seq (Chr heading_byte) (Seq (Chr heading_byte)
            (Seq (Star true (Chr heading_byte)) Eol)))));
     numSubexp := 0 |}.

Definition withEnd (s : SectionT) (e : Z) : SectionT :=
  mkSection (Number s) (Title s) (Start s) e (Depth s) (Slug s) (Children s).

(** The state of the heading loop: [out], [cur] and [idx]. *)
Record fstate := FState { f_out : list SectionT; f_cur : SectionT; f_idx : Z }.

(** One page of the heading loop, [i] counted from 1.  The inner loop
    stops at the first line that looks like a heading, unless the current
    section starts on this very page. *)
Definition headingStep (st : fstate) (i : Z) (page : gostring) : fstate :=
  let lines := Strings.Split page nl in
  let cur := f_cur st in
  let st :=
    match find (λ ln, MatchString headingRe (TrimSpace ln) && negb (i =? Start cur)%Z) lines with
    | Some ln =>
        let cur := withEnd cur (i - 1) in
        let idx := (f_idx st + 1)%Z in
        FState (f_out st ++ [cur])
          (mkSection (itoa idx) (TrimSpace ln) i i 1
             (slugify (itoa idx ++ str "-" ++ ln)) [])
          idx
    | None => st
    end in
  FState (f_out st) (withEnd (f_cur st) i) (f_idx st).

Definition fallbackSections (pages : list gostring) (mode : gostring) : list SectionT :=
  if decide (mode = str "heading") then
    (* Basic heading-based split: start new section when a line looks like a heading *)
    let cur := mkSection (str "1") (str "Section 1") 1 1 1 (slugify (str "1-section-1")) [] in
    let st := foldl (λ st '(k, p), headingStep st (Z.of_nat k + 1) p)
                    (FState [] cur 1) (imap pair pages) in
    f_out st ++ [f_cur st]
  else
    imap (λ k _,
            let i := (Z.of_nat k + 1)%Z in
            let t := str "Page " ++ itoa i in
            mkSection (itoa i) t i i 1 (slugify t) [])
         pages.

(** *** Decimal numbers *)

Lemma digits_val_app acc x y : digits_val acc (x ++ y) = digits_val (digits_val acc x) y.
Proof. revert acc. induction x as [|c x IH]; intros acc; [done|]. apply IH. Qed.

Lemma digit_of_nat k :
  k < 10 →
  is_digit (ascii_of_nat (48 + k)) = true ∧ digit_val (ascii_of_nat (48 + k)) = Z.of_nat k.
Proof.
  intros Hk. do 10 (destruct k as [|k]; [by vm_compute|]). lia.
Qed.

Lemma itoa_go_spec fuel n acc :
  (0 ≤ n)%Z → (n < Z.of_nat fuel + 10)%Z →
  ∃ ds, itoa_go fuel n acc = ds ++ acc ∧ ds ≠ []
        ∧ forallb is_digit ds = true ∧ digits_val 0 ds = n.
Proof.
  revert n acc. induction fuel as [|f IH]; intros n acc Hn Hf.
  - assert (Hm : (n mod 10 = n)%Z) by (apply Z.mod_small; lia).
    destruct (digit_of_nat (Z.to_nat n)) as [Hd Hv]; [lia|].
    exists [ascii_of_nat (48 + Z.to_nat n)]. cbn [itoa_go]. rewrite Hm.
    split_and!; [done|done|by cbn [forallb]; rewrite Hd|]. cbn [digits_val]. rewrite Hv. lia.
  - cbn [itoa_go]. destruct (Z.ltb_spec n 10).
    + assert (Hm : (n mod 10 = n)%Z) by (apply Z.mod_small; lia).
      destruct (digit_of_nat (Z.to_nat n)) as [Hd Hv]; [lia|].
      exists [ascii_of_nat (48 + Z.to_nat n)]. rewrite Hm.
      split_and!; [done|done|by cbn [forallb]; rewrite Hd|]. cbn [digits_val]. rewrite Hv. lia.
    + pose proof (Z.mod_pos_bound n 10 ltac:(lia)) as Hmod.
      pose proof (Z.div_mod n 10 ltac:(lia)) as Hdiv.
      destruct (digit_of_nat (Z.to_nat (n mod 10))) as [Hd Hv]; [lia|].
      destruct (IH (n / 10)%Z (ascii_of_nat (48 + Z.to_nat (n mod 10)) :: acc))
        as (ds & -> & Hne & Hds & Hval); [lia|lia|].
      exists (ds ++ [ascii_of_nat (48 + Z.to_nat (n mod 10))]).
      split_and!.
      * by rewrite <- app_assoc.
      * by destruct ds.
      * rewrite forallb_app, Hds. cbn [forallb]. by rewrite Hd.
      * rewrite digits_val_app, Hval. cbn [digits_val]. rewrite Hv. lia.
Qed.

(** The text of a number that is not negative is a run of digits that
    reads as the number. *)
Lemma itoa_digits n : (0 ≤ n)%Z → digits (itoa n) ∧ digits_val 0 (itoa n) = n.
Proof.
  intros Hn. unfold itoa. destruct (Z.ltb_spec n 0); [lia|].
  destruct (itoa_go_spec (Z.to_nat n) n [] Hn ltac:(lia)) as (ds & -> & Hne & Hds & Hv).
  rewrite app_nil_r. by repeat split.
Qed.

(** *** The slug of a page title *)

Lemma digit_slug c : is_digit c = true → slug_byte c = true.
Proof. intros H. unfold slug_byte. rewrite H. by rewrite orb_true_r. Qed.

Lemma digits_slug d : forallb is_digit d = true → forallb slug_byte d = true.
Proof.
  rewrite !forallb_forall. intros H c Hc. by apply digit_slug, H.
Qed.

Lemma Contains_absent s x q : x ∉ s → Contains s (x :: q) = false.
Proof.
  induction s as [|c s IH]; [done|]. intros [Hne Hs]%not_elem_of_cons.
  rewrite Contains_cons, HasPrefix_head_ne by done. by apply IH.
Qed.

Lemma page_slug_ok d : digits d → slug_ok (str "page-" ++ d).
Proof.
  intros [Hne Hd]. pose proof (digits_slug d Hd) as Hs.
  assert (Hhy : "-"%char ∉ d).
  { intros Hin. rewrite forallb_forall in Hd. by apply list_elem_of_In, Hd in Hin. }
  split_and!.
  - by apply forallb_app_intro.
  - done.
  - rewrite last_app. destruct (last d) as [z|] eqn:Hz.
    + intros [= ->]. apply last_Some in Hz as [d' ->]. apply Hhy.
      apply elem_of_app. right. by left.
    + by apply last_None in Hz.
  - destruct d as [|c d']; [done|]. simpl in Hd. apply andb_true_iff in Hd as [Hc Hd'].
    change (str "page-" ++ c :: d') with (str "page-" ++ [c] ++ d').
    cbn [str list_ascii_of_string app Contains HasPrefix].
    rewrite (digit_ne_minus c Hc). cbn [Ascii.eqb Bool.eqb andb orb].
    apply Contains_absent. intros Hin. apply Hhy. by right.
Qed.

Lemma slugify_same s s' :
  ReplaceAll (TrimSpace (ToLower s)) (str " ") (str "-")
  = ReplaceAll (TrimSpace (ToLower s')) (str " ") (str "-") →
  slugify s = slugify s'.
Proof. intros H. unfold slugify. cbv zeta. by rewrite H. Qed.

Lemma strip_end_keep fa fb a b :
  length fa = length a → strip_end fb b ≠ [] →
  strip_end (fa ++ fb) (a ++ b) = a ++ strip_end fb b.
Proof.
  revert fa. induction a as [|x a IH]; intros [|f fa] Hlen Hb; try done.
  cbn [app strip_end]. rewrite IH by (simpl in Hlen; lia || done).
  destruct (a ++ strip_end fb b) eqn:E; [|done]. by destruct a.
Qed.

(** The slug of the title the page splitter gives page [d]. *)
Lemma slugify_page d : digits d → slugify (str "Page " ++ d) = str "page-" ++ d.
Proof.
  intros Hd. pose proof (page_slug_ok d Hd) as Hok.
  transitivity (slugify (str "page-" ++ d)); [|by apply slugify_slug].
  apply slugify_same.
  destruct Hok as (Hs & _). destruct Hd as [Hne Hd].
  pose proof (digits_slug d Hd) as Hds.
  assert (Hright : ReplaceAll (TrimSpace (ToLower (str "page-" ++ d))) (str " ") (str "-")
                   = str "page-" ++ d).
  { unfold ToLower. rewrite lower_go_slug, TrimSpace_slug by done.
    rewrite ReplaceAll_nonempty by done.
    by rewrite replace_go_absent by (done || intros x [= <-]; by apply slug_absent). }
  rewrite Hright.
  assert (Hlow : ToLower (str "Page " ++ d) = str "page " ++ d).
  { unfold ToLower. cbn [str list_ascii_of_string app lower_go HasPrefix bytes map].
    cbn [Ascii.eqb Bool.eqb andb ascii_of_nat ascii_of_pos].
    by rewrite lower_go_slug. }
  rewrite Hlow.
  assert (Htrim : TrimSpace (str "page " ++ d) = str "page " ++ d).
  { unfold TrimSpace.
    assert (trimLeft_go 0 (str "page " ++ d) = str "page " ++ d) as -> by done.
    assert (space_flags 0 (str "page " ++ d)
            = [false; false; false; false; true] ++ space_flags 0 d) as ->.
    { cbn [str list_ascii_of_string app space_flags].
      rewrite !space_width_plain by done. by rewrite space_width_space. }
    rewrite strip_end_keep; [|done|]; rewrite strip_end_slug by done; [done|].
    by destruct d. }
  rewrite Htrim, ReplaceAll_nonempty by done.
  cbn [str list_ascii_of_string app replace_go HasPrefix length Nat.sub].
  cbn [Ascii.eqb Bool.eqb andb].
  by rewrite (replace_go_absent (str " "))
    by (done || intros x [= <-]; by apply slug_absent).
Qed.

(** *** The sections of the fallback *)

Lemma filter_all {A} (P : A → Prop) `{∀ x, Decision (P x)} (l : list A) :
  Forall P l → filter P l = l.
Proof.
  induction 1 as [|x l Hx _ IH]; [done|]. by rewrite filter_cons, decide_True, IH.
Qed.

(** X16: in any mode but ["heading"] the fallback makes one section of
    each page: page [i] (from 1) has the number [i], the title [Page i],
    the span from [i] to [i], depth 1, no children and the slug [page-i];
    all of them are top-level sections. *)
Theorem fallbackSections_pages pages mode :
  mode ≠ str "heading" →
  fallbackSections pages mode
  = imap (λ k _,
            let i := (Z.of_nat k + 1)%Z in
            mkSection (itoa i) (str "Page " ++ itoa i) i i 1 (str "page-" ++ itoa i) [])
         pages
  ∧ filterTopLevel (fallbackSections pages mode) = fallbackSections pages mode.
Proof.
  intros Hmode. unfold fallbackSections. rewrite decide_False by done. split.
  - apply imap_ext. intros k p _. cbv zeta. f_equal.
    apply slugify_page, itoa_digits. lia.
  - unfold filterTopLevel. apply filter_all, Forall_forall.
    by intros s (k & p & -> & _)%elem_of_lookup_imap.
Qed.

Lemma fallbackSections_pages_witness :
  fallbackSections [str "a"; str "b"; str "c"] (str "page")
  = imap (λ k _,
            let i := (Z.of_nat k + 1)%Z in
            mkSection (itoa i) (str "Page " ++ itoa i) i i 1 (str "page-" ++ itoa i) [])
         [str "a"; str "b"; str "c"]
  ∧ filterTopLevel (fallbackSections [str "a"; str "b"; str "c"] (str "page"))
    = fallbackSections [str "a"; str "b"; str "c"] (str "page").
Proof.
  apply (fallbackSections_pages [str "a"; str "b"; str "c"] (str "page")).
  vm_compute. congruence.
Defined.

(** Sections that follow one another from page [lo] to page [hi], none
    ending before it starts. *)
Fixpoint covers (l : list SectionT) (lo hi : Z) : Prop :=
  match l with
  | [] => hi = (lo - 1)%Z
  | s :: rest => Start s = lo ∧ (lo ≤ EndPage s)%Z ∧ covers rest (EndPage s + 1) hi
  end.

Lemma covers_snoc l s lo :
  covers l lo (Start s - 1) → (Start s ≤ EndPage s)%Z →
  covers (l ++ [s]) lo (EndPage s).
Proof.
  revert lo. induction l as [|x l IH]; intros lo; cbn [covers app].
  - intros Hlo Hs. split_and!; lia.
  - intros (Hx & Hle & Hrest) Hs. split_and!; [done..|]. by apply IH.
Qed.

(** What the heading loop keeps true; [i] is the number of pages read. *)
Record headingInv (st : fstate) (i : Z) : Prop := {
  inv_out : covers (f_out st) 1 (Start (f_cur st) - 1);
  inv_start : (1 ≤ Start (f_cur st) ≤ Z.max 1 i)%Z;
  inv_end : EndPage (f_cur st) = Z.max 1 i;
  inv_idx : f_idx st = (Z.of_nat (length (f_out st)) + 1)%Z;
  inv_num : Number (f_cur st) = itoa (f_idx st);
  inv_nums : map Number (f_out st) = map (λ k, itoa (Z.of_nat k)) (seq 1 (length (f_out st)));
  inv_flat : Forall (λ s, Depth s = 1%Z ∧ Children s = []) (f_out st ++ [f_cur st])
}.

Lemma headingStep_inv st i page :
  (0 ≤ i)%Z → headingInv st i → headingInv (headingStep st (i + 1) page) (i + 1).
Proof.
  intros Hi [Hout Hstart Hend Hidx Hnum Hnums Hflat]. unfold headingStep. cbv zeta.
  destruct (find _ _) as [ln|] eqn:Hfind.
  - apply find_some in Hfind as [_ Hcond]. apply andb_true_iff in Hcond as [_ Hne].
    apply negb_true_iff, Z.eqb_neq in Hne.
    apply Forall_app in Hflat as [Hfo Hfc]. apply Forall_singleton in Hfc as [Hd Hc].
    constructor; cbn [f_out f_cur f_idx Start EndPage Number withEnd].
    + replace (i + 1 - 1)%Z with (EndPage (withEnd (f_cur st) (i + 1 - 1)))
        by (simpl; lia).
      apply covers_snoc; simpl; [done|lia].
    + lia.
    + lia.
    + rewrite length_app. simpl. lia.
    + done.
    + rewrite length_app, map_app, seq_app, map_app, Hnums. simpl.
      do 2 f_equal. rewrite Hnum, Hidx. f_equal. lia.
    + rewrite Forall_app. split; [|by repeat constructor].
      rewrite Forall_app. split; [done|]. by repeat constructor.
  - constructor; cbn [f_out f_cur f_idx Start EndPage Number withEnd]; try done; try lia.
    apply Forall_app in Hflat as [Hfo Hfc]. apply Forall_singleton in Hfc as [Hd Hc].
    rewrite Forall_app. split; [done|]. by repeat constructor.
Qed.

Lemma headingLoop_inv rest j st :
  headingInv st (Z.of_nat j) →
  headingInv (foldl (λ st '(k, p), headingStep st (Z.of_nat k + 1) p) st
                (imap (λ k p, (j + k, p)) rest))
             (Z.of_nat (j + length rest)).
Proof.
  revert j st. induction rest as [|p rest IH]; intros j st Hinv.
  - simpl. by rewrite Nat.add_0_r.
  - rewrite imap_cons. cbn [foldl]. rewrite Nat.add_0_r.
    rewrite (imap_ext _ (λ k p0, (S j + k, p0))) by (intros; simpl; f_equal; lia).
    replace (j + length (p :: rest)) with (S j + length rest) by (simpl; lia).
    apply IH. replace (Z.of_nat (S j)) with (Z.of_nat j + 1)%Z by lia.
    apply headingStep_inv; [lia|done].
Qed.

(** X17: in ["heading"] mode the fallback returns sections that follow one
    another without gap or overlap from page 1 to the last page (to page 1
    for a document without pages), none ending before it starts; they are
    numbered 1, 2, 3, ... in order, have depth 1 and no children, so all of
    them are top-level sections. *)
Theorem fallbackSections_heading pages :
  let out := fallbackSections pages (str "heading") in
  covers out 1 (Z.max 1 (Z.of_nat (length pages)))
  ∧ map Number out = map (λ k, itoa (Z.of_nat k)) (seq 1 (length out))
  ∧ Forall (λ s, Depth s = 1%Z ∧ Children s = []) out
  ∧ filterTopLevel out = out.
Proof.
  cbv zeta. unfold fallbackSections. rewrite decide_True by done. cbv zeta.
  set (st0 := FState [] _ 1).
  assert (Hinv0 : headingInv st0 (Z.of_nat 0)).
  { constructor; try done; simpl; try lia. by repeat constructor. }
  pose proof (headingLoop_inv pages 0 st0 Hinv0) as Hinv.
  rewrite (imap_ext _ pair) in Hinv by done.
  set (st := foldl _ _ _) in *. simpl in Hinv.
  destruct Hinv as [Hout Hstart Hend Hidx Hnum Hnums Hflat].
  split_and!.
  - rewrite <- Hend. apply covers_snoc; [done|lia].
  - rewrite length_app, map_app, seq_app, map_app, Hnums. simpl.
    do 2 f_equal. rewrite Hnum, Hidx. f_equal. lia.
  - done.
  - unfold filterTopLevel. apply filter_all.
    eapply Forall_impl; [exact Hflat|]. by intros s [? _].
Qed.

(** ** The locator and the parser *)

Lemma scanLines_ok l acc a :
  Forall (λ ln, isToCLine ln = true) acc →
  Forall (λ ln, isToCLine ln = true) (foldl scanLine (acc, a) l).1.
Proof.
  revert acc a. induction l as [|ln l IH]; intros acc a Hacc; [done|].
  cbn [foldl]. unfold scanLine at 2. destruct (TrimSpace ln) as [|c t] eqn:Ht; [by apply IH|].
  destruct (isToCLine (c :: t)) eqn:Hc; [|by apply IH].
  apply IH, Forall_app. split; [done|]. by repeat constructor.
Qed.

Lemma tocLinesOf_ok p : Forall (λ ln, isToCLine ln = true) (tocLinesOf p).
Proof. unfold tocLinesOf. rewrite scanPage_unfold. by apply scanLines_ok. Qed.

Lemma contributing_elem (added : list (list gostring)) x :
  x ∈ contributing added → x ∈ added.
Proof.
  induction added as [|l added IH]; [done|]. cbn [contributing].
  destruct l; [by intros ?%elem_of_nil|].
  intros [->|?]%elem_of_cons; [by left|right; by apply IH].
Qed.

Lemma findToCBlock_ok pages :
  Forall (λ p, isHeaderPage p = false) (take 6 pages) →
  Forall (λ ln, isToCLine ln = true) (findToCBlock pages).
Proof.
  intros Hno. unfold findToCBlock.
  assert (Hfirst : ∀ acc,
    foldl (λ lines p,
             if isHeaderPage p then
               foldl (λ lines ln,
                        if MatchString pageNumRe (TrimSpace ln)
                        then lines ++ [ln] else lines)
                     lines (Strings.Split p nl)
             else lines) acc (take 6 pages) = acc).
  { induction Hno as [|p l Hp _ IH]; intros acc; [done|]. cbn [foldl]. by rewrite Hp. }
  rewrite Hfirst.
  assert (Hsecond : ∀ l acc,
    Forall (λ ln, isToCLine ln = true) acc →
    Forall (λ ln, isToCLine ln = true)
      (foldl (λ lines p,
                foldl (λ lines ln,
                         let ln := TrimSpace ln in
                         if isToCLine ln then lines ++ [ln] else lines)
                      lines (Strings.Split p nl)) acc l)).
  { induction l as [|p l IH]; intros acc Hacc; [done|]. cbn [foldl]. apply IH.
    generalize (Strings.Split p nl). intros lns. revert acc Hacc.
    induction lns as [|ln lns IHl]; intros acc Hacc; [done|]. cbn [foldl]. apply IHl.
    cbv zeta. destruct (isToCLine (TrimSpace ln)) eqn:Hc; [|done].
    apply Forall_app. split; [done|]. by repeat constructor. }
  by apply Hsecond.
Qed.

Lemma findToCMultiPage_ok pages n :
  Forall (λ p, isHeaderPage p = false) (take 6 pages) →
  Forall (λ ln, isToCLine ln = true) (findToCMultiPage pages n).
Proof.
  intros Hno. unfold findToCMultiPage. cbv zeta.
  pose proof (findToCBlock_ok pages Hno) as Hblock.
  destruct (findToCBlock pages) as [|l ls] eqn:Hb.
  - generalize (imap pair pages). intros l.
    assert (Hgen : ∀ acc, Forall (λ ln, isToCLine ln = true) acc →
      Forall (λ ln, isToCLine ln = true)
        (foldl (λ out '(i, p),
                  if (Z.of_nat i <? (if (n <=? 0)%Z then 8 else n))%Z
                  then (scanPage out p).1 else out) acc l)); [|by apply Hgen].
    induction l as [|[i p] l IH]; intros acc Hacc; [done|]. cbn [foldl]. apply IH.
    destruct (_ <? _)%Z; [|done]. rewrite scanPage_spec. cbn [fst].
    apply Forall_app. split; [done|apply tocLinesOf_ok].
  - rewrite extendLoop_spec by lia. apply Forall_app. split; [done|].
    apply Forall_concat, Forall_forall. intros x Hx%contributing_elem.
    apply list_elem_of_fmap in Hx as (p & -> & _). apply tocLinesOf_ok.
Qed.

Lemma filter_all_length {A} (P : A → Prop) `{∀ x, Decision (P x)} (l : list A) :
  Forall P l → length (filter P l) = length l.
Proof. intros Hl. by rewrite filter_all. Qed.

(** X18: when none of the first six pages is a contents page (no
    ["table of contents"], no page that is just [Contents]), every line
    [findToCMultiPage] returns passes [isToCLine], and [parseToCLines] makes
    an entry of each of them: no line the locator hands on is lost by the
    parser. *)
Theorem findToCMultiPage_parses pages n :
  Forall (λ p, isHeaderPage p = false) (take 6 pages) →
  Forall (λ ln, isToCLine ln = true) (findToCMultiPage pages n)
  ∧ length (parseToCLines (findToCMultiPage pages n))
    = length (findToCMultiPage pages n).
Proof.
  intros Hno. pose proof (findToCMultiPage_ok pages n Hno) as Hok.
  split; [done|]. rewrite parseToCLines_length. by apply filter_all_length.
Qed.

Lemma findToCMultiPage_parses_witness :
  Forall (λ ln, isToCLine ln = true) (findToCMultiPage threePages 8)
  ∧ length (parseToCLines (findToCMultiPage threePages 8))
    = length (findToCMultiPage threePages 8).
Proof.
  apply (findToCMultiPage_parses threePages 8).
  repeat (constructor; [vm_compute; reflexivity|]). constructor.
Defined.
